(** * SciAnalysis.interfaces.streams: a push-based stream engine

    A shallow embedding of [src/SciAnalysis/interfaces/streams.py].

    Python objects flowing through the graph are values of the inductive
    type [value]; a call that may raise returns a [result].  Every node
    class is a record holding the attributes its [__init__] sets, and its
    [update] method is a function from that record and the incoming value to
    the mutated record and an [action]: what the method does in its [return]
    statement ([return self.emit(v)], a plain [return r], [return
    self.condition.wait()], or an exception leaving the method).  The graph
    interpreter at the end of the definitions executes the actions over a
    store of nodes, with Python's recursion limit as the depth bound.

    Embedded: Stream (wiring, emit, child), Sink, map, filter, scan,
    partition, sliding_window, zip, combine_latest, unique, union and
    collect.  Of the nodes that live on the tornado event loop, rate_limit
    is embedded as the coroutine it is: [update] takes the reading of the
    clock as an argument and returns what the coroutine yields.  The nodes
    that own a queue and a background task (timed_window, delay, buffer)
    have no counterpart here. *)

From stdpp Require Import base option list gmap strings.
From Stdlib Require Import ZArith Lia QArith Qminmax Lqa.

Close Scope Q_scope.

#[local] Set Warnings "-register-all,-clear-no-such-hyp".

(** ** Python values *)

Inductive value : Type :=
| VNone                                   (* None *)
| VNoDefault                              (* the module-level str object [no_default] *)
| VInt (z : Z)
| VStr (s : string)                       (* any other str object *)
| VTuple (l : list value)
| VList (l : list value)
| VFuture (id : nat)                      (* a tornado Future, compared by identity *)
| VObj (cls : string) (addr : nat).       (* an instance of a user class, compared by identity *)

Inductive exn : Type :=
| ValueError (msg : string)
| TypeError
| IndexError
| AttributeError
| RecursionError
| UserError (msg : string).

Inductive result (A : Type) : Type :=
| Ok (a : A)
| Raise (e : exn).
Arguments Ok {A} a.
Arguments Raise {A} e.

Definition sentinel_text : string := "--no-default--".

(** [no_default = '--no-default--']: one str object, tested with [is]. *)
Definition no_default : value := VNoDefault.

Definition is_no_default (v : value) : bool :=
  match v with VNoDefault => true | _ => false end.

Definition identity (x : value) : result value := Ok x.

Definition as_str (v : value) : option string :=
  match v with
  | VStr s => Some s
  | VNoDefault => Some sentinel_text
  | _ => None
  end.

(** Python's [==] on the values above: structural, the sentinel being an
    ordinary str for [==], futures and instances compared by identity. *)
Fixpoint py_eqb (a b : value) : bool :=
  let fix all2 (l l' : list value) : bool :=
    match l, l' with
    | [], [] => true
    | x :: l, y :: l' => py_eqb x y && all2 l l'
    | _, _ => false
    end in
  match a, b with
  | VNone, VNone => true
  | VInt x, VInt y => Z.eqb x y
  | VTuple l, VTuple l' => all2 l l'
  | VList l, VList l' => all2 l l'
  | VFuture i, VFuture j => Nat.eqb i j
  | VObj c i, VObj d j => String.eqb c d && Nat.eqb i j
  | (VStr _ | VNoDefault), (VStr _ | VNoDefault) =>
      match as_str a, as_str b with
      | Some s, Some t => String.eqb s t
      | _, _ => false
      end
  | _, _ => false
  end.

(** [hash(v)] succeeds: lists are unhashable, tuples hash their items. *)
Fixpoint hashable (v : value) : bool :=
  match v with
  | VList _ => false
  | VTuple l => forallb hashable l
  | _ => true
  end.

(** Truth value of an object, as [if v:] and [all(...)] test it. *)
Definition truthy (v : value) : bool :=
  match v with
  | VNone => false
  | VInt z => negb (Z.eqb z 0%Z)
  | VStr s => negb (String.eqb s "")
  | VTuple l | VList l => negb (Nat.eqb (length l) 0)
  | _ => true
  end.

(** [a + b] for the built-in types. *)
Definition py_add (a b : value) : result value :=
  match a, b with
  | VInt x, VInt y => Ok (VInt (x + y)%Z)
  | VTuple l, VTuple l' => Ok (VTuple (l ++ l'))
  | VList l, VList l' => Ok (VList (l ++ l'))
  | _, _ =>
      match as_str a, as_str b with
      | Some s, Some t => Ok (VStr (s +:+ t))
      | _, _ => Raise TypeError
      end
  end.

(** ** Types and the dispatch registries *)

Inductive pytype : Type :=
| TNoneType | TInt | TStr | TTuple | TList | TFuture | TClass (cls : string).

Definition pytype_eqb (a b : pytype) : bool :=
  match a, b with
  | TNoneType, TNoneType | TInt, TInt | TStr, TStr | TTuple, TTuple
  | TList, TList | TFuture, TFuture => true
  | TClass c, TClass d => String.eqb c d
  | _, _ => false
  end.

Definition type_of (v : value) : pytype :=
  match v with
  | VNone => TNoneType
  | VNoDefault | VStr _ => TStr
  | VInt _ => TInt
  | VTuple _ => TTuple
  | VList _ => TList
  | VFuture _ => TFuture
  | VObj c _ => TClass c
  end.

(** A user function of one or of two arguments. *)
Definition func1 : Type := value -> result value.
Definition func2 : Type := value -> value -> result value.

(** A handler registered with [stream_map.register(T)]: it receives the
    wrapped function and the object. *)
Definition map_handler : Type := func1 -> value -> result value.

(** A handler registered with [stream_accumulate.register(T)]: it receives
    the previous object, the next object and the wrapped function. *)
Definition accumulate_handler : Type := value -> value -> func2 -> result value.

(** A [singledispatch] registry: the registrations, most recent first.  None
    of the types above has a registered base class other than [object], so
    [dispatch] finds the handler registered for the type itself or falls back
    to the base implementation ([None]), which applies the function to its
    arguments. *)
Definition registry (H : Type) : Type := list (pytype * H).

Definition register {H : Type} (t : pytype) (h : H) (reg : registry H) : registry H :=
  (t, h) :: reg.

Fixpoint dispatch {H : Type} (reg : registry H) (t : pytype) : option H :=
  match reg with
  | [] => None
  | (t', h) :: reg' => if pytype_eqb t' t then Some h else dispatch reg' t
  end.

(** [_stream_map(func, x)]: the handler of [type(x)] gets
    [partial(_stream_map, func)], which re-enters the dispatch; [depth] is
    the number of Python frames left before [RecursionError]. *)
Fixpoint _stream_map (depth : nat) (reg : registry map_handler) (func : func1)
    (x : value) : result value :=
  match dispatch reg (type_of x) with
  | None => func x
  | Some sm =>
      match depth with
      | O => Raise RecursionError
      | S depth' => sm (_stream_map depth' reg func) x
      end
  end.

(** [_stream_accumulate(prevobj, nextobj, func=func)]. *)
Fixpoint _stream_accumulate (depth : nat) (reg : registry accumulate_handler)
    (func : func2) (prevobj nextobj : value) : result value :=
  if is_no_default prevobj then Ok nextobj
  else
    match dispatch reg (type_of prevobj) with
    | None => func prevobj nextobj
    | Some sm =>
        match depth with
        | O => Raise RecursionError
        | S depth' => sm prevobj nextobj (_stream_accumulate depth' reg func)
        end
    end.

(** What a user class provides: [__stream_merge__], looked up with
    [hasattr] by zip and combine_latest. *)
Definition merge_method : Type := value -> list value -> result value.
Definition class_table : Type := string -> option merge_method.

Definition stream_merge_of (classes : class_table) (v : value) : option merge_method :=
  match v with
  | VObj c _ => classes c
  | _ => None
  end.

(** ** What an [update] method does when it returns *)

Inductive action : Type :=
| Emit (v : value)         (* return self.emit(v) *)
| Return (r : value)       (* return r; falling off the end returns None *)
| Wait                     (* return self.condition.wait() *)
| Throw (e : exn).         (* an exception leaves the method *)

Definition emitted_of (a : action) : list value :=
  match a with Emit v => [v] | _ => [] end.

Definition is_emit (a : action) : bool :=
  match a with Emit _ => true | _ => false end.

(** Feed the inputs [xs] one by one to an [update] function. *)
Fixpoint run {St X : Type} (upd : St -> X -> St * action) (st : St) (xs : list X)
    : St * list action :=
  match xs with
  | [] => (st, [])
  | x :: xs' =>
      let '(st1, a) := upd st x in
      let '(st2, acts) := run upd st1 xs' in
      (st2, a :: acts)
  end.

Definition emissions (acts : list action) : list value :=
  concat (map emitted_of acts).

(** ** scan *)

Record scan : Type := mk_scan {
  scan_func : func2;
  scan_raw : bool;
  scan_state : value
}.

Definition scan_init (func : func2) (raw : bool) (start : value) : scan :=
  mk_scan func raw start.

Definition scan_update (depth : nat) (reg : registry accumulate_handler)
    (self : scan) (x : value) : scan * action :=
  let r :=
    if scan_raw self then scan_func self (scan_state self) x
    else _stream_accumulate depth reg (scan_func self) (scan_state self) x in
  match r with
  | Ok res => (mk_scan (scan_func self) (scan_raw self) res, Emit res)
  | Raise e => (self, Throw e)
  end.

(** ** partition *)

Record partition : Type := mk_partition {
  partition_n : Z;
  partition_buffer : list value
}.

Definition partition_init (n : Z) : partition := mk_partition n [].

Definition partition_update (self : partition) (x : value) : partition * action :=
  let buffer := partition_buffer self ++ [x] in
  if Z.eqb (Z.of_nat (length buffer)) (partition_n self)
  then (mk_partition (partition_n self) [], Emit (VTuple buffer))
  else (mk_partition (partition_n self) buffer, Return (VList [])).

(** ** sliding_window *)

(** [deque(maxlen=n).append(x)]: the oldest item leaves when the deque is
    full.  [deque(maxlen=n)] itself refuses a negative [n], so the bound of
    a constructed node is a natural number. *)
Definition deque_append (maxlen : nat) (d : list value) (x : value) : list value :=
  let d' := d ++ [x] in
  if Nat.ltb maxlen (length d') then drop 1 d' else d'.

Record sliding_window : Type := mk_sliding_window {
  sliding_window_n : nat;
  sliding_window_buffer : list value
}.

Definition sliding_window_init (n : nat) : sliding_window := mk_sliding_window n [].

Definition sliding_window_update (self : sliding_window) (x : value)
    : sliding_window * action :=
  let buffer := deque_append (sliding_window_n self) (sliding_window_buffer self) x in
  let self' := mk_sliding_window (sliding_window_n self) buffer in
  if Nat.eqb (length buffer) (sliding_window_n self)
  then (self', Emit (VTuple buffer))
  else (self', Return (VList [])).

(** ** unique *)

(** [y in seen] for a dict (or an LRU over a dict) whose keys are [seen]. *)
Definition seen_contains (seen : list value) (y : value) : bool :=
  existsb (py_eqb y) seen.

(** Modelled from the spec: [zict.LRU], imported by [unique.__init__], is
    not part of this repository.  The spec describes it as a size-bounded
    structure "that evicts the oldest key once its bound is exceeded";
    [unique] only ever stores a key that is absent, so the keys are kept
    oldest first and storing one drops keys from the front until at most
    [n] are left. *)
Definition lru_setitem (n : Z) (seen : list value) (y : value) : list value :=
  let seen' := seen ++ [y] in
  drop (length seen' - Z.to_nat n) seen'.

Record unique : Type := mk_unique {
  unique_key : func1;
  unique_history : option Z;       (* history=None is [None] *)
  unique_seen : list value         (* the keys of [self.seen], oldest first *)
}.

Definition unique_init (history : option Z) (key : func1) : unique :=
  mk_unique key history [].

(** [self.seen[y] = 1]; [if history:] chose the LRU when [history] is an
    integer other than 0. *)
Definition seen_setitem (history : option Z) (seen : list value) (y : value) : list value :=
  match history with
  | Some n => if Z.eqb n 0 then seen ++ [y] else lru_setitem n seen y
  | None => seen ++ [y]
  end.

Definition unique_update (self : unique) (x : value) : unique * action :=
  match unique_key self x with
  | Raise e => (self, Throw e)
  | Ok y =>
      if negb (hashable y) then (self, Throw TypeError)
      else if seen_contains (unique_seen self) y then (self, Return VNone)
      else (mk_unique (unique_key self) (unique_history self)
              (seen_setitem (unique_history self) (unique_seen self) y),
            Emit x)
  end.

(** ** Multi-input nodes: which input did the value come from *)

Definition who_eqb (a b : option nat) : bool :=
  match a, b with
  | Some i, Some j => Nat.eqb i j
  | None, None => true
  | _, _ => false
  end.

(** [children.index(who)] *)
Fixpoint index (who : option nat) (children : list (option nat)) : option nat :=
  match children with
  | [] => None
  | c :: rest => if who_eqb c who then Some O else S <$> index who rest
  end.

(** [tup[0].__stream_merge__( *tup[1:])] when [tup] is not empty and its
    first item has the attribute, [tup] otherwise. *)
Definition merge_tuple (classes : class_table) (tup : list value) : result value :=
  match tup with
  | first :: others =>
      match stream_merge_of classes first with
      | Some m => m first others
      | None => Ok (VTuple tup)
      end
  | [] => Ok (VTuple tup)
  end.

Definition emit_merged (classes : class_table) (tup : list value) : action :=
  match merge_tuple classes tup with
  | Ok v => Emit v
  | Raise e => Throw e
  end.

(** ** zip *)

Record zip : Type := mk_zip {
  zip_maxsize : Z;
  zip_buffers : list (list value)
}.

Definition zip_init (maxsize : Z) (children : list (option nat)) : zip :=
  mk_zip maxsize (map (fun _ => []) children).

Definition nonempty (buf : list value) : bool :=
  match buf with [] => false | _ :: _ => true end.

(** [buf.popleft()] for every buffer, left to right. *)
Fixpoint popleft_all (buffers : list (list value)) : option (list value * list (list value)) :=
  match buffers with
  | [] => Some ([], [])
  | [] :: _ => None
  | (x :: buf) :: rest =>
      match popleft_all rest with
      | Some (tup, rest') => Some (x :: tup, buf :: rest')
      | None => None
      end
  end.

Definition zip_update (classes : class_table) (children : list (option nat))
    (self : zip) (x : value) (who : option nat) : zip * action :=
  match index who children with
  | None => (self, Throw (ValueError "tuple.index(x): x not in tuple"))
  | Some i =>
      match zip_buffers self !! i with
      | None => (self, Throw IndexError)
      | Some L =>
          let L' := L ++ [x] in
          let buffers := <[i := L']> (zip_buffers self) in
          if Nat.eqb (length L') 1 && forallb nonempty buffers then
            match popleft_all buffers with
            | Some (tup, buffers') =>
                (mk_zip (zip_maxsize self) buffers', emit_merged classes tup)
            | None => (mk_zip (zip_maxsize self) buffers, Throw IndexError)
            end
          else if Z.ltb (zip_maxsize self) (Z.of_nat (length L')) then
            (mk_zip (zip_maxsize self) buffers, Wait)
          else (mk_zip (zip_maxsize self) buffers, Return VNone)
      end
  end.

(** ** combine_latest *)

Record combine_latest : Type := mk_combine_latest {
  combine_latest_last : list value;
  combine_latest_missing : gset (option nat)
}.

Definition combine_latest_init (children : list (option nat)) : combine_latest :=
  mk_combine_latest (map (fun _ => VNone) children) (list_to_set children).

Definition combine_latest_update (classes : class_table) (children : list (option nat))
    (self : combine_latest) (x : value) (who : option nat) : combine_latest * action :=
  let missing :=
    if decide (combine_latest_missing self ≠ ∅ ∧ who ∈ combine_latest_missing self)
    then combine_latest_missing self ∖ {[ who ]}
    else combine_latest_missing self in
  match index who children with
  | None => (mk_combine_latest (combine_latest_last self) missing,
             Throw (ValueError "tuple.index(x): x not in tuple"))
  | Some i =>
      if decide (i < length (combine_latest_last self))%nat then
        let last := <[i := x]> (combine_latest_last self) in
        let self' := mk_combine_latest last missing in
        if bool_decide (missing = ∅) && who_eqb who (default None (children !! O))
        then (self', emit_merged classes last)
        else (self', Return VNone)
      else (mk_combine_latest (combine_latest_last self) missing, Throw IndexError)
  end.

(** ** Nodes and the store *)

(** What a Sink calls on every element. *)
Inductive callback : Type :=
| CbPure (f : func1)              (* a function that does not touch the graph *)
| CbAppend (L : nat)              (* [L.append], [L] a list of the heap *)
| CbFlush (collector : nat).      (* [collector.flush] *)

Inductive kind : Type :=
| KStream
| KSink (func : callback)
| KMap (func : func1) (raw : bool)
| KFilter (predicate : func1)
| KScan (st : scan)
| KPartition (st : partition)
| KSlidingWindow (st : sliding_window)
| KZip (st : zip)
| KCombineLatest (st : combine_latest)
| KUnique (st : unique)
| KUnion
| KCollect (cache : nat).

(** [Stream]: [parents] are the nodes to notify, [children] the upstream
    nodes (a node built with [child=None] has [children = [None]]). *)
Record Stream : Type := mk_Stream {
  parents : list nat;
  children : list (option nat);
  node_kind : kind
}.

Record store : Type := mk_store {
  nodes : list Stream;
  heap : list (list value);                        (* lists and deques, shared by reference *)
  futures : nat;                                   (* futures created so far *)
  stream_map : registry map_handler;
  stream_accumulate : registry accumulate_handler;
  classes : class_table
}.

Definition set_nodes (ns : list Stream) (s : store) : store :=
  mk_store ns (heap s) (futures s) (stream_map s) (stream_accumulate s) (classes s).

Definition set_heap (h : list (list value)) (s : store) : store :=
  mk_store (nodes s) h (futures s) (stream_map s) (stream_accumulate s) (classes s).

Definition set_futures (n : nat) (s : store) : store :=
  mk_store (nodes s) (heap s) n (stream_map s) (stream_accumulate s) (classes s).

Definition set_kind (self : nat) (k : kind) (s : store) : store :=
  set_nodes (alter (fun nd => mk_Stream (parents nd) (children nd) k) self (nodes s)) s.

Definition add_parent (self : nat) (nd : Stream) : Stream :=
  mk_Stream (parents nd ++ [self]) (children nd) (node_kind nd).

(** [Stream.__init__]: the new node registers itself with every child. *)
Definition Stream_init (chn : list (option nat)) (k : kind) (s : store) : nat * store :=
  let self := length (nodes s) in
  let created := nodes s ++ [mk_Stream [] chn k] in
  let wired :=
    fold_left (fun ns child =>
                 match child with
                 | Some c => alter (add_parent self) c ns
                 | None => ns
                 end) chn created in
  (self, set_nodes wired s).

(** [list()] or [deque()]: a fresh empty list on the heap. *)
Definition new_list (s : store) : nat * store :=
  (length (heap s), set_heap (heap s ++ [[]]) s).

(** The [child] property. *)
Definition child (self : Stream) : result (option nat) :=
  match children self with
  | [c] => Ok c
  | _ => Raise (ValueError "Stream has multiple children")
  end.

(** Reading [node.child] in a store. *)
Definition Stream_child (self : nat) (s : store) : result (option nat) * store :=
  match nodes s !! self with
  | Some nd => (child nd, s)
  | None => (Raise AttributeError, s)
  end.

(** The upstream inputs of a node: the entries of [children] that are
    streams, those with which [Stream.__init__] registers the node.  A source,
    built with [child=None], has [children == [None]] and no upstream
    input. *)
Definition upstream_inputs (self : Stream) : list nat :=
  omap id (children self).

(** ** emit *)

Definition not_none (v : value) : bool :=
  match v with VNone => false | _ => true end.

(** [result.extend(r)] if [type(r) is list], [result.append(r)] otherwise. *)
Definition collect_result (res : list value) (r : value) : list value :=
  match r with
  | VList l => res ++ l
  | _ => res ++ [r]
  end.

(** The loop of [Stream.emit] over [self.parents]; [upd parent x who] is
    [parent.update(x, who=who)], acting on a state of type [S]. *)
Fixpoint emit_loop {S : Type} (upd : nat -> value -> option nat -> S -> result value * S)
    (self : nat) (x : value) (listeners : list nat) (res : list value) (s : S)
    : result value * S :=
  match listeners with
  | [] => (Ok (VList (List.filter not_none res)), s)
  | parent :: rest =>
      match upd parent x (Some self) s with
      | (Ok r, s') => emit_loop upd self x rest (collect_result res r) s'
      | (Raise e, s') => (Raise e, s')
      end
  end.

Definition Stream_emit {S : Type} (upd : nat -> value -> option nat -> S -> result value * S)
    (self : nat) (x : value) (listeners : list nat) (s : S) : result value * S :=
  emit_loop upd self x listeners [] s.

(** ** collect *)

Definition collect_update (cache : nat) (x : value) (s : store) : result value * store :=
  match heap s !! cache with
  | Some vs => (Ok VNone, set_heap (<[cache := vs ++ [x]]> (heap s)) s)
  | None => (Raise AttributeError, s)
  end.

(** [collect.flush]: [out = tuple(self.cache); self.emit(out);
    self.cache.clear()]. *)
Definition collect_flush (upd : nat -> value -> option nat -> store -> result value * store)
    (self : nat) (s : store) : result value * store :=
  match nodes s !! self with
  | Some nd =>
      match node_kind nd with
      | KCollect cache =>
          match heap s !! cache with
          | Some vs =>
              match Stream_emit upd self (VTuple vs) (parents nd) s with
              | (Ok _, s') => (Ok VNone, set_heap (<[cache := []]> (heap s')) s')
              | (Raise e, s') => (Raise e, s')
              end
          | None => (Raise AttributeError, s)
          end
      | _ => (Raise AttributeError, s)
      end
  | None => (Raise AttributeError, s)
  end.

(** ** The graph interpreter *)

(** Carry out what an [update] method returns. *)
Definition perform (emit : value -> store -> result value * store) (a : action) (s : store)
    : result value * store :=
  match a with
  | Emit v => emit v s
  | Return r => (Ok r, s)
  | Wait => (Ok (VFuture (futures s)), set_futures (S (futures s)) s)
  | Throw e => (Raise e, s)
  end.

(** [Sink.update]: [result = self.func(x)], the result returned if it is a
    Future, [[]] otherwise. *)
Definition sink_result (r : value) : value :=
  match r with
  | VFuture i => VFuture i
  | _ => VList []
  end.

(** [node.update(x, who=who)] for the node [self] of the store, [depth]
    calls below the recursion limit. *)
Fixpoint update (depth : nat) (self : nat) (x : value) (who : option nat) (s : store)
    {struct depth} : result value * store :=
  match depth with
  | O => (Raise RecursionError, s)
  | S depth' =>
      match nodes s !! self with
      | None => (Raise AttributeError, s)
      | Some nd =>
          let emit v s := Stream_emit (update depth') self v (parents nd) s in
          let step (st : kind) (a : action) := perform emit a (set_kind self st s) in
          match node_kind nd with
          | KStream => (Raise AttributeError, s)
          | KSink (CbPure f) =>
              match f x with
              | Ok r => (Ok (sink_result r), s)
              | Raise e => (Raise e, s)
              end
          | KSink (CbAppend L) =>
              match heap s !! L with
              | Some vs => (Ok (VList []), set_heap (<[L := vs ++ [x]]> (heap s)) s)
              | None => (Raise AttributeError, s)
              end
          | KSink (CbFlush c) =>
              match collect_flush (update depth') c s with
              | (Ok r, s') => (Ok (sink_result r), s')
              | (Raise e, s') => (Raise e, s')
              end
          | KMap func raw =>
              match (if raw then func x else _stream_map depth' (stream_map s) func x) with
              | Ok y => emit y s
              | Raise e => (Raise e, s)
              end
          | KFilter predicate =>
              match predicate x with
              | Ok b => if truthy b then emit x s else (Ok VNone, s)
              | Raise e => (Raise e, s)
              end
          | KScan st =>
              let '(st', a) := scan_update depth' (stream_accumulate s) st x in
              step (KScan st') a
          | KPartition st =>
              let '(st', a) := partition_update st x in step (KPartition st') a
          | KSlidingWindow st =>
              let '(st', a) := sliding_window_update st x in step (KSlidingWindow st') a
          | KZip st =>
              let '(st', a) := zip_update (classes s) (children nd) st x who in
              step (KZip st') a
          | KCombineLatest st =>
              let '(st', a) := combine_latest_update (classes s) (children nd) st x who in
              step (KCombineLatest st') a
          | KUnique st =>
              let '(st', a) := unique_update st x in step (KUnique st') a
          | KUnion => emit x s
          | KCollect cache => collect_update cache x s
          end
      end
  end.

(** [node.emit(x)], called from outside the graph. *)
Definition emit (depth : nat) (self : nat) (x : value) (s : store) : result value * store :=
  match nodes s !! self with
  | Some nd => Stream_emit (update depth) self x (parents nd) s
  | None => (Raise AttributeError, s)
  end.

(** [collector.flush()], called from outside the graph. *)
Definition flush (depth : nat) (self : nat) (s : store) : result value * store :=
  collect_flush (update depth) self s.

(** [for x in xs: node.emit(x)]; the first exception ends the loop. *)
Fixpoint emit_all (depth : nat) (self : nat) (xs : list value) (s : store)
    : result unit * store :=
  match xs with
  | [] => (Ok tt, s)
  | x :: xs' =>
      match emit depth self x s with
      | (Ok _, s') => emit_all depth self xs' s'
      | (Raise e, s') => (Raise e, s')
      end
  end.

(** A fresh interpreter state: no node, no registration, no user class. *)
Definition empty_store : store := mk_store [] [] 0 [] [] (fun _ => None).

(** ** Graphs used in the scenarios *)

(** [source = Stream(); L = source.scan(func).sink_to_list()]: the store, the
    source node and the list [L]. *)
Definition scan_to_list (func : func2) (raw : bool) (start : value) : store * nat * nat :=
  let '(source, s) := Stream_init [None] KStream empty_store in
  let '(sc, s) := Stream_init [Some source] (KScan (scan_init func raw start)) s in
  let '(L, s) := new_list s in
  let '(_, s) := Stream_init [Some sc] (KSink (CbAppend L)) s in
  (s, source, L).

(** A handler that a collaborator could register with
    [stream_accumulate.register(tuple)], in the manner of the wrapper of
    [test_stream_map_wrapper]: it takes the content out of a one-item tuple,
    applies the wrapped function to it and wraps the result again. *)
Definition unwrap_handler : accumulate_handler :=
  fun prevobj nextobj func =>
    match prevobj with
    | VTuple [p] =>
        match func p nextobj with
        | Ok r => Ok (VTuple [r])
        | Raise e => Raise e
        end
    | _ => Raise TypeError
    end.

(** [lambda p, n: n] *)
Definition keep_next : func2 := fun _ n => Ok n.

(** ** Observing the calls that [emit] makes *)

(** A call [parent.update(x, who=who)], as seen by the listener. *)
Definition call : Type := (nat * value * option nat)%type.

(** The listeners [upd], with every call written to a log as it is made. *)
Definition recorded {S : Type} (upd : nat -> value -> option nat -> S -> result value * S)
    : nat -> value -> option nat -> S * list call -> result value * (S * list call) :=
  fun parent x who '(s, log) =>
    let '(r, s') := upd parent x who s in
    (r, (s', log ++ [(parent, x, who)])).

(** The results of the listeners, one after the other in the order of the
    list; the first exception ends the calls. *)
Fixpoint call_listeners {S : Type} (upd : nat -> value -> option nat -> S -> result value * S)
    (self : nat) (x : value) (listeners : list nat) (s : S) : result (list value) * S :=
  match listeners with
  | [] => (Ok [], s)
  | parent :: rest =>
      match upd parent x (Some self) s with
      | (Ok r, s') =>
          match call_listeners upd self x rest s' with
          | (Ok rs, s'') => (Ok (r :: rs), s'')
          | (Raise e, s'') => (Raise e, s'')
          end
      | (Raise e, s') => (Raise e, s')
      end
  end.

(** A list result contributes its items, any other result itself. *)
Definition flatten_one_level (rs : list value) : list value :=
  concat (map (fun r => match r with VList l => l | _ => [r] end) rs).

(** Listeners answering [None], a list holding a [None], and a future. *)
Definition three_answers : nat -> value -> option nat -> unit -> result value * unit :=
  fun parent _ _ s =>
    match parent with
    | 0%nat => (Ok VNone, s)
    | 1%nat => (Ok (VList [VFuture 7; VNone]), s)
    | _ => (Ok (VFuture 8), s)
    end.

(** The items of an emitted group. *)
Definition tuple_items (v : value) : list value :=
  match v with
  | VTuple l => l
  | _ => []
  end.

(** The last [n] items of a list (all of them if there are fewer). *)
Definition last_n (n : nat) (l : list value) : list value :=
  drop (length l - n) l.

(** The windows that [n] and the pushed values [xs] call for: one per push
    [k = max n 1, ..., length xs], holding the last [n] of the first [k]
    values. *)
Definition windows (n : nat) (xs : list value) : list value :=
  map (fun k => VTuple (last_n n (take k xs)))
      (seq (Nat.max n 1) (length xs + 1 - Nat.max n 1)).

(** An arrival at a multi-input node: the source and the value. *)
Definition arrival : Type := (option nat * value)%type.

(** The values that arrived from [who], in arrival order. *)
Definition arrivals (who : option nat) (evs : list arrival) : list value :=
  map snd (List.filter (fun ev => who_eqb (fst ev) who) evs).

Definition zip_step (classes : class_table) (children : list (option nat))
    (self : zip) (ev : arrival) : zip * action :=
  zip_update classes children self (snd ev) (fst ev).

Definition combine_latest_step (classes : class_table) (children : list (option nat))
    (self : combine_latest) (ev : arrival) : combine_latest * action :=
  combine_latest_update classes children self (snd ev) (fst ev).

(** A class table with one class, [Doc], whose [__stream_merge__] returns
    the receiver. *)
Definition doc_classes : class_table :=
  fun c => if String.eqb c "Doc" then Some (fun self _ => Ok self) else None.

(** [a = Stream(); b = Stream(); z = a.zip(b)]: the store and the three
    nodes. *)
Definition zip_of_two : store * nat * nat * nat :=
  let '(a, s) := Stream_init [None] KStream empty_store in
  let '(b, s) := Stream_init [None] KStream s in
  let '(z, s) := Stream_init [Some a; Some b] (KZip (zip_init 10 [Some a; Some b])) s in
  (s, a, b, z).

(** The example of [Stream.collect]:
    [collector = collect(source1); L = collector.sink_to_list();
     source2.sink(collector.flush)]. *)
Definition collect_example : store * nat * nat * nat * nat * nat :=
  let '(source1, s) := Stream_init [None] KStream empty_store in
  let '(source2, s) := Stream_init [None] KStream s in
  let '(cache, s) := new_list s in
  let '(collector, s) := Stream_init [Some source1] (KCollect cache) s in
  let '(L, s) := new_list s in
  let '(_, s) := Stream_init [Some collector] (KSink (CbAppend L)) s in
  let '(_, s) := Stream_init [Some source2] (KSink (CbFlush collector)) s in
  (s, source1, source2, collector, cache, L).

(** [source1.emit(1); source1.emit(2); source2.emit('anything');
    source2.emit('again')] on the example above. *)
Definition collect_example_run : result value * store :=
  let '(s, source1, source2, _, _, _) := collect_example in
  match emit_all 10 source1 [VInt 1; VInt 2] s with
  | (Ok _, s1) =>
      match emit 10 source2 (VStr "anything") s1 with
      | (Ok _, s2) => emit 10 source2 (VStr "again") s2
      | r => r
      end
  | (Raise e, s1) => (Raise e, s1)
  end.

(** Listeners of which the second raises: they count the calls made. *)
Definition second_raises : nat -> value -> option nat -> nat -> result value * nat :=
  fun parent _ _ calls =>
    match parent with
    | 1%nat => (Raise (UserError "boom"), S calls)
    | _ => (Ok (VList []), S calls)
    end.

Definition is_future (v : value) : bool :=
  match v with VFuture _ => true | _ => false end.

(** [source = Stream(); source.sink(f); source.sink(g)] where [f] returns a
    future and [g] returns [None]. *)
Definition two_sinks : store * nat :=
  let '(source, s) := Stream_init [None] KStream empty_store in
  let '(_, s) := Stream_init [Some source] (KSink (CbPure (fun _ => Ok (VFuture 4)))) s in
  let '(_, s) := Stream_init [Some source] (KSink (CbPure (fun _ => Ok VNone))) s in
  (s, source).

(** [L = source.map(func, raw=raw).sink_to_list()] on a fresh source. *)
Definition map_to_list (func : func1) (raw : bool) : store * nat * nat :=
  let '(source, s) := Stream_init [None] KStream empty_store in
  let '(m, s) := Stream_init [Some source] (KMap func raw) s in
  let '(L, s) := new_list s in
  let '(_, s) := Stream_init [Some m] (KSink (CbAppend L)) s in
  (s, source, L).

(** [L = source.filter(predicate).sink_to_list()] on a fresh source. *)
Definition filter_to_list (predicate : func1) : store * nat * nat :=
  let '(source, s) := Stream_init [None] KStream empty_store in
  let '(m, s) := Stream_init [Some source] (KFilter predicate) s in
  let '(L, s) := new_list s in
  let '(_, s) := Stream_init [Some m] (KSink (CbAppend L)) s in
  (s, source, L).

(** [lambda x: x + 1] *)
Definition inc : func1 := fun x => py_add x (VInt 1).

(** [lambda x: x] used as a predicate: the truth value of the element. *)
Definition is_true : func1 := fun x => Ok x.

(** The running left folds of [g] over [xs], starting from [a]:
    [g a x1], [g (g a x1) x2], ... *)
Fixpoint running_folds (g : value -> value -> value) (a : value) (xs : list value)
    : list value :=
  match xs with
  | [] => []
  | x :: xs' => g a x :: running_folds g (g a x) xs'
  end.

(** An accumulation function that refuses negative numbers. *)
Definition add_nonnegative : func2 :=
  fun p n =>
    match n with
    | VInt z => if Z.ltb z 0 then Raise (UserError "negative") else py_add p n
    | _ => Raise TypeError
    end.

(** The last value that arrived from [who], [None] if none has. *)
Definition latest (who : option nat) (evs : list arrival) : value :=
  List.last (arrivals who evs) VNone.

(** [for (node, x) in evs: node.emit(x)]; the first exception ends the loop. *)
Fixpoint emit_seq (depth : nat) (evs : list (nat * value)) (s : store)
    : result unit * store :=
  match evs with
  | [] => (Ok tt, s)
  | (node, x) :: evs' =>
      match emit depth node x s with
      | (Ok _, s') => emit_seq depth evs' s'
      | (Raise e, s') => (Raise e, s')
      end
  end.

(** [L = a.union(b).sink_to_list()] on two fresh sources. *)
Definition union_to_list : store * nat * nat * nat :=
  let '(a, s) := Stream_init [None] KStream empty_store in
  let '(b, s) := Stream_init [None] KStream s in
  let '(u, s) := Stream_init [Some a; Some b] KUnion s in
  let '(L, s) := new_list s in
  let '(_, s) := Stream_init [Some u] (KSink (CbAppend L)) s in
  (s, a, b, L).

(** ** concat *)

(** The one-character strings of a str, as iteration yields them. *)
Definition chars (s : string) : list value :=
  map (fun c => VStr (String c EmptyString)) (String.list_ascii_of_string s).

(** [iter(x)] for the built-in types: the items of a list or tuple, the
    characters of a str; integers, [None] and futures are not iterable.
    Instances of user classes are taken to define no [__iter__]. *)
Definition py_iter (x : value) : result (list value) :=
  match x with
  | VList l | VTuple l => Ok l
  | VStr s => Ok (chars s)
  | VNoDefault => Ok (chars sentinel_text)
  | _ => Raise TypeError
  end.

(** The loop of [concat.update]: [y = self.emit(item)] for every item,
    the results gathered in [L]. *)
Fixpoint concat_loop {S : Type} (upd : nat -> value -> option nat -> S -> result value * S)
    (self : nat) (listeners : list nat) (items : list value) (L : list value) (s : S)
    : result value * S :=
  match items with
  | [] => (Ok (VList L), s)
  | item :: rest =>
      match Stream_emit upd self item listeners s with
      | (Ok y, s') => concat_loop upd self listeners rest (collect_result L y) s'
      | (Raise e, s') => (Raise e, s')
      end
  end.

(** [concat.update(x)], [iterate] being the iteration protocol. *)
Definition concat_update {S : Type} (iterate : value -> result (list value))
    (upd : nat -> value -> option nat -> S -> result value * S)
    (self : nat) (listeners : list nat) (x : value) (s : S) : result value * S :=
  match iterate x with
  | Ok items => concat_loop upd self listeners items [] s
  | Raise e => (Raise e, s)
  end.

(** Listeners that return an empty list and do nothing. *)
Definition quiet : nat -> value -> option nat -> unit -> result value * unit :=
  fun _ _ _ s => (Ok (VList []), s).

(** A [stream_map] handler in the manner of the wrapper of
    [test_stream_map_wrapper], for a one-item tuple as the container: it
    applies the wrapped function to the content and wraps the result. *)
Definition unwrap_map_handler : map_handler :=
  fun func obj =>
    match obj with
    | VTuple [p] =>
        match func p with
        | Ok r => Ok (VTuple [r])
        | Raise e => Raise e
        end
    | _ => Raise TypeError
    end.

(** [v] inside [k] one-item tuples. *)
Fixpoint wrapped (k : nat) (v : value) : value :=
  match k with
  | O => v
  | S k' => VTuple [wrapped k' v]
  end.

(** ** Invariants of a wired graph *)

(** How many times [c] occurs among the children. *)
Definition times_child (c : nat) (chn : list (option nat)) : nat :=
  length (List.filter (who_eqb (Some c)) chn).

(** The children name nodes of the store. *)
Definition children_exist (chn : list (option nat)) (s : store) : Prop :=
  forall j : nat, In (Some j) chn -> j < length (nodes s).

(** Every listener of a node was created after the node. *)
Definition listeners_newer (s : store) : Prop :=
  forall (i : nat) (nd : Stream) (p : nat),
    nodes s !! i = Some nd -> In p (parents nd) -> i < p < length (nodes s).

(** The listeners of every node, in the order of the nodes. *)
Definition wiring (s : store) : list (list nat) := map parents (nodes s).

(** No sink of the store calls [flush]. *)
Definition flush_free (s : store) : Prop :=
  forall (i : nat) (nd : Stream) (c : nat),
    nodes s !! i = Some nd -> node_kind nd <> KSink (CbFlush c).

(** What a push leaves alone: the wiring, the registries, and the absence
    of flushing sinks. *)
Definition keeps (s s' : store) : Prop :=
  wiring s' = wiring s /\ flush_free s'
  /\ stream_map s' = stream_map s /\ stream_accumulate s' = stream_accumulate s.

(** * SciAnalysis.interfaces.StreamDoc: the document payload

    [StreamDoc] is a dict with the entries [args] (a list), [kwargs],
    [attributes] and [statistics] (dicts with str keys), [uid] and the
    constant marker [_StreamDoc], and an attribute [_wrapper].  The uid
    comes from [uuid4()]: the functions that build a document take it as an
    argument. *)

Record StreamDoc : Type := mk_StreamDoc {
  sd_args : list value;
  sd_kwargs : gmap string value;
  sd_attributes : gmap string value;
  sd_statistics : gmap string value;
  sd_uid : string;
  sd_wrapper : value
}.

(** [d.update(other)]: the entries of [other] win. *)
Definition dict_update (d other : gmap string value) : gmap string value :=
  other ∪ d.

(** [StreamDoc.add]: an [args] that is neither a list nor a tuple is
    wrapped in a one-item tuple first. *)
Definition add (args : value) (kwargs attributes statistics : gmap string value)
    (self : StreamDoc) : StreamDoc :=
  let items :=
    match args with
    | VList l | VTuple l => l
    | _ => [args]
    end in
  mk_StreamDoc (sd_args self ++ items)
               (dict_update (sd_kwargs self) kwargs)
               (dict_update (sd_attributes self) attributes)
               (dict_update (sd_statistics self) statistics)
               (sd_uid self) (sd_wrapper self).

(** [StreamDoc.updatedoc] *)
Definition updatedoc (streamdoc : StreamDoc) (self : StreamDoc) : StreamDoc :=
  let self' := add (VList (sd_args streamdoc)) (sd_kwargs streamdoc)
                   (sd_attributes streamdoc) (sd_statistics streamdoc) self in
  mk_StreamDoc (sd_args self') (sd_kwargs self') (sd_attributes self')
               (sd_statistics self') (sd_uid self') (sd_wrapper streamdoc).

(** [StreamDoc(streamdoc, args, kwargs, attributes, wrapper)] *)
Definition StreamDoc_init (uid : string) (streamdoc : option StreamDoc) (args : value)
    (kwargs attributes : gmap string value) (wrapper : value) : StreamDoc :=
  let fresh := mk_StreamDoc [] ∅ ∅ ∅ uid wrapper in
  let updated :=
    match streamdoc with
    | Some d => updatedoc d fresh
    | None => fresh
    end in
  add args kwargs attributes ∅ updated.

(** [StreamDoc(self)]: a copy with a uid of its own. *)
Definition copy_doc (uid : string) (self : StreamDoc) : StreamDoc :=
  StreamDoc_init uid (Some self) (VTuple []) ∅ ∅ VNone.

(** [StreamDoc.merge( *newstreamdocs)] *)
Definition merge (uid : string) (self : StreamDoc) (newstreamdocs : list StreamDoc)
    : StreamDoc :=
  fold_left (fun streamdoc newstreamdoc => updatedoc newstreamdoc streamdoc)
            newstreamdocs (copy_doc uid self).

(** ** select *)

(** The exceptions of [select] and [get_return]. *)
Inductive doc_error : Type :=
| DocValueError          (* an integer as new key *)
| DocKeyError            (* the old key is not in the document, or select's own check *)
| DocIndexError          (* a list or tuple index out of range *)
| DocTypeError
| DocUnboundLocalError.  (* a variable read before any assignment *)

(** A key of a mapping: an int, a str or [None]. *)
Inductive mapkey : Type :=
| MInt (z : Z)
| MStr (name : string)
| MNone.

(** An element of a mapping: a bare key or a tuple of keys. *)
Inductive mapelem : Type :=
| Bare (k : mapkey)
| Pair (ks : list mapkey).

(** The first lines of the loop body: a bare str [a] stands for [(a, a)], a
    bare int [i] for [(i, None)], and so do the one-item tuples [(a,)] and
    [(i,)]; [len(None)] is a TypeError. *)
Definition normalize (m : mapelem) : doc_error + list mapkey :=
  match m with
  | Bare (MStr a) => inr [MStr a; MStr a]
  | Bare (MInt i) => inr [MInt i; MNone]
  | Bare MNone => inl DocTypeError
  | Pair [MStr a] => inr [MStr a; MStr a]
  | Pair [MInt i] => inr [MInt i; MNone]
  | Pair ks => inr ks
  end.

(** ['args'] or ['kwargs'] *)
Inductive parentkey : Type := InArgs | InKwargs.

(** [l[i]] with Python's negative indices. *)
Definition py_index (l : list value) (i : Z) : option value :=
  if Z.leb 0 i then l !! Z.to_nat i
  else if Z.leb (- Z.of_nat (length l)) i then l !! Z.to_nat (Z.of_nat (length l) + i)
  else None.

(** The state of the loop of [select]: the new args and kwargs, and
    [oldparentkey], which keeps its value from one element to the next. *)
Record select_state : Type := mk_select_state {
  newargs : list value;
  newkwargs : gmap string value;
  oldparentkey : option parentkey
}.

(** One round of the loop of [select] over the document [streamdoc]. *)
Definition select_step (streamdoc : StreamDoc) (st : select_state) (m : mapelem)
    : doc_error + select_state :=
  match normalize m with
  | inl e => inl e
  | inr [] | inr [_] => inl DocIndexError            (* mapelem[0], mapelem[1] *)
  | inr (oldkey :: newkey :: _) =>
      let oldparent :=
        match oldkey with
        | MInt _ => Some InArgs
        | MStr _ => Some InKwargs
        | MNone => oldparentkey st
        end in
      match newkey with
      | MInt _ => inl DocValueError
      | _ =>
          match oldparent, oldkey with
          | None, _ => inl DocUnboundLocalError
          | Some InKwargs, MStr a =>
              match sd_kwargs streamdoc !! a with
              | None => inl DocKeyError
              | Some v =>
                  match newkey with
                  | MStr b => inr (mk_select_state (newargs st)
                                     (<[b := v]> (newkwargs st)) oldparent)
                  | _ => inr (mk_select_state (newargs st ++ [v]) (newkwargs st) oldparent)
                  end
              end
          | Some InKwargs, _ => inl DocKeyError      (* None is no key of kwargs *)
          | Some InArgs, MInt i =>
              if Z.ltb (Z.of_nat (length (sd_args streamdoc))) i then inl DocKeyError
              else
                match py_index (sd_args streamdoc) i with
                | None => inl DocIndexError
                | Some v =>
                    match newkey with
                    | MStr b => inr (mk_select_state (newargs st)
                                       (<[b := v]> (newkwargs st)) oldparent)
                    | _ => inr (mk_select_state (newargs st ++ [v]) (newkwargs st)
                                  oldparent)
                    end
                end
          | Some InArgs, _ => inl DocTypeError       (* len(args) < None *)
          end
      end
  end.

Fixpoint select_loop (streamdoc : StreamDoc) (st : select_state) (mapping : list mapelem)
    : doc_error + select_state :=
  match mapping with
  | [] => inr st
  | m :: rest =>
      match select_step streamdoc st m with
      | inl e => inl e
      | inr st' => select_loop streamdoc st' rest
      end
  end.

(** [StreamDoc.select( *mapping)] *)
Definition select (uid : string) (self : StreamDoc) (mapping : list mapelem)
    : doc_error + StreamDoc :=
  let streamdoc := copy_doc uid self in
  match select_loop streamdoc (mk_select_state [] ∅ None) mapping with
  | inl e => inl e
  | inr st =>
      inr (mk_StreamDoc (newargs st) (newkwargs st) (sd_attributes streamdoc)
                        (sd_statistics streamdoc) (sd_uid streamdoc) (sd_wrapper self))
  end.

(** ** get_return *)

(** What [get_return] returns: an item, the list of args, a dict of the
    kwargs, or the document itself. *)
Inductive returned : Type :=
| RetItem (v : value)
| RetArgs (l : list value)
| RetKwargs (d : gmap string value)
| RetSelf.

(** [StreamDoc.get_return(elem)] *)
Definition get_return (self : StreamDoc) (elem : mapkey) : doc_error + returned :=
  match elem with
  | MInt i =>
      match py_index (sd_args self) i with
      | Some v => inr (RetItem v)
      | None => inl DocIndexError
      end
  | MStr a =>
      match sd_kwargs self !! a with
      | Some v => inr (RetItem v)
      | None => inl DocKeyError
      end
  | MNone =>
      if Nat.eqb (length (sd_args self)) 0 && negb (Nat.eqb (size (sd_kwargs self)) 0)
      then inr (RetKwargs (sd_kwargs self))
      else if negb (Nat.eqb (length (sd_args self)) 0) && Nat.eqb (size (sd_kwargs self)) 0
      then match sd_args self with
           | [v] => inr (RetItem v)
           | l => inr (RetArgs l)
           end
      else inr RetSelf
  end.

(** [StreamDoc()] with a wrapper: an empty document. *)
Definition empty_doc (uid : string) (wrapper : value) : StreamDoc :=
  StreamDoc_init uid None (VTuple []) ∅ ∅ wrapper.

(** A document with two args and the kwarg [a]. *)
Definition example_doc : StreamDoc :=
  add (VTuple [VInt 10; VInt 20]) {[ "a" := VInt 1 ]} {[ "name" := VStr "scan" ]} ∅
      (empty_doc "uid-0" VNone).

(** * merge (streams.py)

    [merge] synchronises its inputs as zip does and folds the values of a
    round from the left.  [combine res buftmp] stands for the body of the
    loop: [res.merge(buftmp)] when [res] has the attribute [merge], [res]
    after [res.update(buftmp)] otherwise. *)

Record merge_node : Type := mk_merge_node {
  merge_maxsize : Z;
  merge_buffers : list (list value)
}.

Definition merge_init (maxsize : Z) (children : list (option nat)) : merge_node :=
  mk_merge_node maxsize (map (fun _ => []) children).

(** [for buf in self.buffers[1:]: buftmp = buf.popleft(); ...]: the result
    and the buffers as the loop leaves them; an exception leaves the later
    buffers as they were. *)
Fixpoint merge_fold (combine : func2) (res : value) (bufs : list (list value))
    : result value * list (list value) :=
  match bufs with
  | [] => (Ok res, [])
  | [] :: rest => (Raise IndexError, [] :: rest)
  | (buftmp :: buf) :: rest =>
      match combine res buftmp with
      | Ok r => let '(o, rest') := merge_fold combine r rest in (o, buf :: rest')
      | Raise e => (Raise e, buf :: rest)
      end
  end.

Definition merge_update (combine : func2) (children : list (option nat))
    (self : merge_node) (x : value) (who : option nat) : merge_node * action :=
  match index who children with
  | None => (self, Throw (ValueError "tuple.index(x): x not in tuple"))
  | Some i =>
      match merge_buffers self !! i with
      | None => (self, Throw IndexError)
      | Some L =>
          let L' := L ++ [x] in
          let buffers := <[i := L']> (merge_buffers self) in
          if Nat.eqb (length L') 1 && forallb nonempty buffers then
            match buffers with
            | (res :: buf0) :: rest =>
                let '(o, rest') := merge_fold combine res rest in
                (mk_merge_node (merge_maxsize self) (buf0 :: rest'),
                 match o with
                 | Ok r => Emit r
                 | Raise e => Throw e
                 end)
            | _ => (mk_merge_node (merge_maxsize self) buffers, Throw IndexError)
            end
          else if Z.ltb (merge_maxsize self) (Z.of_nat (length L')) then
            (mk_merge_node (merge_maxsize self) buffers, Wait)
          else (mk_merge_node (merge_maxsize self) buffers, Return VNone)
      end
  end.

Definition merge_step (combine : func2) (children : list (option nat))
    (self : merge_node) (ev : arrival) : merge_node * action :=
  merge_update combine children self (snd ev) (fst ev).

(** The zip node with the attributes of a merge node, and back. *)
Definition as_zip (self : merge_node) : zip :=
  mk_zip (merge_maxsize self) (merge_buffers self).

Definition as_merge (z : zip) : merge_node :=
  mk_merge_node (zip_maxsize z) (zip_buffers z).

(** The value a merge node emits where a zip node emits the tuple [v]. *)
Definition folded (g : value -> value -> value) (v : value) : value :=
  match v with
  | VTuple (res :: others) => fold_left g others res
  | _ => v
  end.

Definition folded_action (g : value -> value -> value) (a : action) : action :=
  match a with
  | Emit v => Emit (folded g v)
  | _ => a
  end.

(** [L = source.partition(n).sink_to_list()] on a fresh source. *)
Definition partition_to_list (n : Z) : store * nat * nat :=
  let '(source, s) := Stream_init [None] KStream empty_store in
  let '(m, s) := Stream_init [Some source] (KPartition (partition_init n)) s in
  let '(L, s) := new_list s in
  let '(_, s) := Stream_init [Some m] (KSink (CbAppend L)) s in
  (s, source, L).

(** [L = source.sliding_window(n).sink_to_list()] on a fresh source. *)
Definition sliding_window_to_list (n : nat) : store * nat * nat :=
  let '(source, s) := Stream_init [None] KStream empty_store in
  let '(m, s) := Stream_init [Some source] (KSlidingWindow (sliding_window_init n)) s in
  let '(L, s) := new_list s in
  let '(_, s) := Stream_init [Some m] (KSink (CbAppend L)) s in
  (s, source, L).

(** ** rate_limit *)










(** * Theorems *)

(** ** C1: scan *)

(** C1, as stated, fails: with [raw] set, [scan.update] calls the function
    on the sentinel itself ([lambda p, n: p + n] then raises TypeError on
    the first value), and a handler registered for the type of the state
    replaces [f(state, x)] on later values. *)
Lemma scan_first_update_raw_counterexample :
  ~ (forall (raw : bool) (f : func2) (x : value),
       scan_update 100 [] (mk_scan f raw no_default) x = (mk_scan f raw x, Emit x))
  /\ ~ (forall (reg : registry accumulate_handler) (f : func2) (state x r : value),
          state <> no_default -> f state x = Ok r ->
          scan_update 100 reg (mk_scan f false state) x = (mk_scan f false r, Emit r)).
Proof.
  split.
  - intros H. specialize (H true py_add (VInt 1)). discriminate H.
  - intros H.
    specialize (H (register TTuple unwrap_handler []) keep_next
                  (VTuple [VInt 1]) (VInt 4) (VInt 4)).
    assert (Hne : VTuple [VInt 1] <> no_default) by discriminate.
    specialize (H Hne eq_refl). discriminate H.
Qed.

(** C1 (amended): with [raw] unset, the first update of a scan whose state
    is the sentinel emits [x] unchanged and stores it, whatever [f] is (so
    [f] is not called: an [f] that always raises changes nothing).  Once the
    state is not the sentinel, an update on which [f(state, x)] returns [r],
    with [raw] set or with no handler registered for the type of the state,
    emits [r] and stores it; with [raw] unset and a handler registered for
    that type, the update emits and stores what the handler returns when it
    is called with the state, [x] and the accumulation.  Pushing 1, 1, 4 into
    [scan(p + n)] with no seed appends 1, 2, 6 to the list of a sink.  The
    first update of a scan with [raw] set is no part of the statement. *)
Theorem scan_update_seed_then_accumulate :
  (forall (depth : nat) (reg : registry accumulate_handler) (f : func2) (x : value),
      scan_update depth reg (mk_scan f false no_default) x = (mk_scan f false x, Emit x))
  /\ (forall (depth : nat) (reg : registry accumulate_handler) (f : func2) (raw : bool)
             (state x r : value),
         state <> no_default ->
         raw = true \/ dispatch reg (type_of state) = None ->
         f state x = Ok r ->
         scan_update depth reg (mk_scan f raw state) x = (mk_scan f raw r, Emit r))
  /\ (forall (depth : nat) (reg : registry accumulate_handler) (f : func2)
             (sm : accumulate_handler) (state x r : value),
         state <> no_default ->
         dispatch reg (type_of state) = Some sm ->
         sm state x (_stream_accumulate depth reg f) = Ok r ->
         scan_update (S depth) reg (mk_scan f false state) x
         = (mk_scan f false r, Emit r))
  /\ (let '(s, source, L) := scan_to_list py_add false no_default in
      exists s', emit_all 10 source [VInt 1; VInt 1; VInt 4] s = (Ok tt, s')
                 /\ heap s' !! L = Some [VInt 1; VInt 2; VInt 6]).
Proof.
  split; [| split; [| split]].
  - intros depth reg f x. unfold scan_update; simpl.
    destruct depth; reflexivity.
  - intros depth reg f raw state x r Hstate Hbase Hf.
    unfold scan_update; simpl.
    destruct raw.
    + rewrite Hf. reflexivity.
    + destruct Hbase as [Hraw | Hbase]; [discriminate Hraw |].
      assert (Hacc : _stream_accumulate depth reg f state x = Ok r).
      { destruct depth; simpl; destruct state; simpl in *;
          try (exfalso; apply Hstate; reflexivity); rewrite ?Hbase; exact Hf. }
      rewrite Hacc. reflexivity.
  - intros depth reg f sm state x r Hstate Hsm Hr.
    assert (Hacc : _stream_accumulate (S depth) reg f state x = Ok r).
    { cbn [_stream_accumulate].
      destruct state; simpl in *;
        try (exfalso; apply Hstate; reflexivity); rewrite Hsm; exact Hr. }
    unfold scan_update. cbn [scan_raw scan_func scan_state].
    rewrite Hacc. reflexivity.
  - vm_compute. eexists. split; reflexivity.
Qed.

Lemma scan_update_seed_then_accumulate_witness :
  scan_update 5 [] (mk_scan py_add false (VInt 2)) (VInt 4)
  = (mk_scan py_add false (VInt 6), Emit (VInt 6))
  /\ scan_update 5 [] (mk_scan py_add true (VInt 2)) (VInt 4)
     = (mk_scan py_add true (VInt 6), Emit (VInt 6))
  /\ scan_update 5 (register TTuple unwrap_handler []) (mk_scan py_add false (VTuple [VInt 2]))
                 (VInt 4)
     = (mk_scan py_add false (VTuple [VInt 6]), Emit (VTuple [VInt 6])).
Proof.
  destruct scan_update_seed_then_accumulate as [_ [H [Hsm _]]].
  split; [| split].
  - apply (H 5%nat [] py_add false (VInt 2) (VInt 4) (VInt 6)).
    + discriminate.
    + right. reflexivity.
    + reflexivity.
  - apply (H 5%nat [] py_add true (VInt 2) (VInt 4) (VInt 6)).
    + discriminate.
    + left. reflexivity.
    + reflexivity.
  - apply (Hsm 4%nat (register TTuple unwrap_handler []) py_add unwrap_handler
               (VTuple [VInt 2]) (VInt 4) (VTuple [VInt 6])).
    + discriminate.
    + reflexivity.
    + reflexivity.
Defined.

(** ** C3: emit *)

Section Emit.
Context {S : Type}.
Variable upd : nat -> value -> option nat -> S -> result value * S.

Lemma flatten_one_level_cons (r : value) (rs : list value) :
  flatten_one_level (r :: rs) = collect_result [] r ++ flatten_one_level rs.
Proof. unfold flatten_one_level; simpl. destruct r; reflexivity. Qed.

Lemma collect_result_app (res : list value) (r : value) :
  collect_result res r = res ++ collect_result [] r.
Proof. destruct r; reflexivity. Qed.

(** The loop of [emit], started with [res] already collected. *)
Lemma emit_loop_call_listeners (self : nat) (x : value) (listeners : list nat) :
  forall (res : list value) (s : S),
    emit_loop upd self x listeners res s =
    match call_listeners upd self x listeners s with
    | (Ok rs, s') => (Ok (VList (List.filter not_none (res ++ flatten_one_level rs))), s')
    | (Raise e, s') => (Raise e, s')
    end.
Proof.
  induction listeners as [| parent rest IH]; intros res s; simpl.
  - unfold flatten_one_level; simpl. rewrite app_nil_r. reflexivity.
  - destruct (upd parent x (Some self) s) as [[r | e] s1]; [| reflexivity].
    rewrite IH. destruct (call_listeners upd self x rest s1) as [[rs | e] s2];
      [| reflexivity].
    rewrite flatten_one_level_cons, collect_result_app, app_assoc. reflexivity.
Qed.

(** Every call made is logged, in the order of the list, with the value
    pushed and the emitting node as source. *)
Lemma call_listeners_recorded (self : nat) (x : value) (listeners : list nat) :
  forall (s : S) (log : list call),
    call_listeners (recorded upd) self x listeners (s, log) =
    match call_listeners upd self x listeners s with
    | (Ok rs, s') => (Ok rs, (s', log ++ map (fun p => (p, x, Some self)) listeners))
    | (Raise e, s') =>
        (Raise e, (s', snd (snd (call_listeners (recorded upd) self x listeners (s, log)))))
    end.
Proof.
  induction listeners as [| parent rest IH]; intros s log; simpl.
  - rewrite app_nil_r. reflexivity.
  - destruct (upd parent x (Some self) s) as [[r | e] s1]; [| reflexivity].
    rewrite IH.
    destruct (call_listeners upd self x rest s1) as [[rs | e] s2]; simpl.
    + rewrite <- app_assoc. reflexivity.
    + reflexivity.
Qed.
End Emit.

Lemma filter_not_none_Forall (l : list value) :
  Forall (fun v => v <> VNone) (List.filter not_none l).
Proof.
  apply Forall_forall. intros v Hv. apply list_elem_of_In in Hv.
  apply List.filter_In in Hv. destruct Hv as [_ Hv]. intros ->. discriminate Hv.
Qed.

(** C3: [emit(x)] on node [self] calls [update(x, who=self)] on every
    listener in the order of [self.parents] and, when every call has
    returned, returns the list of the results with the list results
    flattened one level and the [None]s removed.  Stated for arbitrary
    listeners [upd] whose calls are logged: if [emit] returns, the log has
    grown by exactly one call per listener, in registration order, each with
    the value [x] and the source [self]; the value returned is the filtered
    flattening of the listeners' results and holds no [None]. *)
Theorem emit_updates_every_listener_in_order
    {S : Type} (upd : nat -> value -> option nat -> S -> result value * S)
    (self : nat) (x : value) (listeners : list nat) (s s' : S) (log log' : list call)
    (r : value) :
  Stream_emit (recorded upd) self x listeners (s, log) = (Ok r, (s', log')) ->
  log' = log ++ map (fun parent => (parent, x, Some self)) listeners
  /\ exists rs : list value,
       call_listeners upd self x listeners s = (Ok rs, s')
       /\ length rs = length listeners
       /\ r = VList (List.filter not_none (flatten_one_level rs))
       /\ Forall (fun v => v <> VNone) (List.filter not_none (flatten_one_level rs)).
Proof.
  unfold Stream_emit. rewrite emit_loop_call_listeners, call_listeners_recorded.
  destruct (call_listeners upd self x listeners s) as [[rs | e] s1] eqn:Hcalls;
    [| discriminate].
  simpl. intros H. injection H as <- <- <-.
  split; [reflexivity |]. exists rs. split; [reflexivity |].
  split; [| split; [reflexivity | apply filter_not_none_Forall]].
  clear -Hcalls. revert s s1 rs Hcalls.
  induction listeners as [| parent rest IH]; intros s s1 rs; simpl.
  - intros H; injection H as <- _. reflexivity.
  - destruct (upd parent x (Some self) s) as [[r | e] s2]; [| discriminate].
    destruct (call_listeners upd self x rest s2) as [[rs' | e] s3] eqn:Hrest;
      [| discriminate].
    intros H; injection H as <- _. simpl. f_equal. eapply IH. exact Hrest.
Qed.

Lemma emit_updates_every_listener_in_order_witness :
  Stream_emit (recorded three_answers) 5 (VInt 3) [0; 1; 2]%nat (tt, [])
  = (Ok (VList [VFuture 7; VFuture 8]), (tt, [(0, VInt 3, Some 5); (1, VInt 3, Some 5); (2, VInt 3, Some 5)]%nat))
  /\ [(0, VInt 3, Some 5); (1, VInt 3, Some 5); (2, VInt 3, Some 5)]%nat
     = [] ++ map (fun parent => (parent, VInt 3, Some 5%nat)) [0; 1; 2]%nat.
Proof.
  split; [reflexivity |].
  apply (emit_updates_every_listener_in_order three_answers 5 (VInt 3) [0; 1; 2]%nat
           tt tt [] _ (VList [VFuture 7; VFuture 8]) eq_refl).
Defined.

(** ** Runs *)

Lemma run_cons {St X : Type} (upd : St -> X -> St * action) (st : St) (x : X)
    (xs : list X) :
  run upd st (x :: xs) =
  (fst (run upd (fst (upd st x)) xs), snd (upd st x) :: snd (run upd (fst (upd st x)) xs)).
Proof.
  simpl. destruct (upd st x) as [st1 a]. simpl.
  destruct (run upd st1 xs) as [st2 acts]. reflexivity.
Qed.

Lemma run_app {St X : Type} (upd : St -> X -> St * action) (xs ys : list X) :
  forall st : St,
    run upd st (xs ++ ys) =
    (fst (run upd (fst (run upd st xs)) ys),
     snd (run upd st xs) ++ snd (run upd (fst (run upd st xs)) ys)).
Proof.
  induction xs as [| x xs IH]; intros st.
  - simpl. destruct (run upd st ys); reflexivity.
  - rewrite <- app_comm_cons, !run_cons, IH. reflexivity.
Qed.

Lemma run_length {St X : Type} (upd : St -> X -> St * action) (xs : list X) :
  forall st : St, length (snd (run upd st xs)) = length xs.
Proof.
  induction xs as [| x xs IH]; intros st; [reflexivity |].
  rewrite run_cons. simpl. f_equal. apply IH.
Qed.

Lemma emissions_cons (a : action) (acts : list action) :
  emissions (a :: acts) = emitted_of a ++ emissions acts.
Proof. reflexivity. Qed.

Lemma emissions_app (acts acts' : list action) :
  emissions (acts ++ acts') = emissions acts ++ emissions acts'.
Proof. unfold emissions. rewrite map_app, concat_app. reflexivity. Qed.

(** ** C5: partition *)

Lemma partition_run_invariant (n : Z) (xs : list value) :
  forall b : list value,
    (Z.of_nat (length b) < n)%Z ->
    let res := run partition_update (mk_partition n b) xs in
    Forall (fun g => exists l, g = VTuple l /\ Z.of_nat (length l) = n) (emissions (snd res))
    /\ concat (map tuple_items (emissions (snd res))) ++ partition_buffer (fst res) = b ++ xs
    /\ (Z.of_nat (length (partition_buffer (fst res))) < n)%Z.
Proof.
  induction xs as [| x xs IH]; intros b Hb; cbv zeta.
  - simpl. rewrite app_nil_r. split; [constructor | split; [reflexivity | exact Hb]].
  - rewrite run_cons.
    assert (Hstep : partition_update (mk_partition n b) x =
                    if Z.eqb (Z.of_nat (length (b ++ [x]))) n
                    then (mk_partition n [], Emit (VTuple (b ++ [x])))
                    else (mk_partition n (b ++ [x]), Return (VList [])))
      by reflexivity.
    rewrite Hstep. clear Hstep.
    destruct (Z.eqb_spec (Z.of_nat (length (b ++ [x]))) n) as [Heq | Hne];
      cbn [fst snd]; rewrite emissions_cons; cbn [emitted_of].
    + destruct (IH []) as (Hall & Hcat & Hlen); [simpl; lia |].
      split; [| split].
      * constructor; [exists (b ++ [x]); split; [reflexivity | exact Heq] | exact Hall].
      * cbn [app map concat tuple_items].
        rewrite <- app_assoc, Hcat. rewrite <- app_assoc. reflexivity.
      * exact Hlen.
    + rewrite length_app in Hne; simpl in Hne.
      destruct (IH (b ++ [x])) as (Hall & Hcat & Hlen);
        [rewrite length_app; simpl; lia |].
      split; [exact Hall | split; [| exact Hlen]].
      cbn [app]. rewrite Hcat, <- app_assoc. reflexivity.
Qed.

Lemma concat_groups_length (n : Z) (groups : list value) :
  Forall (fun g => exists l, g = VTuple l /\ Z.of_nat (length l) = n) groups ->
  Z.of_nat (length (concat (map tuple_items groups))) = (n * Z.of_nat (length groups))%Z.
Proof.
  induction 1 as [| g groups (l & -> & Hl) _ IH]; simpl; [lia |].
  rewrite length_app. lia.
Qed.

(** C5: a [partition(n)] node with [n >= 1], fed [m] values from its
    initial state, emits exactly [m / n] groups; every group is a tuple of
    exactly [n] values; the groups, one after the other, followed by the
    buffer are the values pushed, in arrival order; and the [m mod n] last
    values are left in the buffer. *)
Theorem partition_emits_full_groups (n : Z) (xs : list value) :
  (1 <= n)%Z ->
  let res := run partition_update (partition_init n) xs in
  let groups := emissions (snd res) in
  Z.of_nat (length groups) = (Z.of_nat (length xs) / n)%Z
  /\ Forall (fun g => exists l, g = VTuple l /\ Z.of_nat (length l) = n) groups
  /\ concat (map tuple_items groups) ++ partition_buffer (fst res) = xs
  /\ Z.of_nat (length (partition_buffer (fst res))) = (Z.of_nat (length xs) mod n)%Z
  /\ partition_buffer (fst res)
     = drop (length xs - Z.to_nat (Z.of_nat (length xs) mod n)) xs.
Proof.
  intros Hn. cbv zeta.
  destruct (partition_run_invariant n xs []) as (Hall & Hcat & Hlen); [simpl; lia |].
  cbv zeta in Hall, Hcat, Hlen. unfold partition_init.
  set (res := run partition_update (mk_partition n []) xs) in *.
  set (groups := emissions (snd res)) in *.
  set (buf := partition_buffer (fst res)) in *.
  clearbody buf groups. clear res. cbn [app] in Hcat.
  pose proof (concat_groups_length n groups Hall) as Hsize.
  pose proof (f_equal length Hcat) as Hsum. rewrite length_app in Hsum.
  assert (Hmod : Z.of_nat (length buf) = (Z.of_nat (length xs) mod n)%Z).
  { apply Z.mod_unique with (q := Z.of_nat (length groups)); [left; lia | lia]. }
  split; [| split; [exact Hall | split; [exact Hcat | split; [exact Hmod |]]]].
  - apply Z.div_unique with (r := Z.of_nat (length buf)); [left; lia | lia].
  - rewrite <- Hmod, Nat2Z.id. rewrite <- Hcat.
    rewrite drop_app_length'; [reflexivity |].
    rewrite length_app. lia.
Qed.

Lemma partition_emits_full_groups_witness :
  (1 <= 3)%Z
  /\ emissions (snd (run partition_update (partition_init 3)
                       (map VInt [0; 1; 2; 3; 4; 5; 6; 7; 8; 9]%Z)))
     = [VTuple (map VInt [0; 1; 2]%Z); VTuple (map VInt [3; 4; 5]%Z);
        VTuple (map VInt [6; 7; 8]%Z)]
  /\ Z.of_nat (length (emissions (snd (run partition_update (partition_init 3)
                                         (map VInt [0; 1; 2; 3; 4; 5; 6; 7; 8; 9]%Z)))))
     = (Z.of_nat (length (map VInt [0; 1; 2; 3; 4; 5; 6; 7; 8; 9]%Z)) / 3)%Z.
Proof.
  split; [lia |]. split; [reflexivity |].
  apply (partition_emits_full_groups 3 (map VInt [0; 1; 2; 3; 4; 5; 6; 7; 8; 9]%Z)). lia.
Defined.

(** ** C6: sliding_window *)

Lemma last_n_length (n : nat) (l : list value) :
  length (last_n n l) = Nat.min n (length l).
Proof. unfold last_n. rewrite length_drop. lia. Qed.

Lemma deque_append_last_n (n : nat) (p : list value) (x : value) :
  deque_append n (last_n n p) x = last_n n (p ++ [x]).
Proof.
  unfold deque_append.
  rewrite length_app, last_n_length. simpl.
  unfold last_n. rewrite length_app. simpl.
  destruct (Nat.ltb_spec n (Nat.min n (length p) + 1)) as [Hfull | Hroom].
  - assert (Hn : n <= length p) by lia.
    replace (length p + 1 - n) with (length p - n + 1) by lia.
    rewrite <- (drop_drop (p ++ [x]) 1 (length p - n)).
    rewrite (drop_app_le p [x] (length p - n)) by lia. reflexivity.
  - assert (Hn : length p < n) by lia.
    replace (length p - n) with 0 by lia.
    replace (length p + 1 - n) with 0 by lia. reflexivity.
Qed.

(** The deque holds the last [n] values pushed. *)
Lemma sliding_window_state_after (n : nat) (p : list value) :
  fst (run sliding_window_update (sliding_window_init n) p)
  = mk_sliding_window n (last_n n p).
Proof.
  induction p as [| x p IH] using rev_ind; [reflexivity |].
  rewrite run_app. cbn [fst]. rewrite IH, run_cons. cbn [fst run].
  unfold sliding_window_update. cbn [sliding_window_n sliding_window_buffer].
  rewrite deque_append_last_n.
  destruct (Nat.eqb _ n); reflexivity.
Qed.

(** What the push of [x] after the values [p] does. *)
Lemma sliding_window_step_after (n : nat) (p : list value) (x : value) :
  snd (sliding_window_update
         (fst (run sliding_window_update (sliding_window_init n) p)) x)
  = if decide (n <= length p + 1)
    then Emit (VTuple (last_n n (p ++ [x])))
    else Return (VList []).
Proof.
  rewrite sliding_window_state_after.
  unfold sliding_window_update. cbn [sliding_window_n sliding_window_buffer].
  rewrite deque_append_last_n.
  destruct (Nat.eqb_spec (length (last_n n (p ++ [x]))) n) as [Heq | Hne];
    rewrite last_n_length, length_app in *; simpl in *;
    destruct (decide (n <= length p + 1)); try reflexivity; lia.
Qed.

Lemma sliding_window_emissions (n : nat) (xs : list value) :
  emissions (snd (run sliding_window_update (sliding_window_init n) xs)) = windows n xs.
Proof.
  induction xs as [| x xs IH] using rev_ind.
  - unfold windows. simpl. replace (1 - Nat.max n 1) with 0 by lia. reflexivity.
  - rewrite run_app. cbn [snd]. rewrite emissions_app, IH, run_cons. cbn [snd run].
    rewrite sliding_window_step_after. unfold windows. rewrite length_app. simpl.
    destruct (decide (n <= length xs + 1)) as [Hk | Hk].
    + replace (length xs + 1 + 1 - Nat.max n 1)
        with (length xs + 1 - Nat.max n 1 + 1) by lia.
      rewrite seq_app, map_app. simpl.
      replace (Nat.max n 1 + (length xs + 1 - Nat.max n 1)) with (length xs + 1) by lia.
      rewrite emissions_cons. simpl. f_equal.
      * apply map_ext_in. intros k Hk'. apply in_seq in Hk'.
        rewrite take_app_le by lia. reflexivity.
      * rewrite take_ge by (rewrite length_app; simpl; lia). reflexivity.
    + replace (length xs + 1 + 1 - Nat.max n 1) with 0 by lia.
      replace (length xs + 1 - Nat.max n 1) with 0 by lia. reflexivity.
Qed.

Lemma run_lookup {St X : Type} (upd : St -> X -> St * action) (st : St)
    (xs : list X) (k : nat) (x : X) :
  xs !! k = Some x ->
  snd (run upd st xs) !! k = Some (snd (upd (fst (run upd st (take k xs))) x)).
Proof.
  intros Hk. pose proof (lookup_lt_Some _ _ _ Hk) as Hlt.
  rewrite <- (take_drop_middle xs k x Hk) at 1.
  rewrite run_app. cbn [snd]. rewrite run_cons. cbn [snd].
  rewrite lookup_app_r; rewrite run_length, length_take; [| lia].
  replace (k - k `min` length xs) with 0 by lia. reflexivity.
Qed.

(** C6, as stated, fails for [n = 0]: [deque(maxlen=0)] stays empty, its
    length equals [n] on every push, so one push emits one (empty) group,
    not [m - n + 1 = 2]. *)
Lemma sliding_window_zero_counterexample :
  ~ (forall (n : nat) (xs : list value),
       n <= length xs ->
       length (emissions (snd (run sliding_window_update (sliding_window_init n) xs)))
       = length xs - n + 1).
Proof.
  intros H. specialize (H 0 [VInt 0] (Nat.le_0_l _)). discriminate H.
Qed.

(** C6 (amended): for a [sliding_window(n)] node fed the values [xs] from
    its initial state, the push of the [k]-th value emits nothing when
    [k < n] and emits exactly one group, the last [n] of the first [k]
    values, when [k >= n]; the groups emitted are the windows ending at the
    pushes [max n 1 .. m]; so [m] pushes produce [m - n + 1] windows when
    [m >= n >= 1] (and [m] empty groups when [n = 0]). *)
Theorem sliding_window_emits_last_n (n : nat) (xs : list value) :
  let acts := snd (run sliding_window_update (sliding_window_init n) xs) in
  (forall (k : nat) (x : value),
      xs !! k = Some x ->
      acts !! k = Some (if decide (n <= k + 1)
                        then Emit (VTuple (last_n n (take (k + 1) xs)))
                        else Return (VList [])))
  /\ emissions acts = windows n xs
  /\ (1 <= n -> n <= length xs -> length (emissions acts) = length xs - n + 1)
  /\ (n = 0 -> length (emissions acts) = length xs).
Proof.
  cbv zeta. split; [| split; [apply sliding_window_emissions | split]].
  - intros k x Hk. rewrite (run_lookup _ _ _ _ _ Hk), sliding_window_step_after.
    pose proof (lookup_lt_Some _ _ _ Hk) as Hlt.
    rewrite length_take. replace (k `min` length xs) with k by lia.
    replace (take (k + 1) xs) with (take k xs ++ [x]); [reflexivity |].
    replace (k + 1) with (S k) by lia. symmetry. apply take_S_r. exact Hk.
  - intros Hn Hm. rewrite sliding_window_emissions. unfold windows.
    rewrite length_map, length_seq. lia.
  - intros ->. rewrite sliding_window_emissions. unfold windows.
    rewrite length_map, length_seq. simpl. lia.
Qed.

Lemma sliding_window_emits_last_n_witness :
  [VInt 0; VInt 1; VInt 2; VInt 3] !! 2 = Some (VInt 2)
  /\ snd (run sliding_window_update (sliding_window_init 3)
            [VInt 0; VInt 1; VInt 2; VInt 3]) !! 2
     = Some (Emit (VTuple [VInt 0; VInt 1; VInt 2])).
Proof.
  split; [reflexivity |].
  destruct (sliding_window_emits_last_n 3 [VInt 0; VInt 1; VInt 2; VInt 3]) as [H _].
  apply (H 2 (VInt 2)). reflexivity.
Defined.

(** ** C4: unique *)

Section UniqueUnbounded.
Variable key : func1.
Variable history : option Z.
Hypothesis unbounded : history = None \/ history = Some 0%Z.

Lemma seen_setitem_unbounded (seen : list value) (y : value) :
  seen_setitem history seen y = seen ++ [y].
Proof. destruct unbounded as [-> | ->]; reflexivity. Qed.

Lemma unique_update_fields (st : unique) (x : value) :
  unique_key (fst (unique_update st x)) = unique_key st
  /\ unique_history (fst (unique_update st x)) = unique_history st.
Proof.
  unfold unique_update. destruct (unique_key st x) as [y | e]; [| split; reflexivity].
  destruct (hashable y); [| split; reflexivity].
  destruct (seen_contains (unique_seen st) y); split; reflexivity.
Qed.

Lemma unique_run_fields (xs : list value) :
  forall st : unique,
    unique_key (fst (run unique_update st xs)) = unique_key st
    /\ unique_history (fst (run unique_update st xs)) = unique_history st.
Proof.
  induction xs as [| x xs IH]; intros st; [split; reflexivity |].
  rewrite run_cons. cbn [fst].
  destruct (IH (fst (unique_update st x))) as [-> ->]. apply unique_update_fields.
Qed.

(** The key of every value emitted so far is in [self.seen]. *)
Lemma unique_seen_invariant (p : list value) :
  let res := run unique_update (unique_init history key) p in
  Forall (fun e => exists y, key e = Ok y /\ In y (unique_seen (fst res)))
         (emissions (snd res)).
Proof.
  cbv zeta. induction p as [| x p IH] using rev_ind; [constructor |].
  rewrite run_app. cbn [fst snd]. rewrite emissions_app, run_cons. cbn [fst snd run].
  set (st := fst (run unique_update (unique_init history key) p)) in *.
  assert (Hkey : unique_key st = key) by apply unique_run_fields.
  assert (Hhist : unique_history st = history) by apply unique_run_fields.
  unfold unique_update. rewrite Hkey, Hhist.
  destruct (key x) as [y | e] eqn:Hy; cbn [fst snd].
  - destruct (hashable y); cbn [negb fst snd].
    + destruct (seen_contains (unique_seen st) y); cbn [fst snd].
      * rewrite emissions_cons. simpl. rewrite app_nil_r. exact IH.
      * rewrite emissions_cons. simpl. rewrite seen_setitem_unbounded.
        apply Forall_app. split.
        -- eapply Forall_impl; [exact IH |]. intros e (y0 & Hy0 & Hin).
           exists y0. split; [exact Hy0 | apply in_or_app; left; exact Hin].
        -- constructor; [| constructor]. exists y. split; [exact Hy |].
           apply in_or_app. right. left. reflexivity.
    + rewrite emissions_cons. simpl. rewrite app_nil_r. exact IH.
  - rewrite emissions_cons. simpl. rewrite app_nil_r. exact IH.
Qed.

(** After the values [p], a value whose key equals the key of a value
    already emitted is not emitted. *)
Lemma unique_no_second_emission (p : list value) (x e : value) (y y' : value) :
  In e (emissions (snd (run unique_update (unique_init history key) p))) ->
  key e = Ok y -> key x = Ok y' -> py_eqb y' y = true ->
  is_emit (snd (unique_update (fst (run unique_update (unique_init history key) p)) x))
  = false.
Proof.
  intros He Hy Hy' Heq.
  pose proof (unique_seen_invariant p) as Hinv. cbv zeta in Hinv.
  rewrite Forall_forall in Hinv. apply list_elem_of_In in He.
  destruct (Hinv e He) as (y0 & Hy0 & Hin).
  rewrite Hy in Hy0. injection Hy0 as <-.
  set (st := fst (run unique_update (unique_init history key) p)) in *.
  assert (Hkey : unique_key st = key) by apply unique_run_fields.
  unfold unique_update. rewrite Hkey, Hy'.
  destruct (hashable y'); [| reflexivity]. cbn [negb].
  assert (Hseen : seen_contains (unique_seen st) y' = true).
  { unfold seen_contains. apply existsb_exists. exists y. split; assumption. }
  rewrite Hseen. reflexivity.
Qed.

(** Two values emitted in one run have different keys. *)
Lemma unique_keys_distinct (xs : list value) :
  forall (i j : nat) (e e' y y' : value),
    i < j ->
    emissions (snd (run unique_update (unique_init history key) xs)) !! i = Some e ->
    emissions (snd (run unique_update (unique_init history key) xs)) !! j = Some e' ->
    key e = Ok y -> key e' = Ok y' -> py_eqb y' y = false.
Proof.
  induction xs as [| x xs IH] using rev_ind; intros i j e e' y y' Hij Hi Hj Hy Hy'.
  - discriminate Hi.
  - rewrite run_app in Hi, Hj. cbn [snd] in Hi, Hj.
    rewrite emissions_app, run_cons in Hi, Hj. cbn [snd run] in Hi, Hj.
    rewrite emissions_cons in Hi, Hj. cbn [emissions map concat] in Hi, Hj.
    rewrite app_nil_r in Hi, Hj.
    set (es := emissions (snd (run unique_update (unique_init history key) xs))) in *.
    destruct (decide (j < length es)) as [Hlt | Hge].
    + rewrite lookup_app_l in Hi, Hj by lia. exact (IH i j e e' y y' Hij Hi Hj Hy Hy').
    + rewrite lookup_app_l in Hi by
        (pose proof (lookup_lt_Some _ _ _ Hj) as Hl; rewrite length_app in Hl;
         destruct (snd (unique_update _ x)); simpl in Hl; lia).
      rewrite lookup_app_r in Hj by lia.
      destruct (py_eqb y' y) eqn:Heq; [| reflexivity]. exfalso.
      destruct (snd (unique_update
                       (fst (run unique_update (unique_init history key) xs)) x))
        as [v | r | | err] eqn:Hact; simpl in Hj;
        try (rewrite lookup_nil in Hj; discriminate Hj).
      destruct (j - length es) as [| d]; [| discriminate Hj].
      injection Hj as ->.
      assert (Hv : e' = x).
      { revert Hact. unfold unique_update.
        destruct (unique_key _ x) as [k | err]; [| discriminate].
        destruct (hashable k); [| discriminate]. cbn [negb].
        destruct (seen_contains _ k); [discriminate |]. cbn [snd].
        intros H; injection H as ->. reflexivity. }
      subst e'.
      pose proof (unique_no_second_emission xs x e y y'
                    (proj1 (list_elem_of_In _ _) (list_elem_of_lookup_2 _ _ _ Hi))
                    Hy Hy' Heq) as Hno.
      rewrite Hact in Hno. discriminate Hno.
Qed.
End UniqueUnbounded.

(** C4: with unbounded history ([history=None], or 0, which [if history:]
    treats alike), after any values [p] a value whose key equals the key of
    a value emitted earlier is not emitted, and two values emitted in one
    run never have equal keys; with a bounded history a key can be emitted
    again once evicted: [unique(history=1)] fed 1, 1, 2, 2, 2, 1, 3 emits
    exactly 1, 2, 1, 3. *)
Theorem unique_emits_each_key_once (key : func1) (history : option Z) :
  history = None \/ history = Some 0%Z ->
  (forall (p : list value) (x e y y' : value),
      In e (emissions (snd (run unique_update (unique_init history key) p))) ->
      key e = Ok y -> key x = Ok y' -> py_eqb y' y = true ->
      is_emit (snd (unique_update (fst (run unique_update (unique_init history key) p)) x))
      = false)
  /\ (forall (xs : list value) (i j : nat) (e e' y y' : value),
         i < j ->
         emissions (snd (run unique_update (unique_init history key) xs)) !! i = Some e ->
         emissions (snd (run unique_update (unique_init history key) xs)) !! j = Some e' ->
         key e = Ok y -> key e' = Ok y' -> py_eqb y' y = false)
  /\ emissions (snd (run unique_update (unique_init (Some 1%Z) identity)
                       (map VInt [1; 1; 2; 2; 2; 1; 3]%Z)))
     = map VInt [1; 2; 1; 3]%Z.
Proof.
  intros Hunbounded. split; [| split].
  - intros p x e y y'. apply unique_no_second_emission. exact Hunbounded.
  - intros xs. apply unique_keys_distinct. exact Hunbounded.
  - reflexivity.
Qed.

Lemma unique_emits_each_key_once_witness :
  emissions (snd (run unique_update (unique_init None identity)
                    (map VInt [1; 1; 2; 2; 2; 1; 3]%Z)))
  = map VInt [1; 2; 3]%Z
  /\ is_emit (snd (unique_update
                     (fst (run unique_update (unique_init None identity) [VInt 1]))
                     (VInt 1)))
     = false.
Proof.
  split; [reflexivity |].
  destruct (unique_emits_each_key_once identity None (or_introl eq_refl)) as [H _].
  apply (H [VInt 1] (VInt 1) (VInt 1) (VInt 1) (VInt 1)).
  - left. reflexivity.
  - reflexivity.
  - reflexivity.
  - reflexivity.
Defined.

(** ** C2: zip *)

Lemma who_eqb_eq (a b : option nat) : who_eqb a b = true <-> a = b.
Proof.
  destruct a as [i |], b as [j |]; simpl; try (split; congruence).
  rewrite Nat.eqb_eq. split; congruence.
Qed.

Lemma index_lookup (who : option nat) (chn : list (option nat)) :
  forall i : nat, index who chn = Some i -> chn !! i = Some who.
Proof.
  induction chn as [| c rest IH]; intros i; simpl; [discriminate |].
  destruct (who_eqb c who) eqn:Hc.
  - intros H; injection H as <-. apply who_eqb_eq in Hc. subst. reflexivity.
  - destruct (index who rest) as [k |]; simpl; [| discriminate].
    intros H; injection H as <-. simpl. apply IH. reflexivity.
Qed.

Lemma popleft_all_spec (bs : list (list value)) :
  forallb nonempty bs = true ->
  exists (tup : list value) (rest : list (list value)),
    popleft_all bs = Some (tup, rest)
    /\ zip_with cons tup rest = bs
    /\ length tup = length bs /\ length rest = length bs.
Proof.
  induction bs as [| b bs IH]; simpl.
  - intros _. exists [], []. repeat split.
  - destruct b as [| x b]; simpl; [discriminate |]. intros Hall.
    destruct (IH Hall) as (tup & rest & -> & Hzip & Ht & Hr).
    exists (x :: tup), (b :: rest). simpl. rewrite Hzip, Ht, Hr. repeat split.
Qed.

Lemma emit_merged_plain (classes : class_table) (tup : list value) :
  (forall first : value, tup !! 0 = Some first -> stream_merge_of classes first = None) ->
  emit_merged classes tup = Emit (VTuple tup).
Proof.
  intros H. unfold emit_merged, merge_tuple. destruct tup as [| first others]; [reflexivity |].
  rewrite (H first eq_refl). reflexivity.
Qed.

(** One arrival at a zip node. *)
Lemma zip_update_round (classes : class_table) (chn : list (option nat)) (self : zip)
    (x : value) (who : option nat) (i : nat) (L : list value) :
  index who chn = Some i ->
  zip_buffers self !! i = Some L ->
  let buffers := <[i := L ++ [x]]> (zip_buffers self) in
  (L = [] /\ forallb nonempty buffers = true ->
   exists (tup : list value) (rest : list (list value)),
     zip_with cons tup rest = buffers
     /\ length tup = length buffers /\ length rest = length buffers
     /\ zip_update classes chn self x who
        = (mk_zip (zip_maxsize self) rest, emit_merged classes tup)
     /\ ((forall first, tup !! 0 = Some first -> stream_merge_of classes first = None) ->
         emit_merged classes tup = Emit (VTuple tup)))
  /\ (~ (L = [] /\ forallb nonempty buffers = true) ->
      zip_buffers (fst (zip_update classes chn self x who)) = buffers
      /\ is_emit (snd (zip_update classes chn self x who)) = false).
Proof.
  intros Hi HL buffers. unfold zip_update. rewrite Hi, HL. fold buffers.
  split.
  - intros [-> Hall]. simpl. rewrite Hall.
    destruct (popleft_all_spec buffers Hall) as (tup & rest & Hpop & Hzip & Ht & Hr).
    rewrite Hpop. exists tup, rest.
    repeat split; try assumption. apply emit_merged_plain.
  - intros Hno.
    destruct (Nat.eqb (length (L ++ [x])) 1 && forallb nonempty buffers) eqn:Hc.
    + exfalso. apply Hno. apply andb_prop in Hc. destruct Hc as [Hlen Hall].
      apply Nat.eqb_eq in Hlen. rewrite length_app in Hlen. simpl in Hlen.
      split; [| exact Hall]. destruct L; [reflexivity | simpl in Hlen; lia].
    + destruct (Z.ltb _ _); split; reflexivity.
Qed.

Lemma arrivals_app (who : option nat) (evs evs' : list arrival) :
  arrivals who (evs ++ evs') = arrivals who evs ++ arrivals who evs'.
Proof. unfold arrivals. rewrite List.filter_app, map_app. reflexivity. Qed.

(** The arrival completes no round: the node waits or returns [None]. *)
Ltac no_round :=
  repeat match goal with
         | |- context [Z.ltb ?m ?n] => destruct (Z.ltb m n)
         end;
  simpl; rewrite ?app_nil_r; repeat split; auto;
  try (rewrite <- app_assoc; reflexivity).

Section ZipTwoInputs.
Variable classes : class_table.
Variables a b : nat.
Variable maxsize : Z.
Hypothesis distinct : a <> b.

Let chn : list (option nat) := [Some a; Some b].

Lemma index_first : index (Some a) chn = Some 0.
Proof. unfold chn; simpl. rewrite Nat.eqb_refl. reflexivity. Qed.

Lemma index_second : index (Some b) chn = Some 1.
Proof.
  unfold chn; simpl. destruct (Nat.eqb_spec a b) as [Hab | _]; [contradiction |].
  rewrite Nat.eqb_refl. reflexivity.
Qed.

Lemma arrivals_one (who : option nat) (src : option nat) (x : value) :
  arrivals who [(src, x)] = if who_eqb src who then [x] else [].
Proof. unfold arrivals; simpl. destruct (who_eqb src who); reflexivity. Qed.

(** The buffers hold the arrivals not yet consumed, in arrival order; one
    of them is empty; the groups emitted pair the consumed arrivals. *)
Lemma zip_two_inputs_invariant (evs : list arrival) :
  Forall (fun ev => fst ev = Some a \/ fst ev = Some b) evs ->
  (forall x, In x (arrivals (Some a) evs) -> stream_merge_of classes x = None) ->
  let res := run (zip_step classes chn) (zip_init maxsize chn) evs in
  exists c0 c1 b0 b1 : list value,
    fst res = mk_zip maxsize [b0; b1]
    /\ arrivals (Some a) evs = c0 ++ b0
    /\ arrivals (Some b) evs = c1 ++ b1
    /\ length c0 = length c1
    /\ (b0 = [] \/ b1 = [])
    /\ emissions (snd res) = zip_with (fun x y => VTuple [x; y]) c0 c1.
Proof.
  cbv zeta. induction evs as [| [who x] evs IH] using rev_ind; intros Hsrc Hplain.
  - exists [], [], [], []. repeat split. left; reflexivity.
  - apply Forall_app in Hsrc. destruct Hsrc as [Hsrc Hwho].
    apply Forall_inv in Hwho. cbn [fst] in Hwho.
    destruct IH as (c0 & c1 & b0 & b1 & Hst & Ha & Hb & Hlen & Hempty & Hem).
    { exact Hsrc. }
    { intros y Hy. apply Hplain. rewrite arrivals_app. apply in_or_app. left. exact Hy. }
    rewrite run_app. cbn [fst snd]. rewrite emissions_app, Hem, Hst, run_cons.
    cbn [fst snd run]. rewrite emissions_cons. cbn [emissions map concat].
    rewrite app_nil_r, !arrivals_app, !arrivals_one, Ha, Hb.
    unfold zip_step. cbn [fst snd]. unfold zip_update.
    destruct Hwho as [-> | ->].
    + rewrite index_first. cbn [zip_buffers zip_maxsize lookup list_lookup].
      assert (Hx : stream_merge_of classes x = None).
      { apply Hplain. rewrite arrivals_app, arrivals_one. apply in_or_app. right.
        simpl. rewrite Nat.eqb_refl. left. reflexivity. }
      replace (who_eqb (Some a) (Some b)) with false
        by (simpl; symmetry; apply Nat.eqb_neq; exact distinct).
      replace (who_eqb (Some a) (Some a)) with true by (simpl; symmetry; apply Nat.eqb_refl).
      destruct b0 as [| x0 b0].
      * destruct b1 as [| y b1]; simpl.
        -- exists c0, c1, [x], []. rewrite !app_nil_r.
           no_round.
        -- unfold emit_merged, merge_tuple. rewrite Hx. simpl.
           exists (c0 ++ [x]), (c1 ++ [y]), [], b1. rewrite !app_nil_r.
           repeat split; auto.
           ++ rewrite <- app_assoc. reflexivity.
           ++ rewrite !length_app. simpl. lia.
           ++ rewrite zip_with_app by exact Hlen. reflexivity.
      * destruct Hempty as [Hempty | ->]; [discriminate Hempty |].
        exists c0, c1, ((x0 :: b0) ++ [x]), []. simpl.
        destruct (length (b0 ++ [x])) eqn:Hl;
          [rewrite length_app in Hl; simpl in Hl; lia |].
        simpl. no_round.
    + rewrite index_second. cbn [zip_buffers zip_maxsize lookup list_lookup].
      replace (who_eqb (Some b) (Some a)) with false
        by (simpl; symmetry; apply Nat.eqb_neq; intros ->; apply distinct; reflexivity).
      replace (who_eqb (Some b) (Some b)) with true by (simpl; symmetry; apply Nat.eqb_refl).
      destruct b1 as [| y0 b1].
      * destruct b0 as [| x0 b0]; simpl.
        -- exists c0, c1, [], [x]. rewrite !app_nil_r.
           no_round.
        -- assert (Hx0 : stream_merge_of classes x0 = None).
           { apply Hplain. rewrite arrivals_app, Ha. apply in_or_app. left.
             apply in_or_app. right. left. reflexivity. }
           unfold emit_merged, merge_tuple. rewrite Hx0. simpl.
           exists (c0 ++ [x0]), (c1 ++ [x]), b0, []. rewrite !app_nil_r.
           repeat split; auto.
           ++ rewrite <- app_assoc. reflexivity.
           ++ rewrite !length_app. simpl. lia.
           ++ rewrite zip_with_app by exact Hlen. reflexivity.
      * destruct Hempty as [-> | Hempty]; [| discriminate Hempty].
        exists c0, c1, [], ((y0 :: b1) ++ [x]). simpl.
        destruct (length (b1 ++ [x])) eqn:Hl;
          [rewrite length_app in Hl; simpl in Hl; lia |].
        simpl. no_round.
Qed.
End ZipTwoInputs.

(** C2, as stated, fails for a payload type with [__stream_merge__]: when
    the value popped from the first buffer has that attribute, zip emits
    what the method returns, not the tuple of the heads. *)
Lemma zip_stream_merge_counterexample :
  ~ (forall (classes : class_table) (chn : list (option nat)) (self : zip)
            (x : value) (who : option nat) (i : nat),
       index who chn = Some i ->
       zip_buffers self !! i = Some [] ->
       forallb nonempty (<[i := [x]]> (zip_buffers self)) = true ->
       exists tup : list value, snd (zip_update classes chn self x who) = Emit (VTuple tup)).
Proof.
  intros H.
  destruct (H doc_classes [Some 0; Some 1] (mk_zip 10 [[]; [VInt 5]])
              (VObj "Doc" 1) (Some 0) 0 eq_refl eq_refl eq_refl) as [tup Htup].
  discriminate Htup.
Qed.

(** C2 (amended): when an arrival from input [i] makes buffer [i] hold one
    value while every buffer is non-empty, zip pops the head of every buffer
    and, unless the head of the first buffer has [__stream_merge__], emits
    the heads as one tuple in input order; any other arrival emits nothing
    and is only buffered.  With two distinct inputs whose payloads on the
    first input have no [__stream_merge__], feeding [k] values to each, in
    any interleaving, emits exactly [k] tuples, the [j]-th being the [j]-th
    arrival on the first input and the [j]-th arrival on the second, and
    leaves both buffers empty. *)
Theorem zip_emits_rounds_in_arrival_order :
  (forall (classes : class_table) (chn : list (option nat)) (self : zip)
          (x : value) (who : option nat) (i : nat) (L : list value),
      index who chn = Some i ->
      zip_buffers self !! i = Some L ->
      let buffers := <[i := L ++ [x]]> (zip_buffers self) in
      (L = [] /\ forallb nonempty buffers = true ->
       exists (tup : list value) (rest : list (list value)),
         zip_with cons tup rest = buffers
         /\ length tup = length buffers /\ length rest = length buffers
         /\ zip_update classes chn self x who
            = (mk_zip (zip_maxsize self) rest, emit_merged classes tup)
         /\ ((forall first, tup !! 0 = Some first -> stream_merge_of classes first = None) ->
             emit_merged classes tup = Emit (VTuple tup)))
      /\ (~ (L = [] /\ forallb nonempty buffers = true) ->
          zip_buffers (fst (zip_update classes chn self x who)) = buffers
          /\ is_emit (snd (zip_update classes chn self x who)) = false))
  /\ (forall (classes : class_table) (a b : nat) (maxsize : Z) (evs : list arrival),
         a <> b ->
         Forall (fun ev => fst ev = Some a \/ fst ev = Some b) evs ->
         length (arrivals (Some a) evs) = length (arrivals (Some b) evs) ->
         (forall x, In x (arrivals (Some a) evs) -> stream_merge_of classes x = None) ->
         let res := run (zip_step classes [Some a; Some b])
                        (zip_init maxsize [Some a; Some b]) evs in
         emissions (snd res)
         = zip_with (fun x y => VTuple [x; y]) (arrivals (Some a) evs) (arrivals (Some b) evs)
         /\ length (emissions (snd res)) = length (arrivals (Some a) evs)
         /\ zip_buffers (fst res) = [[]; []]).
Proof.
  split; [exact zip_update_round |].
  intros classes a b maxsize evs Hab Hsrc Hk Hplain. cbv zeta.
  destruct (zip_two_inputs_invariant classes a b maxsize Hab evs Hsrc Hplain)
    as (c0 & c1 & b0 & b1 & Hst & Ha & Hb & Hlen & Hempty & Hem).
  rewrite Ha, Hb, !length_app in Hk.
  assert (Hb0 : b0 = []) by (destruct Hempty as [-> | ->]; [reflexivity |];
                             destruct b0; [reflexivity | simpl in Hk; lia]).
  assert (Hb1 : b1 = []) by (destruct Hempty as [-> | ->]; [| reflexivity];
                             destruct b1; [reflexivity | simpl in Hk; lia]).
  subst b0 b1. rewrite app_nil_r in Ha, Hb. rewrite Hst, Hem, Ha, Hb.
  split; [reflexivity | split; [| reflexivity]].
  rewrite length_zip_with. lia.
Qed.

Lemma zip_emits_rounds_in_arrival_order_witness :
  emissions (snd (run (zip_step (fun _ => None) [Some 0; Some 1])
                      (zip_init 10 [Some 0; Some 1])
                      [(Some 0, VInt 1); (Some 0, VInt 2); (Some 1, VInt 10);
                       (Some 1, VInt 20)]))
  = [VTuple [VInt 1; VInt 10]; VTuple [VInt 2; VInt 20]].
Proof.
  destruct zip_emits_rounds_in_arrival_order as [_ H].
  destruct (H (fun _ => None) 0 1 10%Z
              [(Some 0, VInt 1); (Some 0, VInt 2); (Some 1, VInt 10); (Some 1, VInt 20)])
    as [Hem _].
  - discriminate.
  - repeat (apply List.Forall_cons; [simpl; auto |]). apply List.Forall_nil.
  - reflexivity.
  - intros x _. destruct x; reflexivity.
  - exact Hem.
Defined.

(** ** C7: combine_latest *)

Lemma missing_remove (missing : gset (option nat)) (who : option nat) :
  (if decide (missing ≠ ∅ ∧ who ∈ missing) then missing ∖ {[ who ]} else missing)
  = missing ∖ {[ who ]}.
Proof. destruct (decide _) as [_ | Hno]; [reflexivity |]. set_solver. Qed.

Lemma first_input_eqb (chn : list (option nat)) (who : option nat) (i : nat) :
  index who chn = Some i ->
  who_eqb who (default None (chn !! 0)) = true <-> chn !! 0 = Some who.
Proof.
  intros Hi. destruct chn as [| c rest]; [discriminate Hi |]. simpl.
  rewrite who_eqb_eq. split; congruence.
Qed.

Lemma index_first_input (chn : list (option nat)) (who : option nat) (i : nat) :
  index who chn = Some i -> chn !! 0 = Some who -> i = 0.
Proof.
  destruct chn as [| c rest]; [discriminate |]. simpl. intros Hi Hc.
  injection Hc as ->. replace (who_eqb who who) with true in Hi
    by (symmetry; apply who_eqb_eq; reflexivity).
  congruence.
Qed.

(** One arrival from a registered input. *)
Lemma combine_latest_update_eq (classes : class_table) (chn : list (option nat))
    (self : combine_latest) (x : value) (who : option nat) (i : nat) :
  index who chn = Some i ->
  i < length (combine_latest_last self) ->
  combine_latest_update classes chn self x who =
  (mk_combine_latest (<[i := x]> (combine_latest_last self))
                     (combine_latest_missing self ∖ {[ who ]}),
   if bool_decide (combine_latest_missing self ∖ {[ who ]} = ∅)
      && who_eqb who (default None (chn !! 0))
   then emit_merged classes (<[i := x]> (combine_latest_last self))
   else Return VNone).
Proof.
  intros Hi Hlen. unfold combine_latest_update.
  rewrite missing_remove, Hi. destruct (decide _) as [_ | Hno]; [| contradiction].
  destruct (_ && _); reflexivity.
Qed.

Lemma combine_latest_update_unknown (classes : class_table) (chn : list (option nat))
    (self : combine_latest) (x : value) (who : option nat) :
  index who chn = None ->
  combine_latest_update classes chn self x who =
  (mk_combine_latest (combine_latest_last self) (combine_latest_missing self ∖ {[ who ]}),
   Throw (ValueError "tuple.index(x): x not in tuple")).
Proof.
  intros Hi. unfold combine_latest_update. rewrite missing_remove, Hi. reflexivity.
Qed.

Lemma index_None (who : option nat) (chn : list (option nat)) :
  index who chn = None -> who ∉ chn.
Proof.
  induction chn as [| c rest IH]; simpl; [intros _; apply not_elem_of_nil |].
  destruct (who_eqb c who) eqn:Hc; [discriminate |].
  destruct (index who rest); [discriminate |]. intros _.
  apply not_elem_of_cons. split; [| apply IH; reflexivity].
  intros ->. assert (who_eqb c c = true) by (apply who_eqb_eq; reflexivity). congruence.
Qed.

Lemma index_length (who : option nat) (chn : list (option nat)) (i : nat) :
  index who chn = Some i -> i < length chn.
Proof. intros Hi. apply index_lookup in Hi. eapply lookup_lt_Some. exact Hi. Qed.

(** [self.missing] is the set of the inputs that have not delivered yet,
    and [self.last] keeps one slot per input. *)
Lemma combine_latest_missing_invariant (classes : class_table) (chn : list (option nat))
    (evs : list arrival) :
  let st := fst (run (combine_latest_step classes chn) (combine_latest_init chn) evs) in
  combine_latest_missing st = list_to_set chn ∖ list_to_set (map fst evs)
  /\ length (combine_latest_last st) = length chn.
Proof.
  cbv zeta. induction evs as [| [who x] evs [IHm IHl]] using rev_ind.
  - simpl. split; [set_solver | apply length_map].
  - rewrite run_app. cbn [fst]. rewrite run_cons. cbn [fst run].
    set (st := fst (run (combine_latest_step classes chn) (combine_latest_init chn) evs)) in *.
    unfold combine_latest_step. cbn [fst snd]. rewrite map_app, list_to_set_app_L. simpl.
    destruct (index who chn) as [i |] eqn:Hi.
    + rewrite (combine_latest_update_eq classes chn st x who i Hi)
        by (rewrite IHl; eapply index_length; exact Hi).
      cbn [fst combine_latest_missing combine_latest_last].
      rewrite length_insert, IHm. split; [set_solver | exact IHl].
    + rewrite (combine_latest_update_unknown classes chn st x who Hi).
      cbn [fst combine_latest_missing combine_latest_last].
      rewrite IHm. split; [set_solver | exact IHl].
Qed.

Lemma index_of_first (chn : list (option nat)) (who : option nat) :
  chn !! 0 = Some who -> index who chn = Some 0.
Proof.
  destruct chn as [| c rest]; [discriminate |]. simpl. intros H; injection H as ->.
  replace (who_eqb who who) with true by (symmetry; apply who_eqb_eq; reflexivity).
  reflexivity.
Qed.

(** No emission unless the source is the first input and nothing is missing. *)
Lemma combine_latest_emit_inv (classes : class_table) (chn : list (option nat))
    (self : combine_latest) (x : value) (who : option nat) :
  is_emit (snd (combine_latest_update classes chn self x who)) = true ->
  chn !! 0 = Some who /\ combine_latest_missing self ∖ {[ who ]} = ∅.
Proof.
  destruct (index who chn) as [i |] eqn:Hi.
  - destruct (decide (i < length (combine_latest_last self))) as [Hlen | Hlen].
    + rewrite (combine_latest_update_eq classes chn self x who i Hi Hlen). cbn [snd].
      destruct (bool_decide _) eqn:Hm; cbn [andb]; [| discriminate].
      destruct (who_eqb who _) eqn:Hw; [| discriminate]. intros _.
      apply bool_decide_eq_true in Hm. apply (first_input_eqb chn who i Hi) in Hw.
      split; assumption.
    + unfold combine_latest_update. rewrite Hi.
      destruct (decide (i < _)); [contradiction | discriminate].
  - rewrite (combine_latest_update_unknown classes chn self x who Hi). discriminate.
Qed.

(** C7: a combine_latest node never emits on an update whose source is not
    its first-registered input, and never emits while an input is missing;
    an arrival from another registered input overwrites that input's slot
    of [last] (and is taken out of the missing set) and returns without
    emitting;
    an arrival from the first input when nothing is missing emits the tuple
    of the latest values (or what the [__stream_merge__] of its first item
    makes of it).  In a run from the initial state the missing set is the
    set of inputs that have not delivered, so the [k]-th arrival emits only
    if it comes from the first input and every input has delivered by
    then. *)
Theorem combine_latest_emits_only_on_first_input
    (classes : class_table) (chn : list (option nat)) :
  (forall (self : combine_latest) (x : value) (who : option nat),
      chn !! 0 <> Some who \/ combine_latest_missing self ∖ {[ who ]} <> ∅ ->
      is_emit (snd (combine_latest_update classes chn self x who)) = false)
  /\ (forall (self : combine_latest) (x : value) (who : option nat) (i : nat),
         index who chn = Some i -> i < length (combine_latest_last self) ->
         chn !! 0 <> Some who ->
         combine_latest_update classes chn self x who
         = (mk_combine_latest (<[i := x]> (combine_latest_last self))
                              (combine_latest_missing self ∖ {[ who ]}),
            Return VNone))
  /\ (forall (self : combine_latest) (x : value) (who : option nat),
         chn !! 0 = Some who -> 0 < length (combine_latest_last self) ->
         combine_latest_missing self ∖ {[ who ]} = ∅ ->
         combine_latest_update classes chn self x who
         = (mk_combine_latest (<[0 := x]> (combine_latest_last self)) ∅,
            emit_merged classes (<[0 := x]> (combine_latest_last self)))
         /\ (stream_merge_of classes x = None ->
             snd (combine_latest_update classes chn self x who)
             = Emit (VTuple (<[0 := x]> (combine_latest_last self)))))
  /\ (forall (evs : list arrival) (k : nat) (ev : arrival),
         evs !! k = Some ev ->
         let acts := snd (run (combine_latest_step classes chn)
                              (combine_latest_init chn) evs) in
         exists act : action,
           acts !! k = Some act
           /\ (is_emit act = true ->
               chn !! 0 = Some (fst ev)
               /\ forall c, c ∈ chn -> c ∈ map fst (take (S k) evs))).
Proof.
  split; [| split; [| split]].
  - intros self x who Hno.
    destruct (is_emit _) eqn:He; [| reflexivity]. exfalso.
    apply combine_latest_emit_inv in He. destruct He as [Hfirst Hmissing].
    destruct Hno as [Hno | Hno]; contradiction.
  - intros self x who i Hi Hlen Hfirst.
    rewrite (combine_latest_update_eq classes chn self x who i Hi Hlen).
    destruct (who_eqb who _) eqn:Hw.
    + apply (first_input_eqb chn who i Hi) in Hw. contradiction.
    + rewrite andb_false_r. reflexivity.
  - intros self x who Hfirst Hlen Hmissing.
    pose proof (index_of_first chn who Hfirst) as Hi.
    rewrite (combine_latest_update_eq classes chn self x who 0 Hi Hlen), Hmissing.
    rewrite bool_decide_eq_true_2 by reflexivity.
    replace (who_eqb who _) with true
      by (symmetry; apply (first_input_eqb chn who 0 Hi); exact Hfirst).
    split; [reflexivity |]. intros Hplain. cbn [snd andb].
    apply emit_merged_plain. intros first Hf.
    rewrite list_lookup_insert_eq in Hf by exact Hlen. injection Hf as <-. exact Hplain.
  - intros evs k [who x] Hk. cbv zeta. rewrite (run_lookup _ _ _ _ _ Hk).
    eexists. split; [reflexivity |]. unfold combine_latest_step at 1. cbn [fst snd].
    intros He. apply combine_latest_emit_inv in He. destruct He as [Hfirst Hmissing].
    split; [exact Hfirst |]. intros c Hc.
    destruct (combine_latest_missing_invariant classes chn (take k evs)) as [Hinv _].
    rewrite Hinv in Hmissing.
    rewrite (take_S_r evs k (who, x) Hk), map_app. simpl.
    apply elem_of_app. destruct (decide (c = who)) as [-> | Hne].
    + right. apply list_elem_of_singleton. reflexivity.
    + left. destruct (decide (c ∈ map fst (take k evs))) as [Hin | Hnin];
        [exact Hin | exfalso].
      assert (Hin : c ∈ (list_to_set chn ∖ list_to_set (map fst (take k evs))
                           ∖ {[ who ]} : gset (option nat))) by set_solver.
      rewrite Hmissing in Hin. set_solver.
Qed.

Lemma combine_latest_emits_only_on_first_input_witness :
  map is_emit (snd (run (combine_latest_step (fun _ => None) [Some 0; Some 1])
                        (combine_latest_init [Some 0; Some 1])
                        [(Some 0, VInt 1); (Some 1, VInt 10); (Some 1, VInt 20);
                         (Some 0, VInt 2)]))
  = [false; false; false; true]
  /\ is_emit (snd (combine_latest_update (fun _ => None) [Some 0; Some 1]
                     (mk_combine_latest [VInt 1; VInt 10] ∅) (VInt 20) (Some 1)))
     = false.
Proof.
  split; [vm_compute; reflexivity |].
  destruct (combine_latest_emits_only_on_first_input (fun _ => None) [Some 0; Some 1])
    as [H _].
  apply H. left. discriminate.
Defined.

(** ** C8: rate_limit *)
















(** ** C9: the child property *)

Lemma upstream_inputs_length (chn : list (option nat)) :
  length (omap id chn) <= length chn.
Proof.
  induction chn as [| [c |] chn IH]; [cbn; lia | |].
  - change (omap id (Some c :: chn)) with (c :: omap id chn). simpl. lia.
  - change (omap id (None :: chn)) with (omap id chn). simpl. lia.
Qed.

(** C9, as stated, fails: a source, built as [Stream()], has no upstream
    input, so their number is not one, and reading [child] on it returns the
    [None] that [__init__] put into [children] where the claim has a
    ValueError. *)
Lemma child_of_source_counterexample :
  (let '(source, s) := Stream_init [None] KStream empty_store in
   exists nd : Stream,
     nodes s !! source = Some nd
     /\ upstream_inputs nd = []
     /\ Stream_child source s = (Ok None, s))
  /\ ~ (forall (s : store) (self : nat) (nd : Stream),
          nodes s !! self = Some nd ->
          length (upstream_inputs nd) <> 1 ->
          exists msg : string, fst (Stream_child self s) = Raise (ValueError msg)).
Proof.
  split.
  - simpl. eexists. split; [reflexivity |]. split; reflexivity.
  - intros H.
    destruct (H (snd (Stream_init [None] KStream empty_store)) 0
                (mk_Stream [] [None] KStream) eq_refl) as [msg Hmsg].
    + simpl. lia.
    + discriminate Hmsg.
Qed.

(** C9 (amended): reading [child] returns the only entry of [children] when
    there is exactly one: the unique upstream input when that entry is a
    stream, [None] when the node is a source built without input.  It raises
    ValueError when the number of entries is not one, in particular for
    every node with two or more upstream inputs (as a zip of two streams).
    The store is left as it was in every case. *)
Theorem child_unique_or_value_error (s : store) (self : nat) (nd : Stream) :
  nodes s !! self = Some nd ->
  (forall c : option nat, children nd = [c] -> Stream_child self s = (Ok c, s))
  /\ (forall u : nat,
         children nd = [Some u] ->
         upstream_inputs nd = [u] /\ Stream_child self s = (Ok (Some u), s))
  /\ (children nd = [None] ->
      upstream_inputs nd = [] /\ Stream_child self s = (Ok None, s))
  /\ (length (children nd) <> 1 ->
      Stream_child self s = (Raise (ValueError "Stream has multiple children"), s))
  /\ (2 <= length (upstream_inputs nd) ->
      Stream_child self s = (Raise (ValueError "Stream has multiple children"), s))
  /\ snd (Stream_child self s) = s.
Proof.
  intros Hnd.
  assert (Hmany : length (children nd) <> 1 ->
                  Stream_child self s
                  = (Raise (ValueError "Stream has multiple children"), s)).
  { intros Hlen. unfold Stream_child, child. rewrite Hnd.
    destruct (children nd) as [| c [| c' rest]]; simpl in Hlen;
      [reflexivity | lia | reflexivity]. }
  split; [| split; [| split; [| split; [| split]]]].
  - intros c Hc. unfold Stream_child, child. rewrite Hnd, Hc. reflexivity.
  - intros u Hu. unfold upstream_inputs, Stream_child, child.
    rewrite Hnd, Hu. split; reflexivity.
  - intros Hsrc. unfold upstream_inputs, Stream_child, child.
    rewrite Hnd, Hsrc. split; reflexivity.
  - exact Hmany.
  - intros Hup. apply Hmany.
    pose proof (upstream_inputs_length (children nd)) as Hle.
    unfold upstream_inputs in Hup. lia.
  - unfold Stream_child. rewrite Hnd. reflexivity.
Qed.

Lemma child_unique_or_value_error_witness :
  let s := fst (fst (fst zip_of_two)) in
  let s1 := fst (fst (scan_to_list py_add false no_default)) in
  Stream_child 2 s = (Raise (ValueError "Stream has multiple children"), s)
  /\ Stream_child 0 s = (Ok None, s)
  /\ Stream_child 1 s1 = (Ok (Some 0), s1).
Proof.
  cbv zeta. split; [| split].
  - destruct (child_unique_or_value_error (fst (fst (fst zip_of_two))) 2
                (mk_Stream [] [Some 0; Some 1] (KZip (zip_init 10 [Some 0; Some 1])))
                eq_refl) as [_ [_ [_ [_ [H _]]]]].
    apply H. simpl. lia.
  - destruct (child_unique_or_value_error (fst (fst (fst zip_of_two))) 0
                (mk_Stream [2] [None] KStream) eq_refl) as [_ [_ [H _]]].
    apply H. reflexivity.
  - destruct (child_unique_or_value_error
                (fst (fst (scan_to_list py_add false no_default))) 1
                (mk_Stream [2] [Some 0] (KScan (scan_init py_add false no_default)))
                eq_refl) as [_ [H _]].
    apply (H 0). reflexivity.
Defined.

(** ** C10: collect *)

(** C10: [collect.update(x)] appends [x] to the cache and returns [None]
    without calling any listener (at any call depth, even one that leaves
    none for a listener);
    [flush] calls [emit] once, with the tuple of the values cached at that
    moment (the empty tuple for an empty cache), and, when that [emit]
    returns, clears the cache; when it raises, the exception leaves [flush]
    before the cache is cleared.  On the example of [Stream.collect], two
    flushes deliver [(1, 2)] and then [()] to the sink. *)
Theorem collect_caches_until_flush :
  (forall (who : option nat) (x : value) (s : store) (self : nat) (nd : Stream)
          (cache : nat) (vs : list value),
      nodes s !! self = Some nd -> node_kind nd = KCollect cache ->
      heap s !! cache = Some vs ->
      forall depth : nat,
        update (S depth) self x who s
        = (Ok VNone, set_heap (<[cache := vs ++ [x]]> (heap s)) s))
  /\ (forall (upd : nat -> value -> option nat -> store -> result value * store)
             (s : store) (self : nat) (nd : Stream) (cache : nat) (vs : list value),
         nodes s !! self = Some nd -> node_kind nd = KCollect cache ->
         heap s !! cache = Some vs ->
         (forall (r : value) (s' : store),
             Stream_emit upd self (VTuple vs) (parents nd) s = (Ok r, s') ->
             collect_flush upd self s
             = (Ok VNone, set_heap (<[cache := []]> (heap s')) s')
             /\ (is_Some (heap s' !! cache) ->
                 heap (snd (collect_flush upd self s)) !! cache = Some []))
         /\ (forall (e : exn) (s' : store),
                Stream_emit upd self (VTuple vs) (parents nd) s = (Raise e, s') ->
                collect_flush upd self s = (Raise e, s')))
  /\ (let '(_, _, _, _, cache, L) := collect_example in
      exists (r : value) (s' : store),
        collect_example_run = (Ok r, s')
        /\ heap s' !! L = Some [VTuple [VInt 1; VInt 2]; VTuple []]
        /\ heap s' !! cache = Some []).
Proof.
  split; [| split].
  - intros who x s self nd cache vs Hnd Hkind Hvs depth.
    simpl. rewrite Hnd, Hkind. unfold collect_update. rewrite Hvs. reflexivity.
  - intros upd s self nd cache vs Hnd Hkind Hvs. split.
    + intros r s' Hemit. unfold collect_flush. rewrite Hnd, Hkind, Hvs, Hemit.
      split; [reflexivity |]. intros Hcache. cbn [snd set_heap heap].
      apply list_lookup_insert_eq. apply lookup_lt_is_Some. exact Hcache.
    + intros e s' Hemit. unfold collect_flush. rewrite Hnd, Hkind, Hvs, Hemit.
      reflexivity.
  - vm_compute. eexists _, _. split; [reflexivity | split; reflexivity].
Qed.

Lemma collect_caches_until_flush_witness :
  let s := mk_store [mk_Stream [] [None] (KCollect 0)] [[VInt 1; VInt 2]] 0 [] []
                    (fun _ => None) in
  flush 5 0 s = (Ok VNone, set_heap [[]] s).
Proof.
  cbv zeta.
  destruct collect_caches_until_flush as [_ [H _]].
  destruct (H (update 5)
              (mk_store [mk_Stream [] [None] (KCollect 0)] [[VInt 1; VInt 2]] 0 [] []
                        (fun _ => None))
              0 (mk_Stream [] [None] (KCollect 0)) 0 [VInt 1; VInt 2]
              eq_refl eq_refl eq_refl) as [Hok _].
  destruct (Hok (VList []) _ eq_refl) as [Hflush _]. exact Hflush.
Defined.

(** * Further properties of the engine *)

(** ** emit: a listener that raises *)

Lemma call_listeners_app_raise {S : Type}
    (upd : nat -> value -> option nat -> S -> result value * S)
    (self : nat) (x : value) (before after : list nat) (culprit : nat) :
  forall (s s1 s2 : S) (rs : list value) (e : exn),
    call_listeners upd self x before s = (Ok rs, s1) ->
    upd culprit x (Some self) s1 = (Raise e, s2) ->
    call_listeners upd self x (before ++ culprit :: after) s = (Raise e, s2).
Proof.
  induction before as [| p before IH]; intros s s1 s2 rs e Hbefore Hraise; simpl in *.
  - injection Hbefore as _ <-. rewrite Hraise. reflexivity.
  - destruct (upd p x (Some self) s) as [[r | e'] s'] eqn:Hp; [| discriminate].
    destruct (call_listeners upd self x before s') as [[rs' | e'] s''] eqn:Hrest;
      [| discriminate].
    injection Hbefore as _ <-.
    rewrite (IH s' s'' s2 rs' e Hrest Hraise). reflexivity.
Qed.

Lemma call_listeners_recorded_ok {S : Type}
    (upd : nat -> value -> option nat -> S -> result value * S)
    (self : nat) (x : value) (listeners : list nat) :
  forall (s s' : S) (log : list call) (rs : list value),
    call_listeners upd self x listeners s = (Ok rs, s') ->
    call_listeners (recorded upd) self x listeners (s, log)
    = (Ok rs, (s', log ++ map (fun p => (p, x, Some self)) listeners)).
Proof.
  intros s s' log rs H. rewrite call_listeners_recorded, H. reflexivity.
Qed.

(** When a listener raises, [emit] ends with that exception: the listeners
    registered before it have been called, and what they did to the state is
    kept; the listeners registered after it are not called. *)
Theorem emit_stops_at_first_exception {S : Type}
    (upd : nat -> value -> option nat -> S -> result value * S)
    (self : nat) (x : value) (before after : list nat) (culprit : nat)
    (s s1 s2 : S) (log : list call) (rs : list value) (e : exn) :
  call_listeners upd self x before s = (Ok rs, s1) ->
  upd culprit x (Some self) s1 = (Raise e, s2) ->
  Stream_emit (recorded upd) self x (before ++ culprit :: after) (s, log)
  = (Raise e,
     (s2, log ++ map (fun p => (p, x, Some self)) before ++ [(culprit, x, Some self)])).
Proof.
  intros Hbefore Hraise. unfold Stream_emit. rewrite emit_loop_call_listeners.
  rewrite (call_listeners_app_raise (recorded upd) self x before after culprit
             (s, log) (s1, log ++ map (fun p => (p, x, Some self)) before)
             (s2, log ++ map (fun p => (p, x, Some self)) before ++ [(culprit, x, Some self)])
             rs e).
  - reflexivity.
  - apply call_listeners_recorded_ok. exact Hbefore.
  - simpl. rewrite Hraise. rewrite <- app_assoc. reflexivity.
Qed.

Lemma emit_stops_at_first_exception_witness :
  Stream_emit (recorded second_raises) 9 (VInt 3) ([0] ++ 1 :: [2]) (0, [])
  = (Raise (UserError "boom"), (2, [(0, VInt 3, Some 9); (1, VInt 3, Some 9)])).
Proof.
  apply (emit_stops_at_first_exception second_raises 9 (VInt 3) [0] [2] 1
           0 1 2 [] [VList []] (UserError "boom") eq_refl eq_refl).
Defined.

(** ** Sink: the futures of the callbacks go back to the producer *)

Lemma sink_results_flatten (rs : list value) :
  List.filter not_none (flatten_one_level (map sink_result rs)) = List.filter is_future rs.
Proof.
  induction rs as [| r rs IH]; [reflexivity |].
  cbn [map]. rewrite flatten_one_level_cons.
  rewrite List.filter_app, IH. destruct r; reflexivity.
Qed.

Lemma update_sink_pure (depth : nat) (s : store) (p : nat) (pd : Stream) (func : func1)
    (x r : value) (who : option nat) :
  nodes s !! p = Some pd -> node_kind pd = KSink (CbPure func) -> func x = Ok r ->
  update (S depth) p x who s = (Ok (sink_result r), s).
Proof. intros Hp Hkind Hfunc. simpl. rewrite Hp, Hkind, Hfunc. reflexivity. Qed.

Lemma call_listeners_sinks (depth : nat) (s : store) (self : nat) (x : value)
    (answers : nat -> value) (listeners : list nat) :
  (forall p, p ∈ listeners ->
     exists (pd : Stream) (func : func1),
       nodes s !! p = Some pd /\ node_kind pd = KSink (CbPure func)
       /\ func x = Ok (answers p)) ->
  call_listeners (update (S depth)) self x listeners s
  = (Ok (map sink_result (map answers listeners)), s).
Proof.
  induction listeners as [| p rest IH]; intros Hsinks; [reflexivity |].
  destruct (Hsinks p) as (pd & func & Hp & Hkind & Hfunc); [left |].
  cbn [call_listeners map].
  rewrite (update_sink_pure depth s p pd func x (answers p) (Some self) Hp Hkind Hfunc).
  rewrite IH; [reflexivity |]. intros q Hq. apply Hsinks. right. exact Hq.
Qed.

(** [emit] on a node whose listeners are sinks with callbacks that leave
    the graph alone returns the futures the callbacks returned, in listener
    order, drops every other callback result, and leaves the store as it
    was. *)
Theorem emit_returns_sink_futures (depth : nat) (s : store) (self : nat) (nd : Stream)
    (x : value) (answers : nat -> value) :
  nodes s !! self = Some nd ->
  (forall p, p ∈ parents nd ->
     exists (pd : Stream) (func : func1),
       nodes s !! p = Some pd /\ node_kind pd = KSink (CbPure func)
       /\ func x = Ok (answers p)) ->
  emit (S depth) self x s
  = (Ok (VList (List.filter is_future (map answers (parents nd)))), s).
Proof.
  intros Hnd Hsinks. unfold emit, Stream_emit. rewrite Hnd, emit_loop_call_listeners.
  rewrite (call_listeners_sinks depth s self x answers (parents nd) Hsinks).
  cbn [app]. rewrite sink_results_flatten. reflexivity.
Qed.

Lemma emit_returns_sink_futures_witness :
  emit 3 0 (VInt 1) (fst two_sinks) = (Ok (VList [VFuture 4]), fst two_sinks).
Proof.
  apply (emit_returns_sink_futures 2 (fst two_sinks) 0
           (mk_Stream [1; 2] [None] KStream) (VInt 1)
           (fun p => match p with 1 => VFuture 4 | _ => VNone end) eq_refl).
  intros p Hp.
  apply elem_of_cons in Hp. destruct Hp as [-> | Hp].
  - eexists _, _. split; [reflexivity | split; reflexivity].
  - apply list_elem_of_singleton in Hp. subst p.
    eexists _, _. split; [reflexivity | split; reflexivity].
Defined.

(** ** Stores that differ in the heap only *)

Lemma set_heap_set_heap (h h' : list (list value)) (s : store) :
  set_heap h' (set_heap h s) = set_heap h' s.
Proof. reflexivity. Qed.

Lemma set_heap_same (s : store) : set_heap (heap s) s = s.
Proof. destruct s; reflexivity. Qed.

Lemma update_sink_append (depth : nat) (s : store) (k L : nat) (kd : Stream)
    (l : list value) (x : value) (who : option nat) :
  nodes s !! k = Some kd -> node_kind kd = KSink (CbAppend L) -> heap s !! L = Some l ->
  update (S depth) k x who s
  = (Ok (VList []), set_heap (<[L := l ++ [x]]> (heap s)) s).
Proof. intros Hk Hkind HL. simpl. rewrite Hk, Hkind, HL. reflexivity. Qed.

Lemma update_map (depth : nat) (s : store) (m : nat) (md : Stream) (func : func1)
    (raw : bool) (x : value) (who : option nat) :
  nodes s !! m = Some md -> node_kind md = KMap func raw ->
  update (S depth) m x who s
  = match (if raw then func x else _stream_map depth (stream_map s) func x) with
    | Ok y => Stream_emit (update depth) m y (parents md) s
    | Raise e => (Raise e, s)
    end.
Proof. intros Hm Hkind. simpl. rewrite Hm, Hkind. reflexivity. Qed.

Lemma update_filter (depth : nat) (s : store) (m : nat) (md : Stream)
    (predicate : func1) (x : value) (who : option nat) :
  nodes s !! m = Some md -> node_kind md = KFilter predicate ->
  update (S depth) m x who s
  = match predicate x with
    | Ok b => if truthy b then Stream_emit (update depth) m x (parents md) s
              else (Ok VNone, s)
    | Raise e => (Raise e, s)
    end.
Proof. intros Hm Hkind. simpl. rewrite Hm, Hkind. reflexivity. Qed.

(** ** map and filter in front of a list *)

Section ToList.
Variables (depth : nat) (s : store) (source m k L : nat) (sd md kd : Stream).
Hypothesis source_node : nodes s !! source = Some sd.
Hypothesis source_listeners : parents sd = [m].
Hypothesis middle_node : nodes s !! m = Some md.
Hypothesis middle_listeners : parents md = [k].
Hypothesis sink_node : nodes s !! k = Some kd.
Hypothesis sink_kind : node_kind kd = KSink (CbAppend L).

(** The store with [l] as the content of the list [L]. *)
Let with_list (l : list value) : store := set_heap (<[L := l]> (heap s)) s.

Lemma with_list_lookup (l : list value) :
  L < length (heap s) -> heap (with_list l) !! L = Some l.
Proof. intros HL. unfold with_list. simpl. apply list_lookup_insert_eq. exact HL. Qed.

Lemma with_list_again (l l' : list value) :
  set_heap (<[L := l']> (heap (with_list l))) (with_list l) = with_list l'.
Proof. unfold with_list. simpl. rewrite list_insert_insert_eq. reflexivity. Qed.

Lemma emit_at_source (x : value) (l : list value) :
  emit (S (S depth)) source x (with_list l)
  = match update (S (S depth)) m x (Some source) (with_list l) with
    | (Ok r, s') => (Ok (VList (List.filter not_none (collect_result [] r))), s')
    | (Raise e, s') => (Raise e, s')
    end.
Proof.
  unfold emit, Stream_emit. cbn [nodes with_list set_heap].
  rewrite source_node, source_listeners. cbn [emit_loop].
  destruct (update (S (S depth)) m x (Some source) _) as [[r | e] s']; reflexivity.
Qed.

(** One value through [map(func)] into the list. *)
Lemma map_step (func : func1) (raw : bool) (x y : value) (l : list value) :
  node_kind md = KMap func raw ->
  raw = true \/ stream_map s = [] ->
  L < length (heap s) ->
  func x = Ok y ->
  emit (S (S depth)) source x (with_list l) = (Ok (VList []), with_list (l ++ [y])).
Proof.
  intros Hkind Hbase HL Hy. rewrite emit_at_source.
  assert (Hmap : (if raw then func x
                  else _stream_map (S depth) (stream_map (with_list l)) func x) = Ok y).
  { destruct Hbase as [-> | Hreg]; [exact Hy |].
    destruct raw; [exact Hy |]. cbn [stream_map with_list set_heap]. rewrite Hreg.
    exact Hy. }
  rewrite (update_map (S depth) (with_list l) m md func raw x (Some source)
             middle_node Hkind), Hmap.
  unfold Stream_emit. rewrite middle_listeners. cbn [emit_loop].
  rewrite (update_sink_append depth (with_list l) k L kd l y (Some m) sink_node sink_kind
             (with_list_lookup l HL)).
  rewrite with_list_again. reflexivity.
Qed.

(** One value through [filter(predicate)] into the list. *)
Lemma filter_step (predicate : func1) (x b : value) (l : list value) :
  node_kind md = KFilter predicate ->
  L < length (heap s) ->
  predicate x = Ok b ->
  emit (S (S depth)) source x (with_list l)
  = (Ok (VList []), with_list (if truthy b then l ++ [x] else l)).
Proof.
  intros Hkind HL Hb. rewrite emit_at_source.
  rewrite (update_filter (S depth) (with_list l) m md predicate x (Some source)
             middle_node Hkind), Hb.
  destruct (truthy b); [| reflexivity].
  unfold Stream_emit. rewrite middle_listeners. cbn [emit_loop].
  rewrite (update_sink_append depth (with_list l) k L kd l x (Some m) sink_node sink_kind
             (with_list_lookup l HL)).
  rewrite with_list_again. reflexivity.
Qed.

Lemma map_run (func : func1) (raw : bool) (g : value -> value) (xs : list value) :
  node_kind md = KMap func raw ->
  raw = true \/ stream_map s = [] ->
  L < length (heap s) ->
  Forall (fun x => func x = Ok (g x)) xs ->
  forall l : list value,
    emit_all (S (S depth)) source xs (with_list l) = (Ok tt, with_list (l ++ map g xs)).
Proof.
  intros Hkind Hbase HL. induction 1 as [| x xs Hx _ IH]; intros l.
  - simpl. rewrite app_nil_r. reflexivity.
  - cbn [emit_all]. rewrite (map_step func raw x (g x) l Hkind Hbase HL Hx).
    rewrite IH. simpl. rewrite <- app_assoc. reflexivity.
Qed.

Lemma filter_run (predicate : func1) (g : value -> value) (xs : list value) :
  node_kind md = KFilter predicate ->
  L < length (heap s) ->
  Forall (fun x => predicate x = Ok (g x)) xs ->
  forall l : list value,
    emit_all (S (S depth)) source xs (with_list l)
    = (Ok tt, with_list (l ++ List.filter (fun x => truthy (g x)) xs)).
Proof.
  intros Hkind HL. induction 1 as [| x xs Hx _ IH]; intros l.
  - simpl. rewrite app_nil_r. reflexivity.
  - cbn [emit_all]. rewrite (filter_step predicate x (g x) l Hkind HL Hx).
    rewrite IH. simpl. destruct (truthy (g x)); [| reflexivity].
    rewrite <- app_assoc. reflexivity.
Qed.
End ToList.

Lemma set_heap_insert_same (s : store) (L : nat) (l : list value) :
  heap s !! L = Some l -> set_heap (<[L := l]> (heap s)) s = s.
Proof. intros HL. rewrite list_insert_id by exact HL. apply set_heap_same. Qed.

(** For [source.map(func)] feeding a list through a sink, with [raw] set or
    no [stream_map] handler registered: pushing the values [xs] at the
    source, on each of which [func] returns, appends [func] of every value
    to the list, in the same order and with none left out, and changes
    nothing else in the store. *)
Theorem map_sink_receives_function_values
    (depth : nat) (s : store) (source m k L : nat) (sd md kd : Stream)
    (func : func1) (raw : bool) (g : value -> value) (xs l : list value) :
  nodes s !! source = Some sd -> parents sd = [m] ->
  nodes s !! m = Some md -> parents md = [k] -> node_kind md = KMap func raw ->
  nodes s !! k = Some kd -> node_kind kd = KSink (CbAppend L) ->
  heap s !! L = Some l ->
  raw = true \/ stream_map s = [] ->
  Forall (fun x => func x = Ok (g x)) xs ->
  emit_all (S (S depth)) source xs s
  = (Ok tt, set_heap (<[L := l ++ map g xs]> (heap s)) s).
Proof.
  intros Hs Hsp Hm Hmp Hkind Hk Hkk HL Hbase Hxs.
  pose proof (map_run depth s source m k L sd md kd Hs Hsp Hm Hmp Hk Hkk
                func raw g xs Hkind Hbase (lookup_lt_Some _ _ _ HL) Hxs l) as Hrun.
  cbv beta zeta in Hrun. rewrite (set_heap_insert_same s L l HL) in Hrun. exact Hrun.
Qed.

Lemma map_sink_receives_function_values_witness :
  let s := fst (fst (map_to_list inc false)) in
  emit_all 2 0 [VInt 3; VInt 4] s = (Ok tt, set_heap [[VInt 4; VInt 5]] s).
Proof.
  cbv zeta.
  apply (map_sink_receives_function_values 0 (fst (fst (map_to_list inc false)))
           0 1 2 0 _ _ _ inc false
           (fun x => match inc x with Ok y => y | Raise _ => VNone end)
           [VInt 3; VInt 4] []
           eq_refl eq_refl eq_refl eq_refl eq_refl eq_refl eq_refl eq_refl).
  - right. reflexivity.
  - repeat constructor.
Defined.

(** For [source.filter(predicate)] feeding a list through a sink: pushing
    the values [xs], on each of which the predicate returns, appends to the
    list exactly the values on which the predicate is true, in their order
    of arrival; pushing nothing appends nothing. *)
Theorem filter_sink_receives_subsequence
    (depth : nat) (s : store) (source m k L : nat) (sd md kd : Stream)
    (predicate : func1) (g : value -> value) (xs l : list value) :
  nodes s !! source = Some sd -> parents sd = [m] ->
  nodes s !! m = Some md -> parents md = [k] -> node_kind md = KFilter predicate ->
  nodes s !! k = Some kd -> node_kind kd = KSink (CbAppend L) ->
  heap s !! L = Some l ->
  Forall (fun x => predicate x = Ok (g x)) xs ->
  emit_all (S (S depth)) source xs s
  = (Ok tt, set_heap (<[L := l ++ List.filter (fun x => truthy (g x)) xs]> (heap s)) s).
Proof.
  intros Hs Hsp Hm Hmp Hkind Hk Hkk HL Hxs.
  pose proof (filter_run depth s source m k L sd md kd Hs Hsp Hm Hmp Hk Hkk
                predicate g xs Hkind (lookup_lt_Some _ _ _ HL) Hxs l) as Hrun.
  cbv beta zeta in Hrun. rewrite (set_heap_insert_same s L l HL) in Hrun. exact Hrun.
Qed.

Lemma filter_sink_receives_subsequence_witness :
  let s := fst (fst (filter_to_list is_true)) in
  emit_all 2 0 [VInt 0; VInt 7; VNone; VStr "a"] s
  = (Ok tt, set_heap [[VInt 7; VStr "a"]] s).
Proof.
  cbv zeta.
  apply (filter_sink_receives_subsequence 0 (fst (fst (filter_to_list is_true)))
           0 1 2 0 _ _ _ is_true (fun x => x)
           [VInt 0; VInt 7; VNone; VStr "a"] []
           eq_refl eq_refl eq_refl eq_refl eq_refl eq_refl eq_refl eq_refl).
  repeat constructor.
Defined.

(** ** scan over a whole run *)

Lemma running_folds_lookup (g : value -> value -> value) (xs : list value) :
  forall (a : value) (k : nat),
    k < length xs ->
    running_folds g a xs !! k = Some (fold_left g (take (S k) xs) a).
Proof.
  induction xs as [| x xs IH]; intros a k Hk; simpl in Hk; [lia |].
  destruct k as [| k]; [reflexivity |]. simpl. apply IH. lia.
Qed.

Lemma scan_run_total (depth : nat) (reg : registry accumulate_handler)
    (g : value -> value -> value) (raw : bool) (xs : list value) :
  raw = true \/ (reg = [] /\ forall a b, g a b <> no_default) ->
  forall start : value,
    raw = true \/ start <> no_default ->
    run (scan_update depth reg) (mk_scan (fun a b => Ok (g a b)) raw start) xs
    = (mk_scan (fun a b => Ok (g a b)) raw (fold_left g xs start),
       map Emit (running_folds g start xs)).
Proof.
  intros Hmode. induction xs as [| x xs IH]; intros start Hstart; [reflexivity |].
  rewrite run_cons.
  assert (Hstep : scan_update depth reg (mk_scan (fun a b => Ok (g a b)) raw start) x
                  = (mk_scan (fun a b => Ok (g a b)) raw (g start x), Emit (g start x))).
  { unfold scan_update. cbn [scan_raw scan_func scan_state].
    destruct raw; [reflexivity |].
    destruct Hmode as [Hraw | [-> _]]; [discriminate Hraw |].
    destruct Hstart as [Hraw | Hstart]; [discriminate Hraw |].
    destruct depth; simpl; destruct start; try reflexivity;
      exfalso; apply Hstart; reflexivity. }
  rewrite Hstep. cbn [fst snd]. rewrite IH; [reflexivity |].
  destruct Hmode as [Hraw | [_ Hg]]; [left; exact Hraw | right; apply Hg].
Qed.

Lemma emissions_map_Emit (vs : list value) : emissions (map Emit vs) = vs.
Proof. induction vs as [| v vs IH]; [reflexivity |]. simpl. rewrite emissions_cons, IH. reflexivity. Qed.

(** A scan whose function [g] always returns, run with [raw] set, or with
    no [stream_accumulate] handler registered and the sentinel never
    produced: started from a seed it emits on every push, the [k]-th emission
    being the left fold of [g] over the first [k] values from the seed, and
    ends in the fold of all values; started without seed (and [raw] unset)
    it emits the first value itself and then the folds of the later values
    from it. *)
Theorem scan_emits_running_folds (depth : nat) (reg : registry accumulate_handler)
    (g : value -> value -> value) (raw : bool) (start : value) (xs : list value) :
  raw = true \/ (reg = [] /\ forall a b, g a b <> no_default) ->
  let f : func2 := fun a b => Ok (g a b) in
  (raw = true \/ start <> no_default ->
   let res := run (scan_update depth reg) (mk_scan f raw start) xs in
   emissions (snd res) = running_folds g start xs
   /\ length (emissions (snd res)) = length xs
   /\ scan_state (fst res) = fold_left g xs start
   /\ forall k, k < length xs ->
        emissions (snd res) !! k = Some (fold_left g (take (S k) xs) start))
  /\ (raw = false -> forall x : value, x <> no_default ->
      emissions (snd (run (scan_update depth reg) (mk_scan f false no_default) (x :: xs)))
      = x :: running_folds g x xs).
Proof.
  intros Hmode f. split.
  - intros Hstart. cbv zeta. unfold f.
    rewrite (scan_run_total depth reg g raw xs Hmode start Hstart). cbn [fst snd].
    rewrite emissions_map_Emit. split; [reflexivity |].
    split; [| split; [reflexivity | intros k Hk; apply running_folds_lookup; exact Hk]].
    clear. revert start. induction xs as [| x xs IH]; intros start; [reflexivity |].
    simpl. f_equal. apply IH.
  - intros -> x Hx. rewrite run_cons.
    assert (Hfirst : scan_update depth reg (mk_scan f false no_default) x
                     = (mk_scan f false x, Emit x))
      by (unfold scan_update; destruct depth; reflexivity).
    rewrite Hfirst. cbn [fst snd]. unfold f.
    rewrite (scan_run_total depth reg g false xs Hmode x (or_intror Hx)). cbn [snd].
    rewrite emissions_cons, emissions_map_Emit. reflexivity.
Qed.

Lemma scan_emits_running_folds_witness :
  emissions (snd (run (scan_update 5 [])
                      (mk_scan (fun a b => Ok (VTuple [a; b])) true (VInt 0))
                      [VInt 1; VInt 2]))
  = [VTuple [VInt 0; VInt 1]; VTuple [VTuple [VInt 0; VInt 1]; VInt 2]].
Proof.
  destruct (scan_emits_running_folds 5 [] (fun a b => VTuple [a; b]) true (VInt 0)
              [VInt 1; VInt 2] (or_introl eq_refl)) as [H _].
  destruct (H (or_introl eq_refl)) as [Hem _]. exact Hem.
Defined.

(** A push on which the accumulation raises changes nothing: the exception
    leaves [update], nothing is emitted, and the rest of the run, emissions
    and final state, is what it would have been without that push. *)
Theorem scan_skips_a_raising_push (depth : nat) (reg : registry accumulate_handler)
    (self : scan) (xs ys : list value) (x : value) (e : exn) :
  snd (scan_update depth reg (fst (run (scan_update depth reg) self xs)) x) = Throw e ->
  emissions (snd (run (scan_update depth reg) self (xs ++ x :: ys)))
  = emissions (snd (run (scan_update depth reg) self (xs ++ ys)))
  /\ fst (run (scan_update depth reg) self (xs ++ x :: ys))
     = fst (run (scan_update depth reg) self (xs ++ ys)).
Proof.
  intros Hthrow. rewrite !run_app. cbn [fst snd]. rewrite run_cons. cbn [fst snd].
  set (st := fst (run (scan_update depth reg) self xs)) in *.
  assert (Hsame : fst (scan_update depth reg st x) = st).
  { revert Hthrow. unfold scan_update.
    destruct (if scan_raw st then _ else _); [discriminate | reflexivity]. }
  rewrite Hsame, Hthrow, !emissions_app, emissions_cons. split; reflexivity.
Qed.

Lemma scan_skips_a_raising_push_witness :
  emissions (snd (run (scan_update 5 []) (mk_scan add_nonnegative false no_default)
                      ([VInt 1; VInt 2] ++ VInt (-5) :: [VInt 4])))
  = emissions (snd (run (scan_update 5 []) (mk_scan add_nonnegative false no_default)
                        ([VInt 1; VInt 2] ++ [VInt 4]))).
Proof.
  apply (scan_skips_a_raising_push 5 [] (mk_scan add_nonnegative false no_default)
           [VInt 1; VInt 2] [VInt 4] (VInt (-5)) (UserError "negative") eq_refl).
Defined.

(** ** partition with a group size that is never reached *)

Lemma partition_run_nonpositive (n : Z) (xs : list value) :
  (n <= 0)%Z ->
  forall b : list value,
    run partition_update (mk_partition n b) xs
    = (mk_partition n (b ++ xs), map (fun _ => Return (VList [])) xs).
Proof.
  intros Hn. induction xs as [| x xs IH]; intros b.
  - simpl. rewrite app_nil_r. reflexivity.
  - rewrite run_cons.
    assert (Hstep : partition_update (mk_partition n b) x
                    = (mk_partition n (b ++ [x]), Return (VList []))).
    { unfold partition_update. cbn [partition_buffer partition_n].
      destruct (Z.eqb_spec (Z.of_nat (length (b ++ [x]))) n) as [Heq | _];
        [rewrite length_app in Heq; simpl in Heq; lia | reflexivity]. }
    rewrite Hstep. cbn [fst snd]. rewrite IH, <- app_assoc. reflexivity.
Qed.

(** [partition(n)] with [n <= 0] never emits: the length of the buffer is
    never [n], so every value pushed stays in the buffer, which grows
    without bound. *)
Theorem partition_nonpositive_never_emits (n : Z) (xs : list value) :
  (n <= 0)%Z ->
  let res := run partition_update (partition_init n) xs in
  emissions (snd res) = [] /\ partition_buffer (fst res) = xs.
Proof.
  intros Hn. cbv zeta. unfold partition_init.
  rewrite (partition_run_nonpositive n xs Hn []). cbn [fst snd partition_buffer app].
  split; [| reflexivity]. induction xs as [| x xs IH]; [reflexivity | exact IH].
Qed.

Lemma partition_nonpositive_never_emits_witness :
  emissions (snd (run partition_update (partition_init 0) [VInt 1; VInt 2])) = []
  /\ partition_buffer (fst (run partition_update (partition_init 0) [VInt 1; VInt 2]))
     = [VInt 1; VInt 2].
Proof. apply (partition_nonpositive_never_emits 0 [VInt 1; VInt 2]). lia. Defined.

(** ** unique with a bounded history *)

Lemma py_eqb_refl : forall v : value, py_eqb v v = true.
Proof.
  fix IH 1. intros [| | z | s | l | l | i | c a]; simpl.
  - reflexivity.
  - reflexivity.
  - apply Z.eqb_refl.
  - apply String.eqb_refl.
  - induction l as [| x l IHl]; [reflexivity |]. rewrite (IH x), IHl. reflexivity.
  - induction l as [| x l IHl]; [reflexivity |]. rewrite (IH x), IHl. reflexivity.
  - apply Nat.eqb_refl.
  - rewrite String.eqb_refl, Nat.eqb_refl. reflexivity.
Qed.

Lemma seen_contains_last (seen : list value) (y : value) :
  seen_contains (seen ++ [y]) y = true.
Proof.
  unfold seen_contains. rewrite existsb_app. simpl.
  rewrite py_eqb_refl, orb_true_r. reflexivity.
Qed.

Lemma seen_setitem_contains (history : option Z) (seen : list value) (y : value) :
  (forall h, history = Some h -> (0 <= h)%Z) ->
  seen_contains (seen_setitem history seen y) y = true.
Proof.
  intros Hh. unfold seen_setitem. destruct history as [h |]; [| apply seen_contains_last].
  destruct (Z.eqb_spec h 0) as [_ | Hne]; [apply seen_contains_last |].
  specialize (Hh h eq_refl). unfold lru_setitem.
  rewrite length_app. simpl.
  rewrite drop_app_le by lia.
  unfold seen_contains. rewrite existsb_app. simpl.
  rewrite py_eqb_refl, orb_true_r. reflexivity.
Qed.

(** With any history that is not negative, a value pushed twice in a row is
    emitted at most once: if the first push returns, the second one emits
    nothing. *)
Theorem unique_suppresses_immediate_repeat (self : unique) (x : value) :
  (forall h, unique_history self = Some h -> (0 <= h)%Z) ->
  (forall e, snd (unique_update self x) <> Throw e) ->
  snd (unique_update (fst (unique_update self x)) x) = Return VNone.
Proof.
  intros Hh Hreturns. unfold unique_update in *.
  destruct (unique_key self x) as [y | e] eqn:Hy;
    [| exfalso; apply (Hreturns e); reflexivity].
  destruct (hashable y) eqn:Hhash; cbn [negb] in *;
    [| exfalso; apply (Hreturns TypeError); reflexivity].
  destruct (seen_contains (unique_seen self) y) eqn:Hseen; cbn [fst snd].
  - rewrite Hy, Hhash, Hseen. reflexivity.
  - cbn [unique_key unique_seen unique_history]. rewrite Hy, Hhash. cbn [negb].
    rewrite (seen_setitem_contains (unique_history self) (unique_seen self) y Hh).
    reflexivity.
Qed.

Lemma unique_suppresses_immediate_repeat_witness :
  snd (unique_update (fst (unique_update (unique_init (Some 1%Z) identity) (VInt 7)))
                     (VInt 7))
  = Return VNone.
Proof.
  apply (unique_suppresses_immediate_repeat (unique_init (Some 1%Z) identity) (VInt 7)).
  - intros h Hh. injection Hh as <-. lia.
  - intros e He. discriminate He.
Defined.

(** ** zip of a stream with itself *)

Lemma index_repeated (a : nat) : index (Some a) [Some a; Some a] = Some 0.
Proof. simpl. rewrite Nat.eqb_refl. reflexivity. Qed.

Lemma zip_same_stream_run (classes : class_table) (a : nat) (maxsize : Z)
    (xs : list value) :
  forall b : list value,
    let res := run (zip_step classes [Some a; Some a]) (mk_zip maxsize [b; []])
                   (map (fun x => (Some a, x)) xs) in
    fst res = mk_zip maxsize [b ++ xs; []] /\ emissions (snd res) = [].
Proof.
  cbv zeta. induction xs as [| x xs IH]; intros b.
  - simpl. rewrite app_nil_r. split; reflexivity.
  - cbn [map]. rewrite run_cons.
    assert (Hstep : exists a0,
               zip_step classes [Some a; Some a] (mk_zip maxsize [b; []]) (Some a, x)
               = (mk_zip maxsize [b ++ [x]; []], a0) /\ emitted_of a0 = []).
    { unfold zip_step, zip_update. cbn [fst snd]. rewrite index_repeated.
      cbn [zip_buffers zip_maxsize lookup list_lookup].
      change (<[0 := b ++ [x]]> [b; []]) with [b ++ [x]; ([] : list value)].
      cbn [forallb nonempty]. rewrite !andb_false_r.
      destruct (Z.ltb maxsize _); eexists; split; reflexivity. }
    destruct Hstep as (a0 & Hstep & Ha0). rewrite Hstep. cbn [fst snd].
    destruct (IH (b ++ [x])) as [Hst Hem]. rewrite Hst, emissions_cons, Ha0, Hem.
    rewrite <- app_assoc. split; reflexivity.
Qed.

(** [s.zip(s)] never emits: [children.index(who)] always finds the first
    entry, so every value goes to the first buffer and the second stays
    empty. *)
Theorem zip_same_stream_twice_never_emits (classes : class_table) (a : nat)
    (maxsize : Z) (xs : list value) :
  let res := run (zip_step classes [Some a; Some a]) (zip_init maxsize [Some a; Some a])
                 (map (fun x => (Some a, x)) xs) in
  emissions (snd res) = [] /\ zip_buffers (fst res) = [xs; []].
Proof.
  cbv zeta. destruct (zip_same_stream_run classes a maxsize xs []) as [Hst Hem].
  unfold zip_init. cbn [map]. rewrite Hst, Hem. split; reflexivity.
Qed.

(** ** combine_latest: what is emitted *)

Lemma latest_snoc (who src : option nat) (x : value) (evs : list arrival) :
  latest who (evs ++ [(src, x)]) = if who_eqb src who then x else latest who evs.
Proof.
  unfold latest, arrivals. rewrite List.filter_app, map_app. simpl.
  destruct (who_eqb src who); simpl.
  - apply List.last_last.
  - rewrite app_nil_r. reflexivity.
Qed.

Lemma index_NoDup (chn : list (option nat)) (who : option nat) (i j : nat) :
  NoDup chn -> index who chn = Some i -> chn !! j = Some who -> j = i.
Proof.
  intros Hnd Hi Hj. apply index_lookup in Hi.
  eapply NoDup_lookup; eassumption.
Qed.

Lemma combine_latest_last_invariant (classes : class_table) (chn : list (option nat))
    (evs : list arrival) :
  NoDup chn ->
  combine_latest_last
    (fst (run (combine_latest_step classes chn) (combine_latest_init chn) evs))
  = map (fun c => latest c evs) chn.
Proof.
  intros Hnd. induction evs as [| [who x] evs IH] using rev_ind.
  - simpl. apply map_ext. intros c. reflexivity.
  - rewrite run_app. cbn [fst]. rewrite run_cons. cbn [fst run].
    set (st := fst (run (combine_latest_step classes chn) (combine_latest_init chn) evs))
      in *.
    unfold combine_latest_step. cbn [fst snd].
    destruct (index who chn) as [i |] eqn:Hi.
    + assert (Hlen : i < length (combine_latest_last st)).
      { rewrite IH, length_map. eapply index_length. exact Hi. }
      rewrite (combine_latest_update_eq classes chn st x who i Hi Hlen).
      cbn [fst combine_latest_last]. rewrite IH.
      apply list_eq. intros j. rewrite list_lookup_fmap.
      destruct (decide (j = i)) as [-> | Hne].
      * rewrite list_lookup_insert_eq by (rewrite length_map; eapply index_length; exact Hi).
        rewrite (index_lookup who chn i Hi). cbn [fmap option_fmap option_map].
        rewrite latest_snoc.
        replace (who_eqb who who) with true by (symmetry; apply who_eqb_eq; reflexivity).
        reflexivity.
      * rewrite list_lookup_insert_ne by congruence. rewrite list_lookup_fmap.
        destruct (chn !! j) as [c |] eqn:Hj; [| reflexivity].
        cbn [fmap option_fmap option_map]. rewrite latest_snoc.
        destruct (who_eqb who c) eqn:Hc; [| reflexivity].
        apply who_eqb_eq in Hc. subst c. exfalso. apply Hne.
        eapply index_NoDup; eassumption.
    + rewrite (combine_latest_update_unknown classes chn st x who Hi).
      cbn [fst combine_latest_last]. rewrite IH.
      apply map_ext_in. intros c Hc. rewrite latest_snoc.
      destruct (who_eqb who c) eqn:Hwc; [| reflexivity].
      apply who_eqb_eq in Hwc. subst c. exfalso.
      apply (index_None who chn Hi). apply list_elem_of_In. exact Hc.
Qed.

(** With distinct inputs, what a combine_latest node emits on an arrival is
    the tuple of the latest value of every input, in input order, as of that
    arrival (when the arriving value has no [__stream_merge__]). *)
Theorem combine_latest_emits_latest_values (classes : class_table)
    (chn : list (option nat)) (evs : list arrival) (k : nat) (ev : arrival) (v : value) :
  NoDup chn ->
  evs !! k = Some ev ->
  stream_merge_of classes (snd ev) = None ->
  snd (run (combine_latest_step classes chn) (combine_latest_init chn) evs) !! k
  = Some (Emit v) ->
  v = VTuple (map (fun c => latest c (take (S k) evs)) chn).
Proof.
  intros Hnd Hk Hplain. rewrite (run_lookup _ _ _ _ _ Hk).
  destruct ev as [who x]. cbn [snd] in Hplain.
  intros Hact. injection Hact as Hact.
  pose proof (combine_latest_last_invariant classes chn (take k evs) Hnd) as Hlast.
  set (st := fst (run (combine_latest_step classes chn) (combine_latest_init chn)
                      (take k evs))) in *.
  assert (Hemit : is_emit (snd (combine_latest_update classes chn st x who)) = true)
    by (unfold combine_latest_step in Hact; cbn [fst snd] in Hact; rewrite Hact; reflexivity).
  apply combine_latest_emit_inv in Hemit. destruct Hemit as [Hfirst Hmissing].
  pose proof (index_of_first chn who Hfirst) as Hi.
  assert (Hlen : 0 < length (combine_latest_last st)).
  { rewrite Hlast, length_map. eapply index_length. exact Hi. }
  unfold combine_latest_step in Hact. cbn [fst snd] in Hact.
  rewrite (combine_latest_update_eq classes chn st x who 0 Hi Hlen) in Hact.
  cbn [snd] in Hact. rewrite Hmissing in Hact.
  rewrite bool_decide_eq_true_2 in Hact by reflexivity.
  replace (who_eqb who _) with true in Hact
    by (symmetry; apply (first_input_eqb chn who 0 Hi); exact Hfirst).
  cbn [andb] in Hact.
  rewrite emit_merged_plain in Hact.
  - injection Hact as <-. f_equal.
    pose proof (combine_latest_last_invariant classes chn (take (S k) evs) Hnd) as Hnext.
    rewrite (take_S_r evs k (who, x) Hk), run_app in Hnext. cbn [fst] in Hnext.
    rewrite run_cons in Hnext. cbn [fst run] in Hnext. fold st in Hnext.
    unfold combine_latest_step in Hnext. cbn [fst snd] in Hnext.
    rewrite (combine_latest_update_eq classes chn st x who 0 Hi Hlen) in Hnext.
    cbn [fst combine_latest_last] in Hnext.
    rewrite <- (take_S_r evs k (who, x) Hk) in Hnext. exact Hnext.
  - intros first Hf. rewrite list_lookup_insert_eq in Hf by exact Hlen.
    injection Hf as <-. exact Hplain.
Qed.

Lemma combine_latest_emits_latest_values_witness :
  VTuple [VInt 2; VInt 20]
  = VTuple (map (fun c => latest c (take 4 [(Some 0, VInt 1); (Some 1, VInt 10);
                                            (Some 1, VInt 20); (Some 0, VInt 2)]))
                [Some 0; Some 1]).
Proof.
  apply (combine_latest_emits_latest_values (fun _ => None) [Some 0; Some 1]
           [(Some 0, VInt 1); (Some 1, VInt 10); (Some 1, VInt 20); (Some 0, VInt 2)]
           3 (Some 0, VInt 2) (VTuple [VInt 2; VInt 20])).
  - apply NoDup_cons. split; [| apply NoDup_singleton].
    intros H. apply list_elem_of_singleton in H. discriminate H.
  - reflexivity.
  - reflexivity.
  - vm_compute. reflexivity.
Defined.

(** ** collect in a graph *)

Section CollectToList.
Variables (depth : nat) (s : store) (source col k cache L : nat) (sd cd kd : Stream).
Hypothesis source_node : nodes s !! source = Some sd.
Hypothesis source_listeners : parents sd = [col].
Hypothesis collector_node : nodes s !! col = Some cd.
Hypothesis collector_kind : node_kind cd = KCollect cache.
Hypothesis collector_listeners : parents cd = [k].
Hypothesis sink_node : nodes s !! k = Some kd.
Hypothesis sink_kind : node_kind kd = KSink (CbAppend L).
Hypothesis separate : cache <> L.

Lemma collect_push (h : list (list value)) (c : list value) (x : value) :
  h !! cache = Some c ->
  emit (S depth) source x (set_heap h s)
  = (Ok (VList []), set_heap (<[cache := c ++ [x]]> h) s).
Proof.
  intros Hc. unfold emit, Stream_emit. cbn [nodes set_heap].
  rewrite source_node, source_listeners. cbn [emit_loop update].
  cbn [nodes set_heap]. rewrite collector_node, collector_kind.
  unfold collect_update. cbn [heap set_heap]. rewrite Hc. reflexivity.
Qed.

Lemma collect_pushes (xs : list value) :
  forall (h : list (list value)) (c : list value),
    h !! cache = Some c ->
    emit_all (S depth) source xs (set_heap h s)
    = (Ok tt, set_heap (<[cache := c ++ xs]> h) s).
Proof.
  induction xs as [| x xs IH]; intros h c Hc.
  - simpl. rewrite app_nil_r, list_insert_id by exact Hc. reflexivity.
  - cbn [emit_all]. rewrite (collect_push h c x Hc).
    rewrite (IH (<[cache := c ++ [x]]> h) (c ++ [x])).
    + rewrite list_insert_insert_eq, <- app_assoc. reflexivity.
    + apply list_lookup_insert_eq. eapply lookup_lt_Some. exact Hc.
Qed.

Lemma collect_flush_to_list (h : list (list value)) (c l : list value) :
  h !! cache = Some c -> h !! L = Some l ->
  flush (S depth) col (set_heap h s)
  = (Ok VNone, set_heap (<[cache := []]> (<[L := l ++ [VTuple c]]> h)) s).
Proof.
  intros Hc Hl. unfold flush, collect_flush. cbn [nodes heap set_heap].
  rewrite collector_node, collector_kind, Hc, collector_listeners.
  unfold Stream_emit. cbn [emit_loop].
  rewrite (update_sink_append depth (set_heap h s) k L kd l (VTuple c) (Some col)
             sink_node sink_kind Hl).
  reflexivity.
Qed.
End CollectToList.

(** A collector between a source and a list: pushing the values [xs] at
    the source reaches no listener and only fills the cache; the flush that
    follows appends one tuple, all cached values in arrival order, to the
    list and empties the cache. *)
Theorem collect_then_flush_delivers_one_group
    (depth : nat) (s : store) (source col k cache L : nat) (sd cd kd : Stream)
    (xs c l : list value) :
  nodes s !! source = Some sd -> parents sd = [col] ->
  nodes s !! col = Some cd -> node_kind cd = KCollect cache -> parents cd = [k] ->
  nodes s !! k = Some kd -> node_kind kd = KSink (CbAppend L) ->
  cache <> L -> heap s !! cache = Some c -> heap s !! L = Some l ->
  emit_all (S depth) source xs s
  = (Ok tt, set_heap (<[cache := c ++ xs]> (heap s)) s)
  /\ flush (S depth) col (set_heap (<[cache := c ++ xs]> (heap s)) s)
     = (Ok VNone,
        set_heap (<[cache := []]> (<[L := l ++ [VTuple (c ++ xs)]]> (heap s))) s).
Proof.
  intros Hs Hsp Hc Hck Hcp Hk Hkk Hsep Hcache HL. split.
  - rewrite <- (set_heap_same s) at 1.
    apply (collect_pushes depth s source col cache sd cd Hs Hsp Hc Hck xs (heap s) c Hcache).
  - rewrite (collect_flush_to_list depth s col k cache L cd kd Hc Hck Hcp Hk Hkk
               (<[cache := c ++ xs]> (heap s)) (c ++ xs) l).
    + rewrite (list_insert_insert_ne _ L cache) by (intros Heq; apply Hsep; symmetry; exact Heq).
      rewrite list_insert_insert_eq. reflexivity.
    + apply list_lookup_insert_eq. eapply lookup_lt_Some. exact Hcache.
    + rewrite list_lookup_insert_ne by exact Hsep. exact HL.
Qed.

Lemma collect_then_flush_delivers_one_group_witness :
  let s := fst (fst (fst (fst (fst collect_example)))) in
  emit_all 1 0 [VInt 1; VInt 2] s = (Ok tt, set_heap [[VInt 1; VInt 2]; []] s)
  /\ flush 1 2 (set_heap [[VInt 1; VInt 2]; []] s)
     = (Ok VNone, set_heap [[]; [VTuple [VInt 1; VInt 2]]] s).
Proof.
  cbv zeta.
  apply (collect_then_flush_delivers_one_group 0
           (fst (fst (fst (fst (fst collect_example))))) 0 2 3 0 1 _ _ _
           [VInt 1; VInt 2] [] []
           eq_refl eq_refl eq_refl eq_refl eq_refl eq_refl eq_refl).
  - discriminate.
  - reflexivity.
  - reflexivity.
Defined.

(** ** union in a graph *)

Lemma update_union (depth : nat) (s : store) (u : nat) (ud : Stream) (x : value)
    (who : option nat) :
  nodes s !! u = Some ud -> node_kind ud = KUnion ->
  update (S depth) u x who s = Stream_emit (update depth) u x (parents ud) s.
Proof. intros Hu Hkind. simpl. rewrite Hu, Hkind. reflexivity. Qed.

Section UnionToList.
Variables (depth : nat) (s : store) (u k L : nat) (ud kd : Stream).
Hypothesis union_node : nodes s !! u = Some ud.
Hypothesis union_kind : node_kind ud = KUnion.
Hypothesis union_listeners : parents ud = [k].
Hypothesis sink_node : nodes s !! k = Some kd.
Hypothesis sink_kind : node_kind kd = KSink (CbAppend L).

Lemma union_push (a : nat) (ad : Stream) (x : value) (l : list value)
    (h : list (list value)) :
  nodes s !! a = Some ad -> parents ad = [u] -> h !! L = Some l ->
  emit (S (S depth)) a x (set_heap h s)
  = (Ok (VList []), set_heap (<[L := l ++ [x]]> h) s).
Proof.
  intros Ha Hap Hl. unfold emit, Stream_emit. cbn [nodes set_heap].
  rewrite Ha, Hap. cbn [emit_loop].
  rewrite (update_union (S depth) (set_heap h s) u ud x (Some a) union_node union_kind).
  unfold Stream_emit. rewrite union_listeners. cbn [emit_loop].
  rewrite (update_sink_append depth (set_heap h s) k L kd l x (Some u)
             sink_node sink_kind Hl).
  reflexivity.
Qed.

Lemma union_pushes (evs : list (nat * value)) :
  Forall (fun ev => exists ad, nodes s !! fst ev = Some ad /\ parents ad = [u]) evs ->
  forall (h : list (list value)) (l : list value),
    h !! L = Some l ->
    emit_seq (S (S depth)) evs (set_heap h s)
    = (Ok tt, set_heap (<[L := l ++ map snd evs]> h) s).
Proof.
  induction 1 as [| [a x] evs (ad & Ha & Hap) _ IH]; intros h l Hl.
  - simpl. rewrite app_nil_r, list_insert_id by exact Hl. reflexivity.
  - cbn [emit_seq]. cbn [fst] in Ha. rewrite (union_push a ad x l h Ha Hap Hl).
    rewrite (IH (<[L := l ++ [x]]> h) (l ++ [x])).
    + rewrite list_insert_insert_eq. simpl. rewrite <- app_assoc. reflexivity.
    + apply list_lookup_insert_eq. eapply lookup_lt_Some. exact Hl.
Qed.
End UnionToList.

(** A union in front of a list: whatever is pushed at any of its inputs, in
    any interleaving, is appended to the list at once, one entry per push
    in the order of the pushes; values of different inputs are never
    combined or held back. *)
Theorem union_forwards_every_value
    (depth : nat) (s : store) (u k L : nat) (ud kd : Stream)
    (evs : list (nat * value)) (l : list value) :
  nodes s !! u = Some ud -> node_kind ud = KUnion -> parents ud = [k] ->
  nodes s !! k = Some kd -> node_kind kd = KSink (CbAppend L) ->
  heap s !! L = Some l ->
  Forall (fun ev => exists ad, nodes s !! fst ev = Some ad /\ parents ad = [u]) evs ->
  emit_seq (S (S depth)) evs s
  = (Ok tt, set_heap (<[L := l ++ map snd evs]> (heap s)) s).
Proof.
  intros Hu Huk Hup Hk Hkk Hl Hevs.
  rewrite <- (set_heap_same s) at 1.
  apply (union_pushes depth s u k L ud kd Hu Huk Hup Hk Hkk evs Hevs (heap s) l Hl).
Qed.

Lemma union_forwards_every_value_witness :
  let s := fst (fst (fst union_to_list)) in
  emit_seq 2 [(0, VInt 1); (1, VInt 2); (1, VInt 3); (0, VInt 4)] s
  = (Ok tt, set_heap [[VInt 1; VInt 2; VInt 3; VInt 4]] s).
Proof.
  cbv zeta.
  apply (union_forwards_every_value 0 (fst (fst (fst union_to_list))) 2 3 0 _ _
           [(0, VInt 1); (1, VInt 2); (1, VInt 3); (0, VInt 4)] []
           eq_refl eq_refl eq_refl eq_refl eq_refl eq_refl).
  repeat (apply List.Forall_cons; [eexists; split; reflexivity |]).
  apply List.Forall_nil.
Defined.

(** ** concat *)

Lemma emit_recorded_log {S : Type}
    (upd : nat -> value -> option nat -> S -> result value * S)
    (self : nat) (x : value) (listeners : list nat) (s s' : S) (log log' : list call)
    (r : value) :
  Stream_emit (recorded upd) self x listeners (s, log) = (Ok r, (s', log')) ->
  log' = log ++ map (fun p => (p, x, Some self)) listeners.
Proof.
  unfold Stream_emit. rewrite emit_loop_call_listeners, call_listeners_recorded.
  destruct (call_listeners upd self x listeners s) as [[rs | e] s1]; [| discriminate].
  intros H. injection H as _ _ <-. reflexivity.
Qed.

Lemma concat_loop_log {S : Type}
    (upd : nat -> value -> option nat -> S -> result value * S)
    (self : nat) (listeners : list nat) (items : list value) :
  forall (L : list value) (s s' : S) (log log' : list call) (r : value),
    concat_loop (recorded upd) self listeners items L (s, log) = (Ok r, (s', log')) ->
    log' = log ++ concat (map (fun item => map (fun p => (p, item, Some self)) listeners)
                              items).
Proof.
  induction items as [| item rest IH]; intros L s s' log log' r; simpl.
  - intros H. injection H as _ _ <-. rewrite app_nil_r. reflexivity.
  - destruct (Stream_emit (recorded upd) self item listeners (s, log))
      as [[y | e] [s1 log1]] eqn:Hemit; [| discriminate].
    intros Hrest. apply IH in Hrest. apply emit_recorded_log in Hemit.
    rewrite Hrest, Hemit, <- app_assoc. reflexivity.
Qed.

(** [concat.update(x)], when it returns, has pushed the items of [x] one by
    one, in order, each to every listener in registration order; an item
    that is itself a list is pushed as it is (one level is flattened, not
    more); for an [x] without items no listener is called. *)
Theorem concat_emits_items_in_order {S : Type}
    (iterate : value -> result (list value))
    (upd : nat -> value -> option nat -> S -> result value * S)
    (self : nat) (listeners : list nat) (x : value) (items : list value)
    (s s' : S) (log log' : list call) (r : value) :
  iterate x = Ok items ->
  concat_update iterate (recorded upd) self listeners x (s, log) = (Ok r, (s', log')) ->
  log' = log ++ concat (map (fun item => map (fun p => (p, item, Some self)) listeners)
                            items).
Proof.
  intros Hitems. unfold concat_update. rewrite Hitems. apply concat_loop_log.
Qed.

Lemma concat_emits_items_in_order_witness :
  concat_update py_iter (recorded quiet) 5 [7; 8]
                (VList [VInt 1; VList [VInt 2; VInt 3]]) (tt, [])
  = (Ok (VList []),
     (tt, [(7, VInt 1, Some 5); (8, VInt 1, Some 5);
           (7, VList [VInt 2; VInt 3], Some 5); (8, VList [VInt 2; VInt 3], Some 5)]))
  /\ [(7, VInt 1, Some 5); (8, VInt 1, Some 5);
      (7, VList [VInt 2; VInt 3], Some 5); (8, VList [VInt 2; VInt 3], Some 5)]
     = [] ++ concat (map (fun item => map (fun p => (p, item, Some 5)) [7; 8])
                         [VInt 1; VList [VInt 2; VInt 3]]).
Proof.
  split; [reflexivity |].
  apply (concat_emits_items_in_order py_iter quiet 5 [7; 8]
           (VList [VInt 1; VList [VInt 2; VInt 3]]) [VInt 1; VList [VInt 2; VInt 3]]
           tt tt [] _ (VList []) eq_refl eq_refl).
Defined.

(** ** Dispatch handlers and the recursion limit *)

(** A [stream_map] handler that gives its own argument to the function it
    receives re-enters the dispatch with the same type for ever: whatever
    the depth allowed, [_stream_map] ends in RecursionError, and the user
    function is never applied. *)
Theorem stream_map_handler_on_itself_overflows (depth : nat) (reg : registry map_handler)
    (func : func1) (x : value) (h : map_handler) :
  dispatch reg (type_of x) = Some h ->
  (forall k : func1, h k x = k x) ->
  _stream_map depth reg func x = Raise RecursionError.
Proof.
  intros Hd Hh. induction depth as [| depth IH]; simpl; rewrite Hd; [reflexivity |].
  rewrite Hh. exact IH.
Qed.

Lemma stream_map_handler_on_itself_overflows_witness :
  _stream_map 50 (register TInt (fun k v => k v) []) inc (VInt 1) = Raise RecursionError.
Proof.
  apply (stream_map_handler_on_itself_overflows 50 (register TInt (fun k v => k v) [])
           inc (VInt 1) (fun k v => k v) eq_refl).
  intros k. reflexivity.
Defined.

Lemma wrapped_type (k : nat) (v : value) : type_of (wrapped (S k) v) = TTuple.
Proof. reflexivity. Qed.

(** With the unwrapping handler registered for the container type and no
    handler for the type of the content, [_stream_map] reaches through [k]
    nested containers: it applies the function to the content and wraps the
    result [k] times, provided [k] calls fit under the recursion limit; with
    less depth it ends in RecursionError. *)
Theorem stream_map_composes_through_containers (depth k : nat)
    (reg : registry map_handler) (func : func1) (v r : value) :
  dispatch reg TTuple = Some unwrap_map_handler ->
  dispatch reg (type_of v) = None ->
  func v = Ok r ->
  (k <= depth -> _stream_map depth reg func (wrapped k v) = Ok (wrapped k r))
  /\ (depth < k -> _stream_map depth reg func (wrapped k v) = Raise RecursionError).
Proof.
  intros Hreg Hbase Hfunc. revert depth.
  induction k as [| k IH]; intros depth.
  - split; [| lia]. intros _. destruct depth; simpl; rewrite Hbase; exact Hfunc.
  - split.
    + intros Hk. destruct depth as [| depth]; [lia |].
      cbn [_stream_map]. rewrite wrapped_type, Hreg. cbn [wrapped unwrap_map_handler].
      rewrite (proj1 (IH depth)) by lia. reflexivity.
    + intros Hk. destruct depth as [| depth].
      * cbn [_stream_map]. rewrite wrapped_type, Hreg. reflexivity.
      * cbn [_stream_map]. rewrite wrapped_type, Hreg. cbn [wrapped unwrap_map_handler].
        rewrite (proj2 (IH depth)) by lia. reflexivity.
Qed.

Lemma stream_map_composes_through_containers_witness :
  _stream_map 5 (register TTuple unwrap_map_handler []) inc (VTuple [VTuple [VInt 2]])
  = Ok (VTuple [VTuple [VInt 3]]).
Proof.
  destruct (stream_map_composes_through_containers 5 2
              (register TTuple unwrap_map_handler []) inc (VInt 2) (VInt 3)
              eq_refl eq_refl eq_refl) as [H _].
  apply H. lia.
Defined.

(** ** Wiring *)

Lemma wire_children (self : nat) (chn : list (option nat)) :
  forall ns : list Stream,
    let wired := fold_left (fun ns child =>
                              match child with
                              | Some c => alter (add_parent self) c ns
                              | None => ns
                              end) chn ns in
    length wired = length ns
    /\ forall (c : nat) (nd : Stream),
         ns !! c = Some nd ->
         wired !! c = Some (mk_Stream (parents nd ++ replicate (times_child c chn) self)
                                      (children nd) (node_kind nd)).
Proof.
  cbv zeta. induction chn as [| child chn IH]; intros ns.
  - simpl. split; [reflexivity |]. intros c nd Hc. rewrite app_nil_r.
    destruct nd; exact Hc.
  - cbn [fold_left]. destruct child as [c' |].
    + destruct (IH (alter (add_parent self) c' ns)) as [Hlen Hnodes].
      rewrite length_alter in Hlen. split; [exact Hlen |].
      intros c nd Hc. unfold times_child. cbn [List.filter who_eqb].
      destruct (Nat.eqb_spec c c') as [<- | Hne].
      * rewrite (Hnodes c (add_parent self nd))
          by (rewrite list_lookup_alter_eq, Hc; reflexivity).
        cbn [add_parent parents children node_kind length replicate].
        rewrite <- app_assoc. reflexivity.
      * rewrite (Hnodes c nd) by (rewrite list_lookup_alter_ne by congruence; exact Hc).
        reflexivity.
    + destruct (IH ns) as [Hlen Hnodes]. split; [exact Hlen |].
      intros c nd Hc. rewrite (Hnodes c nd Hc). reflexivity.
Qed.

Lemma times_child_absent (c : nat) (chn : list (option nat)) :
  ~ In (Some c) chn -> times_child c chn = 0.
Proof.
  unfold times_child. induction chn as [| child chn IH]; intros Hno; [reflexivity |].
  cbn [List.filter]. destruct (who_eqb (Some c) child) eqn:Hc.
  - apply who_eqb_eq in Hc. exfalso. apply Hno. left. symmetry. exact Hc.
  - apply IH. intros Hin. apply Hno. right. exact Hin.
Qed.

Lemma Stream_init_nodes (chn : list (option nat)) (k : kind) (s : store) :
  children_exist chn s ->
  let s' := snd (Stream_init chn k s) in
  length (nodes s') = S (length (nodes s))
  /\ nodes s' !! length (nodes s) = Some (mk_Stream [] chn k)
  /\ forall (c : nat) (nd : Stream),
       nodes s !! c = Some nd ->
       nodes s' !! c
       = Some (mk_Stream (parents nd ++ replicate (times_child c chn) (length (nodes s)))
                         (children nd) (node_kind nd)).
Proof.
  intros Hchn. cbv zeta. unfold Stream_init. cbn [fst snd nodes set_nodes heap].
  destruct (wire_children (length (nodes s)) chn (nodes s ++ [mk_Stream [] chn k]))
    as [Hlen Hnodes].
  split; [| split].
  - rewrite Hlen, length_app. simpl. lia.
  - rewrite (Hnodes (length (nodes s)) (mk_Stream [] chn k)).
    + rewrite times_child_absent; [reflexivity |].
      intros Hin. apply Hchn in Hin. lia.
    + rewrite lookup_app_r by lia. rewrite Nat.sub_diag. reflexivity.
  - intros c nd Hc. apply Hnodes. rewrite lookup_app_l; [exact Hc |].
    eapply lookup_lt_Some. exact Hc.
Qed.

(** Constructing a node on children that exist gives it the next identity,
    no listener of its own, and appends it to the listeners of every child,
    after the listeners registered before and once per occurrence among the
    children; nothing else in the store changes. *)
Theorem Stream_init_registers_with_children (chn : list (option nat)) (k : kind)
    (s : store) :
  children_exist chn s ->
  let self := fst (Stream_init chn k s) in
  let s' := snd (Stream_init chn k s) in
  self = length (nodes s)
  /\ length (nodes s') = S (length (nodes s))
  /\ nodes s' !! self = Some (mk_Stream [] chn k)
  /\ (forall (c : nat) (nd : Stream),
         nodes s !! c = Some nd ->
         nodes s' !! c
         = Some (mk_Stream (parents nd ++ replicate (times_child c chn) self)
                           (children nd) (node_kind nd)))
  /\ heap s' = heap s.
Proof.
  intros Hchn. cbv zeta.
  destruct (Stream_init_nodes chn k s Hchn) as (Hlen & Hnew & Hold).
  assert (Hself : fst (Stream_init chn k s) = length (nodes s)) by reflexivity.
  rewrite Hself. split; [reflexivity |].
  split; [exact Hlen | split; [exact Hnew | split; [exact Hold | reflexivity]]].
Qed.

Lemma Stream_init_registers_with_children_witness :
  nodes (snd (Stream_init [Some 0; Some 0] KUnion
                (snd (Stream_init [Some 0] KUnion
                        (snd (Stream_init [None] KStream empty_store)))))) !! 0
  = Some (mk_Stream [1; 2; 2] [None] KStream).
Proof.
  destruct (Stream_init_registers_with_children [Some 0; Some 0] KUnion
              (snd (Stream_init [Some 0] KUnion
                      (snd (Stream_init [None] KStream empty_store)))))
    as (_ & _ & _ & H & _).
  - intros j [Hj | [Hj | []]]; injection Hj as <-; simpl; lia.
  - apply (H 0 (mk_Stream [1] [None] KStream)). reflexivity.
Defined.

Lemma In_replicate (x y : nat) (n : nat) : In x (replicate n y) -> x = y.
Proof. induction n as [| n IH]; simpl; [intros [] | intros [-> | H]; [reflexivity | apply IH; exact H]]. Qed.

(** In a graph wired by the constructors the listeners of a node are
    always nodes created after it: the property holds for the empty store
    and every construction on existing children keeps it, so no node is
    ever, directly or through others, its own listener. *)
Theorem Stream_init_keeps_listeners_newer (chn : list (option nat)) (k : kind)
    (s : store) :
  children_exist chn s ->
  listeners_newer s ->
  listeners_newer (snd (Stream_init chn k s)).
Proof.
  intros Hchn Hinv.
  destruct (Stream_init_nodes chn k s Hchn) as (Hlen & Hnew & Hold).
  cbv zeta in Hlen, Hnew, Hold.
  intros i nd p Hi Hp. rewrite Hlen.
  destruct (decide (i < length (nodes s))) as [Hlt | Hge].
  - destruct (lookup_lt_is_Some_2 (nodes s) i Hlt) as [old Hi0].
    rewrite (Hold i old Hi0) in Hi. injection Hi as <-. cbn [parents] in Hp.
    apply in_app_or in Hp. destruct Hp as [Hp | Hp].
    + specialize (Hinv i old p Hi0 Hp). lia.
    + apply In_replicate in Hp. lia.
  - assert (Hi' : i = length (nodes s)).
    { pose proof (lookup_lt_Some _ _ _ Hi) as Hb. rewrite Hlen in Hb. lia. }
    subst i. rewrite Hnew in Hi. injection Hi as <-. destruct Hp.
Qed.

Lemma Stream_init_keeps_listeners_newer_witness :
  listeners_newer (snd (Stream_init [None] KStream empty_store)).
Proof.
  apply (Stream_init_keeps_listeners_newer [None] KStream empty_store).
  - intros j [Hj | []]. discriminate Hj.
  - intros i nd p Hi. destruct i; discriminate Hi.
Defined.

(** ** Propagation ends *)

Lemma keeps_refl (s : store) : flush_free s -> keeps s s.
Proof. intros H. repeat split; [exact H]. Qed.

Lemma keeps_trans (s s1 s2 : store) : keeps s s1 -> keeps s1 s2 -> keeps s s2.
Proof.
  intros (Hw & _ & Hm & Ha) (Hw' & Hf' & Hm' & Ha').
  repeat split; [congruence | exact Hf' | congruence | congruence].
Qed.

Lemma keeps_set_heap (s : store) (h : list (list value)) :
  flush_free s -> keeps s (set_heap h s).
Proof. intros H. repeat split; [exact H]. Qed.

Lemma keeps_set_futures (s : store) (n : nat) :
  flush_free s -> keeps s (set_futures n s).
Proof. intros H. repeat split; [exact H]. Qed.

Lemma keeps_set_kind (s : store) (self : nat) (k : kind) :
  flush_free s -> (forall c, k <> KSink (CbFlush c)) -> keeps s (set_kind self k s).
Proof.
  intros Hf Hk. repeat split.
  - unfold wiring, set_kind. cbn [nodes set_nodes]. apply list_eq. intros i.
    rewrite !list_lookup_fmap. destruct (decide (i = self)) as [-> | Hne].
    + rewrite list_lookup_alter_eq. destruct (nodes s !! self); reflexivity.
    + rewrite list_lookup_alter_ne by congruence. reflexivity.
  - intros i nd c. unfold set_kind. cbn [nodes set_nodes].
    destruct (decide (i = self)) as [-> | Hne].
    + rewrite list_lookup_alter_eq. destruct (nodes s !! self) as [old |]; [| discriminate].
      intros H. injection H as <-. cbn [node_kind]. apply Hk.
    + rewrite list_lookup_alter_ne by congruence. apply Hf.
Qed.

Lemma keeps_emit_loop (upd : nat -> value -> option nat -> store -> result value * store)
    (self : nat) (x : value) (listeners : list nat) :
  (forall p y who t, flush_free t -> keeps t (snd (upd p y who t))) ->
  forall (res : list value) (s : store),
    flush_free s -> keeps s (snd (emit_loop upd self x listeners res s)).
Proof.
  intros Hupd. induction listeners as [| p rest IH]; intros res s Hf; cbn [emit_loop].
  - apply keeps_refl. exact Hf.
  - pose proof (Hupd p x (Some self) s Hf) as Hp.
    destruct (upd p x (Some self) s) as [[r | e] s1]; cbn [snd] in *; [| exact Hp].
    eapply keeps_trans; [exact Hp |]. apply IH. apply Hp.
Qed.

Lemma keeps_perform (emit : value -> store -> result value * store) (a : action)
    (s : store) :
  (forall v t, flush_free t -> keeps t (snd (emit v t))) ->
  flush_free s -> keeps s (snd (perform emit a s)).
Proof.
  intros Hemit Hf. destruct a; cbn [perform snd].
  - apply Hemit. exact Hf.
  - apply keeps_refl. exact Hf.
  - apply keeps_set_futures. exact Hf.
  - apply keeps_refl. exact Hf.
Qed.

(** A push changes neither the wiring nor the registries. *)
Lemma update_keeps (depth : nat) :
  forall (self : nat) (x : value) (who : option nat) (s : store),
    flush_free s -> keeps s (snd (update depth self x who s)).
Proof.
  induction depth as [| depth IH]; intros self x who s Hf;
    [apply keeps_refl; exact Hf |].
  cbn [update]. destruct (nodes s !! self) as [nd |] eqn:Hnd;
    [| apply keeps_refl; exact Hf].
  assert (Hemit : forall v t, flush_free t ->
                    keeps t (snd (Stream_emit (update depth) self v (parents nd) t))).
  { intros v t Ht. apply keeps_emit_loop; [exact IH | exact Ht]. }
  assert (Hstep : forall (k : kind) (a : action),
             (forall c, k <> KSink (CbFlush c)) ->
             keeps s (snd (perform (fun v t => Stream_emit (update depth) self v (parents nd) t)
                                   a (set_kind self k s)))).
  { intros k a Hk. pose proof (keeps_set_kind s self k Hf Hk) as Hset.
    eapply keeps_trans; [exact Hset |]. apply keeps_perform; [exact Hemit | apply Hset]. }
  destruct (node_kind nd) as [| [f | L | c] | func raw | predicate | st | st | st | st
                              | st | st | | cache] eqn:Hkind.
  - apply keeps_refl. exact Hf.
  - destruct (f x); apply keeps_refl; exact Hf.
  - destruct (heap s !! L); [apply keeps_set_heap | apply keeps_refl]; exact Hf.
  - exfalso. apply (Hf self nd c Hnd Hkind).
  - destruct (if raw then _ else _); [apply Hemit | apply keeps_refl]; exact Hf.
  - destruct (predicate x) as [b | e]; [| apply keeps_refl; exact Hf].
    destruct (truthy b); [apply Hemit | apply keeps_refl]; exact Hf.
  - destruct (scan_update _ _ st x) as [st' a]. apply Hstep. discriminate.
  - destruct (partition_update st x) as [st' a]. apply Hstep. discriminate.
  - destruct (sliding_window_update st x) as [st' a]. apply Hstep. discriminate.
  - destruct (zip_update _ _ st x who) as [st' a]. apply Hstep. discriminate.
  - destruct (combine_latest_update _ _ st x who) as [st' a]. apply Hstep. discriminate.
  - destruct (unique_update st x) as [st' a]. apply Hstep. discriminate.
  - apply Hemit. exact Hf.
  - unfold collect_update. destruct (heap s !! cache);
      [apply keeps_set_heap | apply keeps_refl]; exact Hf.
Qed.

Lemma keeps_length (s t : store) : keeps s t -> length (nodes t) = length (nodes s).
Proof.
  intros (Hw & _). unfold wiring in Hw.
  rewrite <- (length_map parents (nodes t)), Hw, length_map. reflexivity.
Qed.

Lemma keeps_listeners_newer (s t : store) :
  keeps s t -> listeners_newer s -> listeners_newer t.
Proof.
  intros Hk Hs i nd p Hi Hp. rewrite (keeps_length s t Hk).
  destruct Hk as (Hw & _).
  assert (Hpar : wiring t !! i = Some (parents nd))
    by (unfold wiring; rewrite list_lookup_fmap, Hi; reflexivity).
  rewrite Hw in Hpar. unfold wiring in Hpar. rewrite list_lookup_fmap in Hpar.
  destruct (nodes s !! i) as [nd0 |] eqn:Hi0; [| discriminate].
  injection Hpar as Hpar. apply (Hs i nd0 p Hi0). rewrite Hpar. exact Hp.
Qed.

Lemma stream_accumulate_base_depth (depth depth' : nat) (func : func2) (p n : value) :
  _stream_accumulate depth [] func p n = _stream_accumulate depth' [] func p n.
Proof. destruct depth, depth'; reflexivity. Qed.

Lemma scan_update_base_depth (depth depth' : nat) (self : scan) (x : value) :
  scan_update depth [] self x = scan_update depth' [] self x.
Proof.
  unfold scan_update. rewrite (stream_accumulate_base_depth depth depth'). reflexivity.
Qed.

Lemma stream_map_base_depth (depth depth' : nat) (func : func1) (x : value) :
  _stream_map depth [] func x = _stream_map depth' [] func x.
Proof. destruct depth, depth'; reflexivity. Qed.

Lemma emit_loop_depth_free (n d d' : nat) (s : store) (self : nat) (x : value) :
  (forall (t : store) (p : nat) (y : value) (who : option nat),
      keeps s t -> self < p < length (nodes s) ->
      update d p y who t = update d' p y who t) ->
  flush_free s ->
  forall (listeners : list nat) (res : list value) (t : store),
    keeps s t ->
    (forall p, In p listeners -> self < p < length (nodes s)) ->
    emit_loop (update d) self x listeners res t
    = emit_loop (update d') self x listeners res t.
Proof.
  intros Hupd Hf. induction listeners as [| p rest IH]; intros res t Ht Hps;
    [reflexivity |].
  cbn [emit_loop]. rewrite <- (Hupd t p x (Some self) Ht) by (apply Hps; left; reflexivity).
  pose proof (update_keeps d p x (Some self) t (proj1 (proj2 Ht))) as Hnext.
  destruct (update d p x (Some self) t) as [[r | e] t1]; [| reflexivity].
  apply IH; [eapply keeps_trans; [exact Ht | exact Hnext] |].
  intros q Hq. apply Hps. right. exact Hq.
Qed.

Lemma update_depth_free (n : nat) :
  forall (s : store) (self : nat) (x : value) (who : option nat) (d d' : nat),
    listeners_newer s -> flush_free s ->
    stream_map s = [] -> stream_accumulate s = [] ->
    self < length (nodes s) -> length (nodes s) - self <= n ->
    n <= d -> n <= d' ->
    update d self x who s = update d' self x who s.
Proof.
  induction n as [| n IH]; intros s self x who d d' Hnew Hf Hm Ha Hself Hrank Hd Hd';
    [lia |].
  destruct d as [| d]; [lia |]. destruct d' as [| d']; [lia |].
  cbn [update]. destruct (nodes s !! self) as [nd |] eqn:Hnd; [| reflexivity].
  assert (Hlisteners : forall p, In p (parents nd) -> self < p < length (nodes s))
    by (intros p Hp; apply (Hnew self nd p Hnd Hp)).
  assert (Hupd : forall (t : store) (p : nat) (y : value) (who' : option nat),
             keeps s t -> self < p < length (nodes s) ->
             update d p y who' t = update d' p y who' t).
  { intros t p y who' Ht Hp. pose proof (keeps_length s t Ht) as Hlen.
    destruct Ht as (Hw & Hft & Hmt & Hat).
    apply IH; try lia.
    - apply (keeps_listeners_newer s t); [repeat split; assumption | exact Hnew].
    - exact Hft.
    - congruence.
    - congruence. }
  assert (Hemit : forall v t, keeps s t ->
             Stream_emit (update d) self v (parents nd) t
             = Stream_emit (update d') self v (parents nd) t).
  { intros v t Ht. unfold Stream_emit.
    apply (emit_loop_depth_free n d d' s self v Hupd Hf (parents nd) [] t Ht Hlisteners). }
  assert (Hstep : forall (k : kind) (a : action),
             (forall c, k <> KSink (CbFlush c)) ->
             perform (fun v t => Stream_emit (update d) self v (parents nd) t) a
                     (set_kind self k s)
             = perform (fun v t => Stream_emit (update d') self v (parents nd) t) a
                       (set_kind self k s)).
  { intros k a Hk. destruct a; cbn [perform]; try reflexivity.
    apply Hemit. apply keeps_set_kind; assumption. }
  pose proof (keeps_refl s Hf) as Hss.
  destruct (node_kind nd) as [| [f | L | c] | func raw | predicate | st | st | st | st
                              | st | st | | cache] eqn:Hkind; try reflexivity.
  - exfalso. apply (Hf self nd c Hnd Hkind).
  - rewrite Hm, (stream_map_base_depth d d').
    destruct (if raw then _ else _); [apply Hemit; exact Hss | reflexivity].
  - destruct (predicate x) as [b | e]; [| reflexivity].
    destruct (truthy b); [apply Hemit; exact Hss | reflexivity].
  - rewrite Ha, (scan_update_base_depth d d').
    destruct (scan_update d' [] st x) as [st' a]. apply Hstep. discriminate.
  - destruct (partition_update st x) as [st' a]. apply Hstep. discriminate.
  - destruct (sliding_window_update st x) as [st' a]. apply Hstep. discriminate.
  - destruct (zip_update _ _ st x who) as [st' a]. apply Hstep. discriminate.
  - destruct (combine_latest_update _ _ st x who) as [st' a]. apply Hstep. discriminate.
  - destruct (unique_update st x) as [st' a]. apply Hstep. discriminate.
  - apply Hemit. exact Hss.
Qed.

(** In a store where the listeners of every node are newer nodes, no sink
    calls [flush] and no dispatch handler is registered, a push at node
    [self] never nests more calls than there are nodes after [self]: any two
    recursion limits of at least that many calls give the same result and
    the same store, so propagation ends and the limit is never what decides
    the outcome. *)
Theorem propagation_depth_is_bounded (s : store) (self : nat) (x : value) (d d' : nat) :
  listeners_newer s -> flush_free s ->
  stream_map s = [] -> stream_accumulate s = [] ->
  self < length (nodes s) ->
  length (nodes s) - S self <= d -> length (nodes s) - S self <= d' ->
  emit d self x s = emit d' self x s.
Proof.
  intros Hnew Hf Hm Ha Hself Hd Hd'. unfold emit.
  destruct (nodes s !! self) as [nd |] eqn:Hnd; [| reflexivity].
  unfold Stream_emit.
  apply (emit_loop_depth_free (length (nodes s) - S self) d d' s self x).
  - intros t p y who Ht Hp. pose proof (keeps_length s t Ht) as Hlen.
    apply (update_depth_free (length (nodes s) - S self)); try lia.
    + apply (keeps_listeners_newer s t Ht Hnew).
    + apply Ht.
    + destruct Ht as (_ & _ & -> & _). exact Hm.
    + destruct Ht as (_ & _ & _ & ->). exact Ha.
  - exact Hf.
  - apply keeps_refl. exact Hf.
  - intros p Hp. apply (Hnew self nd p Hnd Hp).
Qed.

Lemma scan_to_list_listeners_newer :
  listeners_newer (fst (fst (scan_to_list py_add false no_default))).
Proof.
  intros i nd p Hi Hp.
  destruct i as [| [| [| i]]]; simpl in Hi; try discriminate Hi;
    injection Hi as <-; simpl in Hp;
    repeat (destruct Hp as [<- | Hp]; [simpl; lia |]); destruct Hp.
Qed.

Lemma scan_to_list_flush_free :
  flush_free (fst (fst (scan_to_list py_add false no_default))).
Proof.
  intros i nd c Hi.
  destruct i as [| [| [| i]]]; simpl in Hi; try discriminate Hi;
    injection Hi as <-; discriminate.
Qed.

Lemma propagation_depth_is_bounded_witness :
  emit 2 0 (VInt 1) (fst (fst (scan_to_list py_add false no_default)))
  = emit 1000 0 (VInt 1) (fst (fst (scan_to_list py_add false no_default))).
Proof.
  apply (propagation_depth_is_bounded (fst (fst (scan_to_list py_add false no_default)))
           0 (VInt 1) 2 1000 scan_to_list_listeners_newer scan_to_list_flush_free
           eq_refl eq_refl).
  - simpl. lia.
  - simpl. lia.
  - simpl. lia.
Defined.

(** * StreamDoc *)

Lemma dict_update_empty (d : gmap string value) : dict_update ∅ d = d.
Proof. unfold dict_update. apply (right_id_L ∅ (∪)). Qed.

Lemma dict_update_nothing (d : gmap string value) : dict_update d ∅ = d.
Proof. unfold dict_update. apply (left_id_L ∅ (∪)). Qed.

Lemma dict_update_lookup (d other : gmap string value) (k : string) :
  dict_update d other !! k
  = match other !! k with
    | Some v => Some v
    | None => d !! k
    end.
Proof.
  unfold dict_update. destruct (other !! k) as [v |] eqn:Hk.
  - apply lookup_union_Some_l. exact Hk.
  - apply lookup_union_r. exact Hk.
Qed.

(** A copy differs from the original in the uid only. *)
Lemma copy_doc_eq (uid : string) (self : StreamDoc) :
  copy_doc uid self
  = mk_StreamDoc (sd_args self) (sd_kwargs self) (sd_attributes self)
                 (sd_statistics self) uid (sd_wrapper self).
Proof.
  unfold copy_doc, StreamDoc_init, updatedoc, add. cbn.
  rewrite !dict_update_empty, !dict_update_nothing, app_nil_r. reflexivity.
Qed.

Lemma merge_nil (uid : string) (self : StreamDoc) :
  merge uid self []
  = mk_StreamDoc (sd_args self) (sd_kwargs self) (sd_attributes self)
                 (sd_statistics self) uid (sd_wrapper self).
Proof. unfold merge. cbn [fold_left]. apply copy_doc_eq. Qed.

Lemma merge_snoc (uid : string) (self : StreamDoc) (docs : list StreamDoc) (d : StreamDoc) :
  merge uid self (docs ++ [d]) = updatedoc d (merge uid self docs).
Proof. unfold merge. rewrite fold_left_app. reflexivity. Qed.

(** [merge] puts the args of the documents one after the other, receiver
    first; for every key of kwargs, attributes and statistics the right-most
    document that has the key decides; the result has its own uid and the
    wrapper of the last document. *)
Theorem merge_appends_args_and_overrides (uid : string) (self : StreamDoc)
    (docs : list StreamDoc) :
  sd_args (merge uid self docs) = sd_args self ++ concat (map sd_args docs)
  /\ sd_uid (merge uid self docs) = uid
  /\ sd_wrapper (merge uid self docs) = sd_wrapper (List.last docs self)
  /\ sd_kwargs (merge uid self []) = sd_kwargs self
  /\ sd_attributes (merge uid self []) = sd_attributes self
  /\ forall (d : StreamDoc) (k : string),
       sd_kwargs (merge uid self (docs ++ [d])) !! k
       = match sd_kwargs d !! k with
         | Some v => Some v
         | None => sd_kwargs (merge uid self docs) !! k
         end
       /\ sd_attributes (merge uid self (docs ++ [d])) !! k
          = match sd_attributes d !! k with
            | Some v => Some v
            | None => sd_attributes (merge uid self docs) !! k
            end.
Proof.
  split; [| split; [| split; [| split; [| split]]]].
  - induction docs as [| d docs IH] using rev_ind.
    + rewrite merge_nil. simpl. rewrite app_nil_r. reflexivity.
    + rewrite merge_snoc, map_app, concat_app. simpl.
      rewrite IH, app_nil_r, app_assoc. reflexivity.
  - induction docs as [| d docs IH] using rev_ind.
    + rewrite merge_nil. reflexivity.
    + rewrite merge_snoc. exact IH.
  - induction docs as [| d docs IH] using rev_ind.
    + rewrite merge_nil. reflexivity.
    + rewrite merge_snoc, List.last_last. reflexivity.
  - rewrite merge_nil. reflexivity.
  - rewrite merge_nil. reflexivity.
  - intros d k. rewrite merge_snoc. cbn [updatedoc add sd_kwargs sd_attributes].
    rewrite !dict_update_lookup. split; reflexivity.
Qed.

Lemma updatedoc_uid (d self : StreamDoc) (uid : string) :
  updatedoc d (mk_StreamDoc (sd_args self) (sd_kwargs self) (sd_attributes self)
                            (sd_statistics self) uid (sd_wrapper self))
  = let r := updatedoc d self in
    mk_StreamDoc (sd_args r) (sd_kwargs r) (sd_attributes r) (sd_statistics r) uid
                 (sd_wrapper r).
Proof. reflexivity. Qed.

(** Merging in two steps is merging in one: [a.merge( *bs).merge( *cs)] is
    [a.merge( *bs, *cs)], whatever uid the intermediate document got. *)
Theorem merge_of_merge (uid uid' : string) (a : StreamDoc) (bs cs : list StreamDoc) :
  merge uid' (merge uid a bs) cs = merge uid' a (bs ++ cs).
Proof.
  induction cs as [| c cs IH] using rev_ind.
  - rewrite app_nil_r, merge_nil.
    induction bs as [| b bs IHb] using rev_ind.
    + rewrite !merge_nil. reflexivity.
    + rewrite !merge_snoc. rewrite <- IHb. reflexivity.
  - rewrite app_assoc, !merge_snoc, IH. reflexivity.
Qed.

(** ** select *)

Lemma select_loop_app (d : StreamDoc) (xs ys : list mapelem) :
  forall st : select_state,
    select_loop d st (xs ++ ys)
    = match select_loop d st xs with
      | inl e => inl e
      | inr st' => select_loop d st' ys
      end.
Proof.
  induction xs as [| x xs IH]; intros st; [reflexivity |].
  simpl. destruct (select_step d st x) as [e | st']; [reflexivity | apply IH].
Qed.

Lemma py_index_nat (l : list value) (n : nat) : py_index l (Z.of_nat n) = l !! n.
Proof.
  unfold py_index. destruct (Z.leb_spec 0 (Z.of_nat n)); [| lia].
  rewrite Nat2Z.id. reflexivity.
Qed.

Lemma select_step_index (d : StreamDoc) (st : select_state) (n : nat) (v : value) :
  sd_args d !! n = Some v ->
  select_step d st (Bare (MInt (Z.of_nat n)))
  = inr (mk_select_state (newargs st ++ [v]) (newkwargs st) (Some InArgs)).
Proof.
  intros Hn. pose proof (lookup_lt_Some _ _ _ Hn) as Hlt.
  unfold select_step. cbn [normalize].
  destruct (Z.ltb_spec (Z.of_nat (length (sd_args d))) (Z.of_nat n)); [lia |].
  rewrite py_index_nat, Hn. reflexivity.
Qed.

Lemma select_loop_indices (d : StreamDoc) (indices : list nat) :
  Forall (fun i => i < length (sd_args d)) indices ->
  forall st : select_state,
    exists op,
      select_loop d st (map (fun i => Bare (MInt (Z.of_nat i))) indices)
      = inr (mk_select_state
               (newargs st ++ map (fun i => nth i (sd_args d) VNone) indices)
               (newkwargs st) op).
Proof.
  induction 1 as [| i indices Hi _ IH]; intros st.
  - exists (oldparentkey st). simpl. rewrite app_nil_r. destruct st; reflexivity.
  - destruct (lookup_lt_is_Some_2 _ _ Hi) as [v Hv].
    cbn [map select_loop]. rewrite (select_step_index d st i v Hv).
    destruct (IH (mk_select_state (newargs st ++ [v]) (newkwargs st) (Some InArgs)))
      as [op Hop].
    exists op. rewrite Hop. cbn [newargs newkwargs].
    rewrite (nth_lookup_Some _ _ VNone _ Hv), <- app_assoc. reflexivity.
Qed.

(** [select] with positions that exist returns a document whose args are
    the chosen args in the order asked, whose kwargs are empty (kwargs that
    are not named are dropped), and whose attributes, statistics and wrapper
    are those of the receiver; selecting every position in order gives the
    args back unchanged. *)
Theorem select_positions (uid : string) (self : StreamDoc) (indices : list nat) :
  Forall (fun i => i < length (sd_args self)) indices ->
  select uid self (map (fun i => Bare (MInt (Z.of_nat i))) indices)
  = inr (mk_StreamDoc (map (fun i => nth i (sd_args self) VNone) indices) ∅
                      (sd_attributes self) (sd_statistics self) uid (sd_wrapper self))
  /\ (indices = seq 0 (length (sd_args self)) ->
      map (fun i => nth i (sd_args self) VNone) indices = sd_args self).
Proof.
  intros Hin. split.
  - unfold select. rewrite copy_doc_eq.
    destruct (select_loop_indices
                (mk_StreamDoc (sd_args self) (sd_kwargs self) (sd_attributes self)
                              (sd_statistics self) uid (sd_wrapper self))
                indices Hin (mk_select_state [] ∅ None)) as [op Hop].
    rewrite Hop. reflexivity.
  - intros ->. apply list_eq. intros i. rewrite list_lookup_fmap.
    destruct (decide (i < length (sd_args self))) as [Hlt | Hge].
    + rewrite lookup_seq_lt by exact Hlt. simpl.
      destruct (lookup_lt_is_Some_2 _ _ Hlt) as [v Hv].
      rewrite (nth_lookup_Some _ _ VNone _ Hv), Hv. reflexivity.
    + rewrite lookup_seq_ge by lia. simpl. symmetry. apply lookup_ge_None. lia.
Qed.

Lemma select_positions_witness :
  select "uid-1" example_doc [Bare (MInt 1); Bare (MInt 0)]
  = inr (mk_StreamDoc [VInt 20; VInt 10] ∅ {[ "name" := VStr "scan" ]} ∅ "uid-1" VNone).
Proof.
  destruct (select_positions "uid-1" example_doc [1; 0]) as [H _].
  - repeat constructor.
  - exact H.
Defined.

Lemma select_accepts_prefix (uid : string) (self d : StreamDoc) (pre : list mapelem) :
  select uid self pre = inr d ->
  exists st, select_loop (copy_doc uid self) (mk_select_state [] ∅ None) pre = inr st.
Proof.
  unfold select. destruct (select_loop _ _ pre) as [e | st]; [discriminate |].
  intros _. exists st. reflexivity.
Qed.

Lemma select_after_prefix (uid : string) (self : StreamDoc) (pre rest : list mapelem)
    (m : mapelem) (st : select_state) (e : doc_error) :
  select_loop (copy_doc uid self) (mk_select_state [] ∅ None) pre = inr st ->
  select_step (copy_doc uid self) st m = inl e ->
  select uid self (pre ++ m :: rest) = inl e.
Proof.
  intros Hpre Hm. unfold select. rewrite select_loop_app, Hpre. cbn [select_loop].
  rewrite Hm. reflexivity.
Qed.

(** What [select] refuses, after any elements [pre] it accepts: an integer
    as new key is a ValueError, even when the old key does not exist; a name
    that is not among the kwargs and a position beyond [len(args)] are
    KeyErrors; the position [len(args)] itself passes the check of [select]
    and fails as an IndexError. *)
Theorem select_errors (uid : string) (self d : StreamDoc) (pre rest : list mapelem) :
  select uid self pre = inr d ->
  (forall (old : mapkey) (j : Z) (more : list mapkey),
      select uid self (pre ++ Pair (old :: MInt j :: more) :: rest) = inl DocValueError)
  /\ (forall (a : string),
         sd_kwargs self !! a = None ->
         select uid self (pre ++ Bare (MStr a) :: rest) = inl DocKeyError)
  /\ (forall (i : Z),
         (Z.of_nat (length (sd_args self)) < i)%Z ->
         select uid self (pre ++ Bare (MInt i) :: rest) = inl DocKeyError)
  /\ select uid self (pre ++ Bare (MInt (Z.of_nat (length (sd_args self)))) :: rest)
     = inl DocIndexError.
Proof.
  intros Hpre. destruct (select_accepts_prefix uid self d pre Hpre) as [st Hst].
  split; [| split; [| split]].
  - intros old j more. apply (select_after_prefix uid self pre rest _ st _ Hst).
    unfold select_step.
    assert (Hnorm : normalize (Pair (old :: MInt j :: more)) = inr (old :: MInt j :: more))
      by (destruct old; reflexivity).
    rewrite Hnorm. reflexivity.
  - intros a Ha. apply (select_after_prefix uid self pre rest _ st _ Hst).
    unfold select_step. cbn [normalize]. rewrite copy_doc_eq. cbn [sd_kwargs].
    rewrite Ha. reflexivity.
  - intros i Hi. apply (select_after_prefix uid self pre rest _ st _ Hst).
    unfold select_step. cbn [normalize]. rewrite copy_doc_eq. cbn [sd_args].
    destruct (Z.ltb_spec (Z.of_nat (length (sd_args self))) i); [reflexivity | lia].
  - apply (select_after_prefix uid self pre rest _ st _ Hst).
    unfold select_step. cbn [normalize]. rewrite copy_doc_eq. cbn [sd_args].
    rewrite Z.ltb_irrefl, py_index_nat.
    rewrite (lookup_ge_None_2 (sd_args self) (length (sd_args self))) by lia.
    reflexivity.
Qed.

Lemma select_errors_witness :
  select "uid-1" example_doc ([Bare (MInt 0)] ++ Bare (MInt 2) :: []) = inl DocIndexError
  /\ select "uid-1" example_doc ([Bare (MInt 0)] ++ Bare (MInt 3) :: []) = inl DocKeyError.
Proof.
  destruct (select_errors "uid-1" example_doc
              (mk_StreamDoc [VInt 10] ∅ {[ "name" := VStr "scan" ]} ∅ "uid-1" VNone)
              [Bare (MInt 0)] [] eq_refl) as (_ & _ & Hkey & Hindex).
  split; [exact Hindex | apply (Hkey 3%Z); simpl; lia].
Defined.

(** A negative position counts from the end, as Python indexing does:
    [select(-j)] with [1 <= j <= len(args)] picks the [j]-th arg from the
    end; below [-len(args)] it is an IndexError. *)
Theorem select_negative_position (uid : string) (self : StreamDoc) (j : nat) :
  1 <= j ->
  (j <= length (sd_args self) ->
   select uid self [Bare (MInt (- Z.of_nat j))]
   = inr (mk_StreamDoc [nth (length (sd_args self) - j) (sd_args self) VNone] ∅
                       (sd_attributes self) (sd_statistics self) uid (sd_wrapper self)))
  /\ (length (sd_args self) < j ->
      select uid self [Bare (MInt (- Z.of_nat j))] = inl DocIndexError).
Proof.
  intros Hj. unfold select. rewrite copy_doc_eq. cbn [select_loop].
  unfold select_step. cbn [normalize sd_args].
  destruct (Z.ltb_spec (Z.of_nat (length (sd_args self))) (- Z.of_nat j)); [lia |].
  unfold py_index. destruct (Z.leb_spec 0 (- Z.of_nat j)); [lia |].
  split; intros Hlen.
  - destruct (Z.leb_spec (- Z.of_nat (length (sd_args self))) (- Z.of_nat j)); [| lia].
    replace (Z.to_nat (Z.of_nat (length (sd_args self)) + - Z.of_nat j))
      with (length (sd_args self) - j) by lia.
    destruct (lookup_lt_is_Some_2 (sd_args self) (length (sd_args self) - j)) as [v Hv];
      [lia |].
    rewrite Hv, (nth_lookup_Some _ _ VNone _ Hv). reflexivity.
  - destruct (Z.leb_spec (- Z.of_nat (length (sd_args self))) (- Z.of_nat j)); [lia |].
    reflexivity.
Qed.

Lemma select_negative_position_witness :
  select "uid-1" example_doc [Bare (MInt (-1))]
  = inr (mk_StreamDoc [VInt 20] ∅ {[ "name" := VStr "scan" ]} ∅ "uid-1" VNone).
Proof.
  destruct (select_negative_position "uid-1" example_doc 1 (le_n 1)) as [H _].
  apply H. simpl. lia.
Defined.

(** ** get_return *)

(** [select] of one position or one name followed by [get_return()] gives
    the value selected: [select(i)] and [select((a, None))] make it the
    only arg, which [get_return] returns bare; [select(a)] keeps it a kwarg,
    and [get_return] returns the one-entry dict. *)
Theorem select_then_get_return (uid : string) (self : StreamDoc) :
  (forall (i : nat) (v : value),
      sd_args self !! i = Some v ->
      exists d, select uid self [Bare (MInt (Z.of_nat i))] = inr d
                /\ get_return d MNone = inr (RetItem v))
  /\ (forall (a : string) (v : value),
         sd_kwargs self !! a = Some v ->
         (exists d, select uid self [Pair [MStr a; MNone]] = inr d
                    /\ get_return d MNone = inr (RetItem v))
         /\ (exists d, select uid self [Bare (MStr a)] = inr d
                       /\ get_return d MNone = inr (RetKwargs {[ a := v ]})
                       /\ get_return d (MStr a) = inr (RetItem v))).
Proof.
  split.
  - intros i v Hv. unfold select. rewrite copy_doc_eq. cbn [select_loop].
    rewrite (select_step_index _ _ i v) by exact Hv. eexists. split; reflexivity.
  - intros a v Hv. split.
    + unfold select. rewrite copy_doc_eq. cbn [select_loop].
      unfold select_step. cbn [normalize sd_kwargs]. rewrite Hv.
      eexists. split; reflexivity.
    + unfold select. rewrite copy_doc_eq. cbn [select_loop].
      unfold select_step. cbn [normalize sd_kwargs]. rewrite Hv.
      eexists. split; [reflexivity |]. split.
      * unfold get_return. cbn [sd_args sd_kwargs newargs newkwargs length].
        rewrite insert_empty, map_size_singleton. reflexivity.
      * unfold get_return. cbn [sd_kwargs newkwargs].
        rewrite lookup_insert_eq. reflexivity.
Qed.

Lemma select_then_get_return_witness :
  exists d, select "uid-1" example_doc [Bare (MInt (Z.of_nat 1))] = inr d
            /\ get_return d MNone = inr (RetItem (VInt 20)).
Proof.
  destruct (select_then_get_return "uid-1" example_doc) as [H _].
  apply (H 1 (VInt 20)). reflexivity.
Defined.

(** What a function result stored with [add(args=result)] in an empty
    document comes back as: a result that is neither a list nor a tuple
    comes back itself; a one-item list or tuple comes back as its item, not
    as a sequence; a longer one as the list of its items; an empty one
    leaves the document empty and [get_return] returns the document. *)
Theorem get_return_of_added_result (uid : string) (wrapper : value) (v : value) :
  let d := add v ∅ ∅ ∅ (empty_doc uid wrapper) in
  ((forall l, v <> VList l) -> (forall l, v <> VTuple l) ->
   get_return d MNone = inr (RetItem v))
  /\ (forall l : list value,
         v = VList l \/ v = VTuple l ->
         get_return d MNone
         = inr (match l with
                | [] => RetSelf
                | [a] => RetItem a
                | _ => RetArgs l
                end)).
Proof.
  cbv zeta. split.
  - intros Hlist Htuple. unfold empty_doc, StreamDoc_init, add, get_return.
    cbn. destruct v; try reflexivity.
    + exfalso. apply (Htuple l). reflexivity.
    + exfalso. apply (Hlist l). reflexivity.
  - intros l [-> | ->]; unfold empty_doc, StreamDoc_init, add, get_return; cbn;
      destruct l as [| a [| b l]]; reflexivity.
Qed.

Lemma get_return_of_added_result_witness :
  get_return (add (VInt 5) ∅ ∅ ∅ (empty_doc "uid-2" VNone)) MNone = inr (RetItem (VInt 5))
  /\ get_return (add (VList [VInt 5]) ∅ ∅ ∅ (empty_doc "uid-2" VNone)) MNone
     = inr (RetItem (VInt 5)).
Proof.
  split.
  - apply (proj1 (get_return_of_added_result "uid-2" VNone (VInt 5)));
      intros l Hl; discriminate Hl.
  - apply (proj2 (get_return_of_added_result "uid-2" VNone (VList [VInt 5]))
             [VInt 5]).
    left. reflexivity.
Defined.

(** * merge *)

Lemma merge_fold_total (g : value -> value -> value) (bufs : list (list value)) :
  forall (res : value) (tup : list value) (rest : list (list value)),
    popleft_all bufs = Some (tup, rest) ->
    merge_fold (fun a b => Ok (g a b)) res bufs = (Ok (fold_left g tup res), rest).
Proof.
  induction bufs as [| buf bufs IH]; intros res tup rest; simpl.
  - intros H. injection H as <- <-. reflexivity.
  - destruct buf as [| b buf]; [discriminate |].
    destruct (popleft_all bufs) as [[tup' rest'] |] eqn:Hpop; [| discriminate].
    intros H. injection H as <- <-.
    rewrite (IH (g res b) tup' rest' eq_refl). reflexivity.
Qed.

(** A merge node with a combining function that always returns moves as
    the zip node does, emitting the fold where zip emits the tuple. *)
Lemma merge_update_as_zip (g : value -> value -> value) (chn : list (option nat))
    (self : merge_node) (x : value) (who : option nat) :
  merge_update (fun a b => Ok (g a b)) chn self x who
  = (as_merge (fst (zip_update (fun _ => None) chn (as_zip self) x who)),
     folded_action g (snd (zip_update (fun _ => None) chn (as_zip self) x who))).
Proof.
  unfold merge_update, zip_update, as_zip. cbn [zip_buffers zip_maxsize].
  destruct (index who chn) as [i |]; [| destruct self; reflexivity].
  destruct (merge_buffers self !! i) as [L |] eqn:HL; [| destruct self; reflexivity].
  destruct (Nat.eqb (length (L ++ [x])) 1 && forallb nonempty _) eqn:Hc.
  - apply andb_prop in Hc. destruct Hc as [_ Hall].
    destruct (popleft_all_spec _ Hall) as (tup & rest & Hpop & Hzip & Ht & Hr).
    rewrite Hpop. destruct (<[i := L ++ [x]]> (merge_buffers self)) as [| b0 bs] eqn:Hb.
    + apply (f_equal length) in Hb. rewrite length_insert in Hb.
      apply lookup_lt_Some in HL. simpl in Hb. lia.
    + simpl in Hpop. destruct b0 as [| res buf0]; [discriminate |].
      destruct (popleft_all bs) as [[tup' rest'] |] eqn:Hpop'; [| discriminate].
      injection Hpop as <- <-.
      rewrite (merge_fold_total g bs res tup' rest' Hpop').
      rewrite emit_merged_plain by (intros first _; destruct first; reflexivity).
      reflexivity.
  - destruct (Z.ltb _ _); reflexivity.
Qed.

Lemma merge_run_as_zip (g : value -> value -> value) (chn : list (option nat))
    (evs : list arrival) :
  forall self : merge_node,
    run (merge_step (fun a b => Ok (g a b)) chn) self evs
    = (as_merge (fst (run (zip_step (fun _ => None) chn) (as_zip self) evs)),
       map (folded_action g) (snd (run (zip_step (fun _ => None) chn) (as_zip self) evs))).
Proof.
  induction evs as [| ev evs IH]; intros self.
  - simpl. destruct self; reflexivity.
  - rewrite !run_cons.
    assert (Hstep : merge_step (fun a b => Ok (g a b)) chn self ev
                    = (as_merge (fst (zip_step (fun _ => None) chn (as_zip self) ev)),
                       folded_action g (snd (zip_step (fun _ => None) chn (as_zip self) ev))))
      by (unfold merge_step, zip_step; apply merge_update_as_zip).
    rewrite Hstep. cbn [fst snd]. rewrite IH.
    destruct (fst (zip_step (fun _ => None) chn (as_zip self) ev)) as [m bs].
    reflexivity.
Qed.

Lemma emissions_folded (g : value -> value -> value) (acts : list action) :
  emissions (map (folded_action g) acts) = map (folded g) (emissions acts).
Proof.
  induction acts as [| a acts IH]; [reflexivity |].
  cbn [map]. rewrite !emissions_cons, map_app, IH. destruct a; reflexivity.
Qed.

(** A merge of two distinct inputs whose combining step always returns,
    fed [k] values on each input in any interleaving, emits exactly [k]
    values, the [j]-th being the [j]-th value of the first input combined
    with the [j]-th value of the second, and ends with empty buffers. *)
Theorem merge_combines_rounds_in_arrival_order (g : value -> value -> value)
    (a b : nat) (maxsize : Z) (evs : list arrival) :
  a <> b ->
  Forall (fun ev => fst ev = Some a \/ fst ev = Some b) evs ->
  length (arrivals (Some a) evs) = length (arrivals (Some b) evs) ->
  let res := run (merge_step (fun p n => Ok (g p n)) [Some a; Some b])
                 (merge_init maxsize [Some a; Some b]) evs in
  emissions (snd res) = zip_with g (arrivals (Some a) evs) (arrivals (Some b) evs)
  /\ merge_buffers (fst res) = [[]; []].
Proof.
  intros Hab Hsrc Hk. cbv zeta. rewrite merge_run_as_zip. cbn [fst snd].
  destruct (zip_two_inputs_invariant (fun _ => None) a b maxsize Hab evs Hsrc)
    as (c0 & c1 & b0 & b1 & Hst & Ha & Hb & Hlen & Hempty & Hem);
    [intros x _; destruct x; reflexivity |].
  change (as_zip (merge_init maxsize [Some a; Some b]))
    with (zip_init maxsize [Some a; Some b]).
  rewrite Ha, Hb, !length_app in Hk.
  assert (Hb0 : b0 = []) by (destruct Hempty as [-> | ->]; [reflexivity |];
                             destruct b0; [reflexivity | simpl in Hk; lia]).
  assert (Hb1 : b1 = []) by (destruct Hempty as [-> | ->]; [| reflexivity];
                             destruct b1; [reflexivity | simpl in Hk; lia]).
  subst b0 b1. rewrite app_nil_r in Ha, Hb.
  rewrite Hst, emissions_folded, Hem, Ha, Hb. split; [| reflexivity].
  clear -Hlen. revert c1 Hlen. induction c0 as [| x c0 IH]; intros [| y c1] Hlen;
    simpl in *; try reflexivity; try lia.
  f_equal. apply IH. lia.
Qed.

Lemma merge_combines_rounds_in_arrival_order_witness :
  emissions (snd (run (merge_step (fun p n => Ok (VTuple [p; n])) [Some 0; Some 1])
                      (merge_init 10 [Some 0; Some 1])
                      [(Some 0, VInt 1); (Some 0, VInt 2); (Some 1, VInt 10);
                       (Some 1, VInt 20)]))
  = zip_with (fun p n => VTuple [p; n]) [VInt 1; VInt 2] [VInt 10; VInt 20].
Proof.
  destruct (merge_combines_rounds_in_arrival_order (fun p n => VTuple [p; n]) 0 1 10%Z
              [(Some 0, VInt 1); (Some 0, VInt 2); (Some 1, VInt 10); (Some 1, VInt 20)])
    as [H _].
  - discriminate.
  - repeat (apply List.Forall_cons; [simpl; auto |]). apply List.Forall_nil.
  - reflexivity.
  - exact H.
Defined.

(** * A stateful node between a source and a list *)

Lemma set_kind_same (s : store) (m : nat) (md : Stream) :
  nodes s !! m = Some md -> set_kind m (node_kind md) s = s.
Proof.
  intros Hm. unfold set_kind.
  replace (alter (fun nd => mk_Stream (parents nd) (children nd) (node_kind md)) m (nodes s))
    with (nodes s).
  - destruct s; reflexivity.
  - symmetry. apply list_eq. intros i. destruct (decide (i = m)) as [-> | Hne].
    + rewrite list_lookup_alter_eq, Hm. destruct md; reflexivity.
    + rewrite list_lookup_alter_ne by congruence. reflexivity.
Qed.

Section NodeToList.
Variables (St : Type) (inj : St -> kind) (step : St -> value -> St * action).
Hypothesis update_inj :
  forall (depth : nat) (s : store) (self : nat) (nd : Stream) (st : St) (x : value)
         (who : option nat),
    nodes s !! self = Some nd -> node_kind nd = inj st ->
    update (S depth) self x who s
    = perform (fun v t => Stream_emit (update depth) self v (parents nd) t)
              (snd (step st x)) (set_kind self (inj (fst (step st x))) s).
Hypothesis emits_or_returns :
  forall (st : St) (x : value),
    (exists v, snd (step st x) = Emit v) \/ snd (step st x) = Return (VList []).

Variables (depth : nat) (s : store) (source m k L : nat) (sd md kd : Stream).
Hypothesis source_node : nodes s !! source = Some sd.
Hypothesis source_listeners : parents sd = [m].
Hypothesis middle_node : nodes s !! m = Some md.
Hypothesis middle_listeners : parents md = [k].
Hypothesis sink_node : nodes s !! k = Some kd.
Hypothesis sink_kind : node_kind kd = KSink (CbAppend L).
Hypothesis source_apart : source <> m.
Hypothesis sink_apart : k <> m.
Hypothesis list_exists : L < length (heap s).

(** The store with the node in state [st] and the list holding [l]. *)
Let graph (st : St) (l : list value) : store :=
  set_heap (<[L := l]> (heap s)) (set_kind m (inj st) s).

Lemma graph_source (st : St) (l : list value) : nodes (graph st l) !! source = Some sd.
Proof.
  unfold graph, set_kind. cbn [nodes set_heap set_nodes].
  rewrite list_lookup_alter_ne by congruence. exact source_node.
Qed.

Lemma graph_sink (st : St) (l : list value) : nodes (graph st l) !! k = Some kd.
Proof.
  unfold graph, set_kind. cbn [nodes set_heap set_nodes].
  rewrite list_lookup_alter_ne by congruence. exact sink_node.
Qed.

Lemma graph_middle (st : St) (l : list value) :
  nodes (graph st l) !! m = Some (mk_Stream (parents md) (children md) (inj st)).
Proof.
  unfold graph, set_kind. cbn [nodes set_heap set_nodes].
  rewrite list_lookup_alter_eq, middle_node. reflexivity.
Qed.

Lemma graph_list (st : St) (l : list value) : heap (graph st l) !! L = Some l.
Proof. unfold graph. cbn [heap set_heap]. apply list_lookup_insert_eq. exact list_exists. Qed.

Lemma graph_set_kind (st st' : St) (l : list value) :
  set_kind m (inj st') (graph st l) = graph st' l.
Proof.
  unfold graph, set_kind, set_heap, set_nodes. cbn. f_equal.
  apply list_eq. intros i. destruct (decide (i = m)) as [-> | Hne].
  - rewrite !list_lookup_alter_eq. destruct (nodes s !! m); reflexivity.
  - rewrite !list_lookup_alter_ne by congruence. reflexivity.
Qed.

Lemma graph_set_list (st : St) (l l' : list value) :
  set_heap (<[L := l']> (heap (graph st l))) (graph st l) = graph st l'.
Proof. unfold graph. cbn [heap set_heap]. rewrite list_insert_insert_eq. reflexivity. Qed.

Lemma node_push (st : St) (l : list value) (x : value) :
  emit (S (S depth)) source x (graph st l)
  = (Ok (VList []), graph (fst (step st x)) (l ++ emitted_of (snd (step st x)))).
Proof.
  unfold emit, Stream_emit. rewrite graph_source, source_listeners. cbn [emit_loop].
  rewrite (update_inj (S depth) (graph st l) m _ st x (Some source)
             (graph_middle st l) eq_refl).
  rewrite graph_set_kind. cbn [parents].
  destruct (emits_or_returns st x) as [[v Hv] | Hr].
  - rewrite Hv. cbn [perform emitted_of]. unfold Stream_emit.
    rewrite middle_listeners. cbn [emit_loop].
    rewrite (update_sink_append depth (graph (fst (step st x)) l) k L kd l v (Some m)
               (graph_sink _ l) sink_kind (graph_list _ l)).
    rewrite graph_set_list. reflexivity.
  - rewrite Hr. cbn [perform emitted_of]. rewrite app_nil_r. reflexivity.
Qed.

Lemma node_pushes (xs : list value) :
  forall (st : St) (l : list value),
    emit_all (S (S depth)) source xs (graph st l)
    = (Ok tt, graph (fst (run step st xs)) (l ++ emissions (snd (run step st xs)))).
Proof.
  induction xs as [| x xs IH]; intros st l.
  - simpl. rewrite app_nil_r. reflexivity.
  - cbn [emit_all]. rewrite node_push, IH, run_cons. cbn [fst snd].
    rewrite emissions_cons, app_assoc. reflexivity.
Qed.

Lemma node_pushes_from (xs : list value) (st : St) (l : list value) :
  node_kind md = inj st -> heap s !! L = Some l ->
  emit_all (S (S depth)) source xs s
  = (Ok tt,
     set_heap (<[L := l ++ emissions (snd (run step st xs))]> (heap s))
              (set_kind m (inj (fst (run step st xs))) s)).
Proof.
  intros Hkind Hl.
  assert (Hs : s = graph st l).
  { unfold graph. rewrite <- Hkind, (set_kind_same s m md middle_node).
    rewrite list_insert_id by exact Hl. symmetry. apply set_heap_same. }
  rewrite Hs at 1. rewrite node_pushes. reflexivity.
Qed.
End NodeToList.

Lemma update_partition (depth : nat) (s : store) (self : nat) (nd : Stream)
    (st : partition) (x : value) (who : option nat) :
  nodes s !! self = Some nd -> node_kind nd = KPartition st ->
  update (S depth) self x who s
  = perform (fun v t => Stream_emit (update depth) self v (parents nd) t)
            (snd (partition_update st x))
            (set_kind self (KPartition (fst (partition_update st x))) s).
Proof.
  intros Hnd Hkind. simpl. rewrite Hnd, Hkind.
  destruct (partition_update st x); reflexivity.
Qed.

Lemma update_sliding_window (depth : nat) (s : store) (self : nat) (nd : Stream)
    (st : sliding_window) (x : value) (who : option nat) :
  nodes s !! self = Some nd -> node_kind nd = KSlidingWindow st ->
  update (S depth) self x who s
  = perform (fun v t => Stream_emit (update depth) self v (parents nd) t)
            (snd (sliding_window_update st x))
            (set_kind self (KSlidingWindow (fst (sliding_window_update st x))) s).
Proof.
  intros Hnd Hkind. simpl. rewrite Hnd, Hkind.
  destruct (sliding_window_update st x); reflexivity.
Qed.

Lemma partition_emits_or_returns (st : partition) (x : value) :
  (exists v, snd (partition_update st x) = Emit v)
  \/ snd (partition_update st x) = Return (VList []).
Proof.
  unfold partition_update. destruct (Z.eqb _ _); [left; eexists | right]; reflexivity.
Qed.

Lemma sliding_window_emits_or_returns (st : sliding_window) (x : value) :
  (exists v, snd (sliding_window_update st x) = Emit v)
  \/ snd (sliding_window_update st x) = Return (VList []).
Proof.
  unfold sliding_window_update. destruct (Nat.eqb _ _); [left; eexists | right]; reflexivity.
Qed.

(** A partition node between a source and a list: pushing the values [xs]
    at the source appends to the list exactly the groups that
    [partition.update] emits on those values, in order, and leaves the node
    in the state those updates lead to; every push returns to the producer
    with an empty list of handles. *)
Theorem partition_sink_receives_groups
    (depth : nat) (s : store) (source m k L : nat) (sd md kd : Stream)
    (st : partition) (xs l : list value) :
  nodes s !! source = Some sd -> parents sd = [m] ->
  nodes s !! m = Some md -> parents md = [k] -> node_kind md = KPartition st ->
  nodes s !! k = Some kd -> node_kind kd = KSink (CbAppend L) ->
  source <> m -> k <> m -> heap s !! L = Some l ->
  emit_all (S (S depth)) source xs s
  = (Ok tt,
     set_heap (<[L := l ++ emissions (snd (run partition_update st xs))]> (heap s))
              (set_kind m (KPartition (fst (run partition_update st xs))) s)).
Proof.
  intros Hs Hsp Hm Hmp Hkind Hk Hkk Hsm Hkm Hl.
  apply (node_pushes_from partition KPartition partition_update update_partition
           partition_emits_or_returns depth s source m k L sd md kd
           Hs Hsp Hm Hmp Hk Hkk Hsm Hkm (lookup_lt_Some _ _ _ Hl) xs st l Hkind Hl).
Qed.

Lemma partition_sink_receives_groups_witness :
  let s := fst (fst (partition_to_list 2)) in
  emit_all 2 0 (map VInt [1; 2; 3; 4; 5]%Z) s
  = (Ok tt,
     set_heap [[VTuple [VInt 1; VInt 2]; VTuple [VInt 3; VInt 4]]]
              (set_kind 1 (KPartition (mk_partition 2 [VInt 5])) s)).
Proof.
  cbv zeta.
  apply (partition_sink_receives_groups 0 (fst (fst (partition_to_list 2))) 0 1 2 0
           _ _ _ (partition_init 2) (map VInt [1; 2; 3; 4; 5]%Z) []
           eq_refl eq_refl eq_refl eq_refl eq_refl eq_refl eq_refl).
  - discriminate.
  - discriminate.
  - reflexivity.
Defined.

(** A sliding_window node between a source and a list: pushing the values
    [xs] at the source appends to the list exactly the windows that
    [sliding_window.update] emits on those values, in order, and leaves the
    node in the state those updates lead to. *)
Theorem sliding_window_sink_receives_windows
    (depth : nat) (s : store) (source m k L : nat) (sd md kd : Stream)
    (st : sliding_window) (xs l : list value) :
  nodes s !! source = Some sd -> parents sd = [m] ->
  nodes s !! m = Some md -> parents md = [k] -> node_kind md = KSlidingWindow st ->
  nodes s !! k = Some kd -> node_kind kd = KSink (CbAppend L) ->
  source <> m -> k <> m -> heap s !! L = Some l ->
  emit_all (S (S depth)) source xs s
  = (Ok tt,
     set_heap (<[L := l ++ emissions (snd (run sliding_window_update st xs))]> (heap s))
              (set_kind m (KSlidingWindow (fst (run sliding_window_update st xs))) s)).
Proof.
  intros Hs Hsp Hm Hmp Hkind Hk Hkk Hsm Hkm Hl.
  apply (node_pushes_from sliding_window KSlidingWindow sliding_window_update
           update_sliding_window sliding_window_emits_or_returns depth s source m k L
           sd md kd Hs Hsp Hm Hmp Hk Hkk Hsm Hkm (lookup_lt_Some _ _ _ Hl) xs st l
           Hkind Hl).
Qed.

Lemma sliding_window_sink_receives_windows_witness :
  let s := fst (fst (sliding_window_to_list 2)) in
  emit_all 2 0 (map VInt [1; 2; 3]%Z) s
  = (Ok tt,
     set_heap [[VTuple [VInt 1; VInt 2]; VTuple [VInt 2; VInt 3]]]
              (set_kind 1 (KSlidingWindow (mk_sliding_window 2 [VInt 2; VInt 3])) s)).
Proof.
  cbv zeta.
  apply (sliding_window_sink_receives_windows 0 (fst (fst (sliding_window_to_list 2)))
           0 1 2 0 _ _ _ (sliding_window_init 2) (map VInt [1; 2; 3]%Z) []
           eq_refl eq_refl eq_refl eq_refl eq_refl eq_refl eq_refl).
  - discriminate.
  - discriminate.
  - reflexivity.
Defined.
